(** * mongodrums: a shallow embedding of the instrumentation engine,
      the event sinks and the document utilities.

    The Python sources are [mongodrums/util/__init__.py],
    [mongodrums/sink.py] and [mongodrums/instrument.py].  Every
    definition below carries the name of the function it embeds. *)

From Stdlib Require Import ZArith List String Ascii Bool Lia DecimalString.
From stdpp Require Import base option list strings sorting gmap sets.

(** ** The part of the Python runtime the code relies on *)

(** Exact runtime types, as returned by [type(x)].  The thirteen named
    scalar classes are the non-container members of [BSON_TYPES];
    [S_other] stands for any class that is not named here (tuple, set, a
    user class, a subclass of dict or of str, ...).  Its flag records
    whether the class derives from [basestring], the only thing
    [isinstance] is asked about such a class. *)
Inductive scalar_type : Type :=
| S_int | S_long | S_str | S_unicode | S_bool | S_float | S_datetime
| S_ObjectId | S_SRE_Pattern | S_Code | S_NoneType | S_Binary | S_DBRef
| S_other (name : string) (derives_basestring : bool).

Inductive py_type : Type :=
| T_scalar (s : scalar_type)
| T_SON
| T_list
| T_dict.

Global Instance scalar_type_eq_dec : EqDecision scalar_type.
Proof. solve_decision. Defined.

Global Instance py_type_eq_dec : EqDecision py_type.
Proof. solve_decision. Defined.

(** Exceptions, by class.  [OtherException] is any further class derived
    from [Exception]; [BaseOnly] is a class derived from [BaseException]
    alone (KeyboardInterrupt, SystemExit, GeneratorExit). *)
Inductive exception : Type :=
| InvalidDocument (t : py_type)
| IndexError
| TypeError
| OperationFailure
| DuplicateKeyError
| AssertionError
| OtherException (name : string)
| BaseOnly (name : string).

Global Instance exception_eq_dec : EqDecision exception.
Proof. solve_decision. Defined.

(** A call either returns or raises. *)
Inductive result (A : Type) : Type :=
| Ok (a : A)
| Raise (e : exception).
Global Arguments Ok {A} a.
Global Arguments Raise {A} e.

Global Instance result_ret : MRet result := fun A a => Ok a.
Global Instance result_bind : MBind result := fun A B f m =>
  match m with
  | Ok a => f a
  | Raise e => Raise e
  end.

(** [map(f, l)] for an [f] that may raise: elements are visited left to
    right and the first exception ends the traversal. *)
Definition map_result {A B : Type} (f : A -> result B) : list A -> result (list B) :=
  fix go (l : list A) : result (list B) :=
    match l with
    | [] => Ok []
    | x :: l' => y ← f x; ys ← go l'; Ok (y :: ys)
    end.

(** *** Strings *)

(** [s.replace(old, new)]: occurrences of [old] are found left to right
    and do not overlap.  [skip] counts the characters of a match that
    are still to be dropped. *)
Fixpoint replace_from (old new : string) (skip : nat) (s : string) : string :=
  match s with
  | EmptyString => EmptyString
  | String c s' =>
      match skip with
      | S n => replace_from old new n s'
      | O =>
          if String.prefix old s
          then new +:+ replace_from old new (String.length old - 1) s'
          else String c (replace_from old new 0 s')
      end
  end.

(** For an empty [old] Python puts [new] before every character and at
    the end. *)
Fixpoint interleave (new s : string) : string :=
  match s with
  | EmptyString => new
  | String c s' => new +:+ String c (interleave new s')
  end.

Definition replace (old new s : string) : string :=
  match old with
  | EmptyString => interleave new s
  | _ => replace_from old new 0 s
  end.

(** [sep.join(l)] *)
Definition join (sep : string) (l : list string) : string := String.concat sep l.

(** [s.startswith(p)] *)
Definition startswith (s p : string) : bool := String.prefix p s.

(** ['%d' % n] *)
Definition format_d (n : Z) : string := NilZero.string_of_int (Z.to_int n).

(** ** mongodrums/util/__init__.py *)

Module Util.

(** Python objects as the utilities see them.  A [Scalar] is any object
    that is neither a list, a dict nor a SON; it carries its exact type
    and its value as an opaque payload.  Dicts and SONs are kept as
    their item lists, in iteration order; a well-formed one has no
    repeated key. *)
#[warnings="-register-all"]
Inductive obj : Type :=
| Scalar (t : scalar_type) (payload : string)
| PyList (l : list obj)
| PyDict (items : list (string * obj))
| SON (items : list (string * obj)).

Definition type_of (v : obj) : py_type :=
  match v with
  | Scalar t _ => T_scalar t
  | PyList _ => T_list
  | PyDict _ => T_dict
  | SON _ => T_SON
  end.

Definition BSON_TYPES : list py_type :=
  [ T_scalar S_int; T_scalar S_long; T_scalar S_str; T_scalar S_unicode;
    T_scalar S_bool; T_scalar S_float; T_scalar S_datetime;
    T_scalar S_ObjectId; T_scalar S_SRE_Pattern; T_scalar S_Code;
    T_scalar S_NoneType; T_scalar S_Binary; T_scalar S_DBRef;
    T_SON ].

(** [t in BSON_TYPES] *)
Definition in_BSON_TYPES (t : py_type) : bool := bool_decide (t ∈ BSON_TYPES).

(** [d[key]] on an item list. *)
Fixpoint getitem {A : Type} (items : list (string * A)) (key : string) : option A :=
  match items with
  | [] => None
  | (k, v) :: items' => if String.eqb k key then Some v else getitem items' key
  end.

(** [d[key] = v]: an existing key keeps its place, a new one goes last. *)
Fixpoint setitem {A : Type} (items : list (string * A)) (key : string) (v : A)
  : list (string * A) :=
  match items with
  | [] => [(key, v)]
  | (k, w) :: items' =>
      if String.eqb k key then (k, v) :: items' else (k, w) :: setitem items' key v
  end.

(** [dict(pairs)]: pairs are inserted in order, a later pair overwrites
    an earlier one with the same key. *)
Definition dict {A : Type} (pairs : list (string * A)) : list (string * A) :=
  fold_left (fun d kv => setitem d (fst kv) (snd kv)) pairs [].

Definition keys {A : Type} (items : list (string * A)) : list string := map fst items.

(** [sorted(keys)]: Python 2 compares byte strings lexicographically by
    character code, which is [String.le]. *)
Definition sorted (l : list string) : list string := merge_sort String.le l.

(** The mapping branch of [_p_skeleton], given for every key the result
    of the recursive call on its value.  The loop runs over the sorted
    keys and raises the first exception it meets in that order. *)
Fixpoint skeleton_mapping_loop (table : list (string * result (option string)))
  (ks : list string) (out : list string) : result (list string) :=
  match ks with
  | [] => Ok out
  | key :: ks' =>
      match getitem table key with
      | None => Raise (OtherException "KeyError")
      | Some r =>
          sub ← r;
          match sub with
          | Some s => skeleton_mapping_loop table ks' (out ++ [key +:+ ":" +:+ s])
          | None => skeleton_mapping_loop table ks' (out ++ [key])
          end
      end
  end.

(** The list branch: sub-skeletons that are not None are collected. *)
Definition skeleton_list_loop (f : obj -> result (option string))
  : list obj -> list string -> result (list string) :=
  fix go (l : list obj) (out : list string) : result (list string) :=
    match l with
    | [] => Ok out
    | element :: l' =>
        sub ← f element;
        match sub with
        | Some s => go l' (out ++ [s])
        | None => go l' out
        end
    end.

(** [_p_skeleton].  The result is [None] where the Python function falls
    off its end.  In the mapping branch the recursive calls are tabled
    per item first ([query_part[key]] is then a look-up in that table),
    so that the recursion is structural; the loop order and the
    exception raised are those of the source. *)
Fixpoint _p_skeleton (query_part : obj) : result (option string) :=
  let mapping (items : list (string * obj)) : result (option string) :=
    let table := map (fun kv => (fst kv, _p_skeleton (snd kv))) items in
    out ← skeleton_mapping_loop table (sorted (keys items)) [];
    Ok (Some ("{" +:+ join "," out +:+ "}")) in
  match query_part with
  | PyList l =>
      out ← skeleton_list_loop _p_skeleton l [];
      Ok (Some ("[" +:+ join "," out +:+ "]"))
  | PyDict items => mapping items
  | SON items => mapping items
  | Scalar t _ =>
      if negb (in_BSON_TYPES (T_scalar t)) then Raise (InvalidDocument (T_scalar t))
      else Ok None
  end.

(** [isinstance(o, basestring)].  Of the classes named in [BSON_TYPES],
    [str] and [unicode] are the string classes themselves, and
    [bson.code.Code] and, under Python 2, [bson.binary.Binary] derive
    from [str]. *)
Definition isinstance_basestring (o : obj) : bool :=
  match type_of o with
  | T_scalar S_str | T_scalar S_unicode | T_scalar S_Code | T_scalar S_Binary => true
  | T_scalar (S_other _ derives) => derives
  | _ => false
  end.

Section json_util.
(** [bson.json_util.loads] and [dumps] belong to the driver.  [dumps]
    is only applied to what [_p_skeleton] returns: None or a string. *)
Variable loads : obj -> result obj.
Variable dumps : option string -> string.

Definition skeleton (o : obj) : result string :=
  o' ← (if isinstance_basestring o then loads o else Ok o);
  s ← _p_skeleton o';
  Ok (dumps s).
End json_util.

(** [k.replace('$', '_$_').replace('.', '_,_')] *)
Definition sanitize_key (k : string) : string :=
  replace "." "_,_" (replace "$" "_$_" k).

(** [k.replace('_$_', '$').replace('_,_', '.')] *)
Definition desanitize_key (k : string) : string :=
  replace "_,_" "." (replace "_$_" "$" k).

Fixpoint _p_sanitize (value : obj) : result obj :=
  match value with
  | PyList l => l' ← map_result _p_sanitize l; Ok (PyList l')
  | PyDict items =>
      pairs ← map_result
                (fun kv => v ← _p_sanitize (snd kv); Ok (sanitize_key (fst kv), v))
                items;
      Ok (PyDict (dict pairs))
  | _ =>
      if negb (in_BSON_TYPES (type_of value))
      then Raise (InvalidDocument (type_of value))
      else Ok value
  end.

Fixpoint _p_desanitize (value : obj) : result obj :=
  match value with
  | PyList l => l' ← map_result _p_desanitize l; Ok (PyList l')
  | PyDict items =>
      pairs ← map_result
                (fun kv => v ← _p_desanitize (snd kv); Ok (desanitize_key (fst kv), v))
                items;
      Ok (PyDict (dict pairs))
  | _ =>
      if negb (in_BSON_TYPES (type_of value))
      then Raise (InvalidDocument (type_of value))
      else Ok value
  end.

Definition sanitize (value : obj) : result obj := _p_sanitize value.

Definition desanitize (value : obj) : result obj := _p_desanitize value.

(** The globals of a frame, as far as [get_pkg] reads them: whether
    ['__package__'] and ['__name__'] are present, and their values
    ([__package__] may be None). *)
Record globals : Type := {
  g_package : option (option string);
  g_name : option string
}.

(** [s.rpartition('.')[0]]: what precedes the last period, or the empty
    string when there is none. *)
Fixpoint before_last_dot (s : string) : option string :=
  match s with
  | EmptyString => None
  | String c s' =>
      match before_last_dot s' with
      | Some h => Some (String c h)
      | None => if Ascii.eqb c "." then Some EmptyString else None
      end
  end.

Definition rpartition_dot_0 (s : string) : string :=
  match before_last_dot s with
  | Some h => h
  | None => EmptyString
  end.

Definition get_pkg (globals_ : globals) : option string :=
  match g_package globals_ with
  | Some pkg => pkg
  | None =>
      match g_name globals_ with
      | Some name => Some (rpartition_dot_0 name)
      | None => None
      end
  end.

(** One entry of [inspect.stack()]: the frame's globals, the file name
    (index 1) and the line number (index 2). *)
Record frame_record : Type := {
  f_globals : globals;
  filename : string;
  lineno : Z
}.

(** [get_pkg(f[0].f_globals) not in filter_packages] *)
Definition pkg_not_in (filter_packages : list string) (f : frame_record) : bool :=
  match get_pkg (f_globals f) with
  | Some pkg => bool_decide (pkg ∉ filter_packages)
  | None => true
  end.

(** [get_source], as a function of the stack [inspect.stack()] returns.
    [up] is a non-negative index, as at every call site. *)
Definition get_source (stack : list frame_record)
  (filter_packages : option (list string)) (up : nat) : result string :=
  match stack !! up with
  | None => Raise IndexError
  | Some frame =>
      frame' ← match filter_packages with
               | None => Ok frame
               | Some pkgs =>
                   match List.filter (pkg_not_in pkgs) (drop up stack) with
                   | [] => Raise IndexError
                   | f :: _ => Ok f
                   end
               end;
      Ok (filename frame' +:+ ":" +:+ format_d (lineno frame'))
  end.

(** *** Predicates on documents *)

(** Composed only of lists, dicts, SONs and scalars of [BSON_TYPES], as
    [_p_skeleton] walks a value. *)
Fixpoint allowed (v : obj) : bool :=
  match v with
  | Scalar t _ => in_BSON_TYPES (T_scalar t)
  | PyList l => forallb allowed l
  | PyDict items => forallb (fun kv => allowed (snd kv)) items
  | SON items => forallb (fun kv => allowed (snd kv)) items
  end.

(** The same as [_p_sanitize] and [_p_desanitize] walk a value: a SON is
    a member of [BSON_TYPES] and what it holds is never looked at. *)
Fixpoint allowed_plain (v : obj) : bool :=
  match v with
  | Scalar t _ => in_BSON_TYPES (T_scalar t)
  | PyList l => forallb allowed_plain l
  | PyDict items => forallb (fun kv => allowed_plain (snd kv)) items
  | SON _ => true
  end.

(** A scalar leaf of the allow-list. *)
Definition allowed_scalar (v : obj) : bool :=
  match v with
  | Scalar t _ => in_BSON_TYPES (T_scalar t)
  | _ => false
  end.

(** What the mapping branch emits for a key. *)
Definition emit (key : string) (sub : option string) : string :=
  match sub with
  | Some s => key +:+ ":" +:+ s
  | None => key
  end.

(** The shape of a document in the words of the specification: a scalar
    leaf has no shape; a list has the shapes of its elements that have
    one, in order, between brackets; a mapping has one entry per key, the
    keys in lexicographic order, between braces. *)
#[warnings="-register-all"]
Inductive shape : obj -> option string -> Prop :=
| shape_leaf t payload :
    in_BSON_TYPES (T_scalar t) = true ->
    shape (Scalar t payload) None
| shape_list l subs :
    Forall2 shape l subs ->
    shape (PyList l) (Some ("[" +:+ join "," (omap id subs) +:+ "]"))
| shape_dict items ks subs :
    ks ≡ₚ keys items ->
    Sorted String.le ks ->
    Forall2 (fun key sub => ∃ x, getitem items key = Some x ∧ shape x sub) ks subs ->
    shape (PyDict items) (Some ("{" +:+ join "," (zip_with emit ks subs) +:+ "}"))
| shape_son items ks subs :
    ks ≡ₚ keys items ->
    Sorted String.le ks ->
    Forall2 (fun key sub => ∃ x, getitem items key = Some x ∧ shape x sub) ks subs ->
    shape (SON items) (Some ("{" +:+ join "," (zip_with emit ks subs) +:+ "}")).

(** Two documents with the same key structure: they differ in the types
    and values of their scalar leaves only. *)
#[warnings="-register-all"]
Inductive same_keys : obj -> obj -> Prop :=
| same_keys_leaf t payload t' payload' :
    in_BSON_TYPES (T_scalar t) = true ->
    in_BSON_TYPES (T_scalar t') = true ->
    same_keys (Scalar t payload) (Scalar t' payload')
| same_keys_list l l' :
    Forall2 same_keys l l' ->
    same_keys (PyList l) (PyList l')
| same_keys_dict items items' :
    Forall2 (fun kv kv' => fst kv = fst kv' ∧ same_keys (snd kv) (snd kv')) items items' ->
    same_keys (PyDict items) (PyDict items')
| same_keys_son items items' :
    Forall2 (fun kv kv' => fst kv = fst kv' ∧ same_keys (snd kv) (snd kv')) items items' ->
    same_keys (SON items) (SON items').

(** *** Keys *)

(** Replacing characters one by one: every character [c] becomes [f c]. *)
Fixpoint subst_char (f : ascii -> string) (s : string) : string :=
  match s with
  | EmptyString => EmptyString
  | String c s' => f c +:+ subst_char f s'
  end.

(** The escaping of a key in the words of the specification: every ['$']
    becomes ['_$_'], every ['.'] becomes ['_,_'], every other character
    stays. *)
Definition escape_char (c : ascii) : string :=
  if Ascii.eqb c "$" then "_$_"
  else if Ascii.eqb c "." then "_,_"
  else String c EmptyString.

Definition escape_key (k : string) : string := subst_char escape_char k.

(** The two escapings over arbitrary characters: [u] is the character
    around a token, [d] and [p] the characters escaped, [m] what stands
    for [p] inside its token. *)
Definition escape_both (u d p m : ascii) (c : ascii) : string :=
  if ascii_dec c d then String u (String d (String u EmptyString))
  else if ascii_dec c p then String u (String m (String u EmptyString))
  else String c EmptyString.

Definition escape_one (u p m : ascii) (c : ascii) : string :=
  if ascii_dec c p then String u (String m (String u EmptyString))
  else String c EmptyString.

(** [pat in s] *)
Fixpoint contains (pat s : string) : bool :=
  match s with
  | EmptyString => String.prefix pat EmptyString
  | String _ s' => String.prefix pat s || contains pat s'
  end.

(** Keys that survive the round trip: no ['_,'] followed by ['_'] or
    ['.']. *)
Definition key_round_trips (k : string) : bool :=
  negb (contains "_,_" k) && negb (contains "_,." k).

(** The claim's proviso: the key holds neither escape token. *)
Definition key_without_tokens (k : string) : bool :=
  negb (contains "_$_" k) && negb (contains "_,_" k).

(** [p] holds of every key of every plain dict that [_p_sanitize]
    reaches. *)
Fixpoint all_keys (p : string -> bool) (v : obj) : bool :=
  match v with
  | PyList l => forallb (all_keys p) l
  | PyDict items => forallb (fun kv => p (fst kv) && all_keys p (snd kv)) items
  | _ => true
  end.

(** Every plain dict that [_p_sanitize] reaches has distinct keys, also
    after [f] is applied to them. *)
Fixpoint distinct_keys (f : string -> string) (v : obj) : bool :=
  match v with
  | PyList l => forallb (distinct_keys f) l
  | PyDict items =>
      bool_decide (NoDup (map (fun kv => f (fst kv)) items))
      && forallb (fun kv => distinct_keys f (snd kv)) items
  | _ => true
  end.

(** What the claim says [sanitize] returns: keys escaped in every
    mapping, plain or field-ordered, at every level. *)
Fixpoint escape_keys_everywhere (v : obj) : obj :=
  let on_items := map (fun kv => (escape_key (fst kv), escape_keys_everywhere (snd kv))) in
  match v with
  | Scalar _ _ => v
  | PyList l => PyList (map escape_keys_everywhere l)
  | PyDict items => PyDict (on_items items)
  | SON items => SON (on_items items)
  end.

(** The same with a SON taken as a leaf. *)
Fixpoint escape_keys_plain (v : obj) : obj :=
  match v with
  | PyList l => PyList (map escape_keys_plain l)
  | PyDict items =>
      PyDict (map (fun kv => (escape_key (fst kv), escape_keys_plain (snd kv))) items)
  | _ => v
  end.

(** The types outside the allow-list that occur in a value, in the order
    of a left-to-right walk through lists, dicts and SONs. *)
Fixpoint offending (v : obj) : list py_type :=
  match v with
  | Scalar t _ => if in_BSON_TYPES (T_scalar t) then [] else [T_scalar t]
  | PyList l => flat_map offending l
  | PyDict items => flat_map (fun kv => offending (snd kv)) items
  | SON items => flat_map (fun kv => offending (snd kv)) items
  end.

(** The same through lists and plain dicts only. *)
Fixpoint offending_plain (v : obj) : list py_type :=
  match v with
  | Scalar t _ => if in_BSON_TYPES (T_scalar t) then [] else [T_scalar t]
  | PyList l => flat_map offending_plain l
  | PyDict items => flat_map (fun kv => offending_plain (snd kv)) items
  | SON _ => []
  end.

(** Every dict and every SON, at every level, has distinct keys. *)
Fixpoint unique_keys (v : obj) : bool :=
  match v with
  | Scalar _ _ => true
  | PyList l => forallb unique_keys l
  | PyDict items =>
      bool_decide (NoDup (keys items)) && forallb (fun kv => unique_keys (snd kv)) items
  | SON items =>
      bool_decide (NoDup (keys items)) && forallb (fun kv => unique_keys (snd kv)) items
  end.

(** *** Induction on documents *)

Section obj_nested_ind.
Variable P : obj -> Prop.
Hypothesis Hscalar : ∀ t payload, P (Scalar t payload).
Hypothesis Hlist : ∀ l, Forall P l -> P (PyList l).
Hypothesis Hdict : ∀ items, Forall (fun kv => P (snd kv)) items -> P (PyDict items).
Hypothesis Hson : ∀ items, Forall (fun kv => P (snd kv)) items -> P (SON items).

Fixpoint obj_nested_ind (v : obj) : P v :=
  let on_items :=
    fix go (items : list (string * obj)) : Forall (fun kv => P (snd kv)) items :=
      match items with
      | [] => List.Forall_nil _
      | kv :: r => List.Forall_cons _ kv r (obj_nested_ind (snd kv)) (go r)
      end in
  match v with
  | Scalar t payload => Hscalar t payload
  | PyList l =>
      Hlist l ((fix go (l : list obj) : Forall P l :=
                  match l with
                  | [] => List.Forall_nil _
                  | x :: r => List.Forall_cons _ x r (obj_nested_ind x) (go r)
                  end) l)
  | PyDict items => Hdict items (on_items items)
  | SON items => Hson items (on_items items)
  end.
End obj_nested_ind.

(** *** Call-site resolution *)

Lemma pkg_not_in_false (pkgs : list string) (f : frame_record) :
  pkg_not_in pkgs f = false ↔ ∃ pkg, get_pkg (f_globals f) = Some pkg ∧ pkg ∈ pkgs.
Proof.
  unfold pkg_not_in. destruct (get_pkg (f_globals f)) as [pkg|].
  - rewrite bool_decide_eq_false. split.
    + intros H. exists pkg. split; [done|]. by apply dec_stable.
    + intros (pkg' & [= <-] & Hin) Hnot. by apply Hnot.
  - split; [done|]. by intros (? & ? & _).
Qed.

Lemma filter_nil_Forall {A : Type} (p : A -> bool) (l : list A) :
  List.filter p l = [] ↔ Forall (fun x => p x = false) l.
Proof.
  induction l as [|x l IH]; simpl.
  - split; [constructor|done].
  - destruct (p x) eqn:Hp.
    + split; [done|]. intros H. inversion H; congruence.
    + rewrite IH. split; [by constructor|]. by inversion 1.
Qed.

Lemma filter_head_elem {A : Type} (p : A -> bool) (l : list A) (x : A) (r : list A) :
  List.filter p l = x :: r → x ∈ l ∧ p x = true.
Proof.
  intros H. assert (Hin : In x (List.filter p l)) by (rewrite H; by left).
  apply filter_In in Hin as [Hin Hp]. split; [by apply list_elem_of_In|done].
Qed.

(** C10: with a skip-set, [get_source] raises IndexError when every
    frame from depth [up] on resolves to a package of the skip-set, and
    it returns a ["<file>:<line>"] string only for a frame at or beyond
    [up] whose package is outside the skip-set. *)
Theorem get_source_skip_set (stack : list frame_record) (pkgs : list string) (up : nat) :
  (Forall (fun f => ∃ pkg, get_pkg (f_globals f) = Some pkg ∧ pkg ∈ pkgs) (drop up stack) →
   get_source stack (Some pkgs) up = Raise IndexError)
  ∧ (∀ s, get_source stack (Some pkgs) up = Ok s →
       ∃ f, f ∈ drop up stack
            ∧ (∀ pkg, get_pkg (f_globals f) = Some pkg → pkg ∉ pkgs)
            ∧ s = filename f +:+ ":" +:+ format_d (lineno f)).
Proof.
  unfold get_source. split.
  - intros Hall. destruct (stack !! up) as [frame|]; [|done].
    assert (List.filter (pkg_not_in pkgs) (drop up stack) = []) as ->; [|done].
    apply filter_nil_Forall. eapply Forall_impl; [exact Hall|].
    intros f Hf. by apply pkg_not_in_false.
  - intros s. destruct (stack !! up) as [frame|]; [|done].
    destruct (List.filter (pkg_not_in pkgs) (drop up stack)) as [|f r] eqn:Hfilter; [done|].
    simpl. intros [= <-]. apply filter_head_elem in Hfilter as [Hin Hp].
    exists f. split_and!; [done| |done].
    intros pkg Hpkg Hmem.
    assert (pkg_not_in pkgs f = false) by (apply pkg_not_in_false; eauto).
    congruence.
Qed.

Definition frame_in (pkg file : string) (line : Z) : frame_record :=
  {| f_globals := {| g_package := Some (Some pkg); g_name := None |};
     filename := file; lineno := line |}.

Lemma get_source_skip_set_witness :
  get_source [frame_in "mongodrums" "util.py" 134; frame_in "mongodrums" "instrument.py" 106;
              frame_in "pymongo" "cursor.py" 904]
             (Some ["mongodrums"; "pymongo"]) 1 = Raise IndexError
  ∧ ∃ f, f ∈ drop 1 [frame_in "mongodrums" "util.py" 134; frame_in "mongodrums" "instrument.py" 106;
                     frame_in "app" "main.py" 12]
         ∧ (∀ pkg, get_pkg (f_globals f) = Some pkg → pkg ∉ ["mongodrums"])
         ∧ "main.py:12" = filename f +:+ ":" +:+ format_d (lineno f).
Proof.
  split.
  - apply (proj1 (get_source_skip_set _ _ _)).
    repeat constructor; eexists; (split; [reflexivity|]); set_solver.
  - apply (proj2 (get_source_skip_set _ ["mongodrums"] 1) "main.py:12"). reflexivity.
Defined.

(** *** Document shapes *)

Lemma getitem_Some_elem {A : Type} (items : list (string * A)) (key : string) (x : A) :
  getitem items key = Some x → (key, x) ∈ items.
Proof.
  induction items as [|[k v] items IH]; simpl; [done|].
  destruct (String.eqb k key) eqn:Hk.
  - intros [= ->]. apply String.eqb_eq in Hk as ->. left.
  - intros H. right. by apply IH.
Qed.

Lemma getitem_is_Some {A : Type} (items : list (string * A)) (key : string) :
  key ∈ keys items → is_Some (getitem items key).
Proof.
  induction items as [|[k v] items IH]; simpl.
  - by intros ?%elem_of_nil.
  - destruct (String.eqb k key) eqn:Hk; [by eauto|].
    intros [->|Hin]%elem_of_cons; [|by apply IH].
    by rewrite String.eqb_refl in Hk.
Qed.

Lemma getitem_table {A B : Type} (f : A -> B) (items : list (string * A)) (key : string) :
  getitem (map (fun kv => (fst kv, f (snd kv))) items) key = f <$> getitem items key.
Proof.
  induction items as [|[k v] items IH]; simpl; [done|].
  by destruct (String.eqb k key).
Qed.

Lemma skeleton_list_loop_ok (f : obj -> result (option string)) (l : list obj)
  (subs : list (option string)) (out : list string) :
  Forall2 (fun element sub => f element = Ok sub) l subs →
  skeleton_list_loop f l out = Ok (out ++ omap id subs).
Proof.
  intros H. revert out. induction H as [|element sub l subs Hf _ IH]; intros out; simpl.
  - by rewrite app_nil_r.
  - rewrite Hf. simpl. destruct sub as [s|]; simpl; rewrite IH; [|done].
    by rewrite <- app_assoc.
Qed.

Lemma skeleton_mapping_loop_ok (table : list (string * result (option string)))
  (ks : list string) (subs : list (option string)) (out : list string) :
  Forall2 (fun key sub => getitem table key = Some (Ok sub)) ks subs →
  skeleton_mapping_loop table ks out = Ok (out ++ zip_with emit ks subs).
Proof.
  intros H. revert out. induction H as [|key sub ks subs Hf _ IH]; intros out; simpl.
  - by rewrite app_nil_r.
  - rewrite Hf. simpl. destruct sub as [s|]; simpl; rewrite IH; by rewrite <- app_assoc.
Qed.

Lemma skeleton_list_loop_ext (f : obj -> result (option string)) (l l' : list obj)
  (out : list string) :
  Forall2 (fun element element' => f element' = f element) l l' →
  skeleton_list_loop f l' out = skeleton_list_loop f l out.
Proof.
  intros H. revert out. induction H as [|element element' l l' Hf _ IH]; intros out; simpl.
  - done.
  - rewrite Hf. destruct (f element) as [[s|]|e]; simpl; auto.
Qed.

Lemma skeleton_mapping_loop_ext (table table' : list (string * result (option string)))
  (ks : list string) (out : list string) :
  (∀ key, getitem table' key = getitem table key) →
  skeleton_mapping_loop table' ks out = skeleton_mapping_loop table ks out.
Proof.
  intros H. revert out. induction ks as [|key ks IH]; intros out; simpl; [done|].
  rewrite H. destruct (getitem table key) as [[[s|]|e]|]; simpl; auto.
Qed.

Lemma same_keys_tables (items items' : list (string * obj)) :
  Forall2 (fun kv kv' => fst kv = fst kv' ∧ _p_skeleton (snd kv') = _p_skeleton (snd kv))
          items items' →
  keys items' = keys items
  ∧ ∀ key, getitem (map (fun kv => (fst kv, _p_skeleton (snd kv))) items') key
           = getitem (map (fun kv => (fst kv, _p_skeleton (snd kv))) items) key.
Proof.
  induction 1 as [|[k v] [k' v'] items items' [Hk Hv] _ [IHk IHt]]; simpl in *; [done|].
  subst k'. split; [by rewrite IHk|].
  intros key. rewrite Hv, IHt. done.
Qed.

(** The mapping branch on a well-behaved table. *)
Lemma mapping_shapes (items : list (string * obj)) (ks : list string) :
  ks ⊆ keys items →
  Forall (fun kv => ∃ sub, _p_skeleton (snd kv) = Ok sub ∧ shape (snd kv) sub) items →
  ∃ subs,
    Forall2 (fun key sub =>
               getitem (map (fun kv => (fst kv, _p_skeleton (snd kv))) items) key
               = Some (Ok sub)) ks subs
    ∧ Forall2 (fun key sub => ∃ x, getitem items key = Some x ∧ shape x sub) ks subs.
Proof.
  intros Hsub Hitems. induction ks as [|key ks IH].
  - exists []. split; constructor.
  - destruct IH as (subs & Htab & Hshape); [set_solver|].
    destruct (getitem_is_Some items key) as [x Hx]; [set_solver|].
    pose proof (getitem_Some_elem _ _ _ Hx) as Hin.
    rewrite Forall_forall in Hitems. destruct (Hitems _ Hin) as (sub & Hsk & Hsh).
    simpl in Hsk, Hsh. exists (sub :: subs). split; constructor; try done.
    + rewrite getitem_table, Hx. simpl. by rewrite Hsk.
    + eauto.
Qed.

Lemma skeleton_follows_shape (x : obj) :
  allowed x = true → ∃ s, _p_skeleton x = Ok s ∧ shape x s.
Proof.
  induction x as [t payload|l IH|items IH|items IH] using obj_nested_ind; intros Hx.
  - simpl in *. rewrite Hx. simpl. exists None. split; [done|by constructor].
  - assert (∃ subs, Forall2 (fun e sub => _p_skeleton e = Ok sub) l subs
                    ∧ Forall2 shape l subs) as (subs & Hsk & Hsh).
    { simpl in Hx. induction IH as [|e l He _ IHl].
      - exists []. split; constructor.
      - simpl in Hx. apply andb_true_iff in Hx as [Hxe Hxl].
        destruct (He Hxe) as (sub & ? & ?). destruct (IHl Hxl) as (subs & ? & ?).
        exists (sub :: subs). split; by constructor. }
    exists (Some ("[" +:+ join "," (omap id subs) +:+ "]")). split; [|by constructor].
    simpl. by rewrite (skeleton_list_loop_ok _ _ _ _ Hsk).
  - assert (Forall (fun kv => ∃ sub, _p_skeleton (snd kv) = Ok sub ∧ shape (snd kv) sub) items)
      as Hitems.
    { simpl in Hx. induction IH as [|kv items Hkv _ IHl]; [constructor|].
      simpl in Hx. apply andb_true_iff in Hx as [Hxe Hxl]. constructor; auto. }
    destruct (mapping_shapes items (sorted (keys items))) as (subs & Htab & Hsh); [|done|].
    { unfold sorted. intros k. by rewrite merge_sort_Permutation. }
    exists (Some ("{" +:+ join "," (zip_with emit (sorted (keys items)) subs) +:+ "}")). split.
    + simpl. by rewrite (skeleton_mapping_loop_ok _ _ _ _ Htab).
    + apply shape_dict; [apply merge_sort_Permutation|apply (Sorted_merge_sort _)|done].
  - assert (Forall (fun kv => ∃ sub, _p_skeleton (snd kv) = Ok sub ∧ shape (snd kv) sub) items)
      as Hitems.
    { simpl in Hx. induction IH as [|kv items Hkv _ IHl]; [constructor|].
      simpl in Hx. apply andb_true_iff in Hx as [Hxe Hxl]. constructor; auto. }
    destruct (mapping_shapes items (sorted (keys items))) as (subs & Htab & Hsh); [|done|].
    { unfold sorted. intros k. by rewrite merge_sort_Permutation. }
    exists (Some ("{" +:+ join "," (zip_with emit (sorted (keys items)) subs) +:+ "}")). split.
    + simpl. by rewrite (skeleton_mapping_loop_ok _ _ _ _ Htab).
    + apply shape_son; [apply merge_sort_Permutation|apply (Sorted_merge_sort _)|done].
Qed.

Lemma skeleton_same_keys (x y : obj) :
  same_keys x y → _p_skeleton y = _p_skeleton x.
Proof.
  revert y.
  induction x as [t payload|l IH|items IH|items IH] using obj_nested_ind;
    intros y Hxy; inversion Hxy as [? ? ? ? Ht Ht'|? l' Hl|? items' Hi|? items' Hi]; subst.
  - simpl. by rewrite Ht, Ht'.
  - simpl. rewrite (skeleton_list_loop_ext _ l l'); [done|].
    clear Hxy. induction Hl as [|e e' l l' He _ IHl]; [constructor|].
    inversion IH; subst. constructor; auto.
  - assert (Forall2 (fun kv kv' => fst kv = fst kv'
                                   ∧ _p_skeleton (snd kv') = _p_skeleton (snd kv)) items items')
      as Hsk.
    { clear Hxy. induction Hi as [|kv kv' items items' [Hk Hv] _ IHl]; [constructor|].
      inversion IH; subst. constructor; auto. }
    apply same_keys_tables in Hsk as [Hkeys Htab].
    simpl. rewrite Hkeys.
    by rewrite (skeleton_mapping_loop_ext _ _ _ _ Htab).
  - assert (Forall2 (fun kv kv' => fst kv = fst kv'
                                   ∧ _p_skeleton (snd kv') = _p_skeleton (snd kv)) items items')
      as Hsk.
    { clear Hxy. induction Hi as [|kv kv' items items' [Hk Hv] _ IHl]; [constructor|].
      inversion IH; subst. constructor; auto. }
    apply same_keys_tables in Hsk as [Hkeys Htab].
    simpl. rewrite Hkeys.
    by rewrite (skeleton_mapping_loop_ext _ _ _ _ Htab).
Qed.

Lemma skeleton_scalar_list (leaves : list obj) :
  forallb allowed_scalar leaves = true →
  _p_skeleton (PyList leaves) = Ok (Some "[]").
Proof.
  intros H. simpl.
  assert (skeleton_list_loop _p_skeleton leaves [] = Ok []) as ->; [|done].
  induction leaves as [|[t payload| | |] leaves IH]; simpl in *; try done.
  apply andb_true_iff in H as [Ht Hl]. rewrite Ht. simpl. auto.
Qed.

(** C7: [_p_skeleton] follows the three-case recursion of the
    specification on every document [x] composed of allowed types (a
    scalar leaf has no shape, a list keeps the shapes of its non-scalar
    elements in order, a mapping lists its keys in sorted order, each
    followed by its value's shape when there is one); a list of scalar
    leaves has shape ["[]"] whatever its length; a document [y] with the
    key structure of [x] has the shape of [x]; and [skeleton] returns the
    encoding of that shape for a document that is not an instance of a
    string class (str, unicode, Code, Binary or a class derived from
    them), which [skeleton] hands to [loads] first. *)
Theorem skeleton_three_case_recursion (x y : obj) (leaves : list obj) :
  allowed x = true →
  same_keys x y →
  forallb allowed_scalar leaves = true →
  (∃ s, _p_skeleton x = Ok s ∧ shape x s ∧ _p_skeleton y = Ok s)
  ∧ _p_skeleton (PyList leaves) = Ok (Some "[]")
  ∧ ∀ loads dumps,
      isinstance_basestring x = false → isinstance_basestring y = false →
      ∃ s, shape x s ∧ skeleton loads dumps x = Ok (dumps s)
           ∧ skeleton loads dumps y = Ok (dumps s).
Proof.
  intros Hx Hxy Hleaves.
  destruct (skeleton_follows_shape x Hx) as (s & Hs & Hshape).
  pose proof (skeleton_same_keys x y Hxy) as Hy. rewrite Hs in Hy.
  split_and!.
  - eauto.
  - by apply skeleton_scalar_list.
  - intros loads dumps Hbx Hby. exists s. unfold skeleton.
    rewrite Hbx, Hby. simpl. rewrite Hs, Hy. done.
Qed.

Definition find_bob : obj :=
  PyDict [("name", Scalar S_str "bob");
          ("$or", PyList [PyDict [("b", Scalar S_int "1"); ("a.c", Scalar S_int "2")];
                          Scalar S_int "3"])].

Definition find_alice : obj :=
  PyDict [("name", Scalar S_unicode "alice");
          ("$or", PyList [PyDict [("b", Scalar S_float "1.5"); ("a.c", Scalar S_NoneType "None")];
                          Scalar S_bool "True"])].

Lemma skeleton_three_case_recursion_witness :
  (∃ s, _p_skeleton find_bob = Ok s ∧ shape find_bob s ∧ _p_skeleton find_alice = Ok s)
  ∧ _p_skeleton (PyList [Scalar S_int "1"; Scalar S_int "2"; Scalar S_str "x"]) = Ok (Some "[]")
  ∧ ∀ loads dumps,
      isinstance_basestring find_bob = false → isinstance_basestring find_alice = false →
      ∃ s, shape find_bob s ∧ skeleton loads dumps find_bob = Ok (dumps s)
           ∧ skeleton loads dumps find_alice = Ok (dumps s).
Proof.
  apply (skeleton_three_case_recursion find_bob find_alice
           [Scalar S_int "1"; Scalar S_int "2"; Scalar S_str "x"]).
  - reflexivity.
  - repeat (constructor; simpl; try done).
  - reflexivity.
Defined.

Example skeleton_find_bob : _p_skeleton find_bob = Ok (Some "{$or:[{a.c,b}],name}").
Proof. reflexivity. Qed.

Example skeleton_find_alice : _p_skeleton find_alice = _p_skeleton find_bob.
Proof. reflexivity. Qed.

(** A [Code] object is a string to [skeleton]: it goes through [loads],
    and it is the decoded document whose shape is returned. *)
Example skeleton_decodes_Code (loads : obj -> result obj) (dumps : option string -> string) :
  loads (Scalar S_Code "{}") = Ok (PyDict []) →
  skeleton loads dumps (Scalar S_Code "{}") = Ok (dumps (Some "{}"))
  ∧ _p_skeleton (Scalar S_Code "{}") = Ok None.
Proof. intros Hloads. unfold skeleton. simpl. rewrite Hloads. done. Qed.

(** *** Key escaping *)

Lemma app_String (a : ascii) (s1 s2 : string) :
  String a s1 +:+ s2 = String a (s1 +:+ s2).
Proof. reflexivity. Qed.

Lemma app_empty (s : string) : EmptyString +:+ s = s.
Proof. reflexivity. Qed.

Lemma app_assoc_string (s1 s2 s3 : string) : (s1 +:+ s2) +:+ s3 = s1 +:+ (s2 +:+ s3).
Proof. induction s1 as [|a s1 IH]; [done|]. by rewrite !app_String, IH. Qed.

Lemma prefix_empty (s : string) : String.prefix EmptyString s = true.
Proof. by destruct s. Qed.

Lemma prefix_String (a b : ascii) (s1 s2 : string) :
  String.prefix (String a s1) (String b s2) = Ascii.eqb a b && String.prefix s1 s2.
Proof.
  simpl. destruct (ascii_dec a b) as [->|Hne].
  - by rewrite Ascii.eqb_refl.
  - by apply Ascii.eqb_neq in Hne as ->.
Qed.

Lemma subst_char_app (f : ascii -> string) (s1 s2 : string) :
  subst_char f (s1 +:+ s2) = subst_char f s1 +:+ subst_char f s2.
Proof.
  induction s1 as [|a s1 IH]; [done|].
  rewrite app_String. simpl. by rewrite IH, app_assoc_string.
Qed.

Lemma subst_char_compose (f g : ascii -> string) (s : string) :
  subst_char g (subst_char f s) = subst_char (fun c => subst_char g (f c)) s.
Proof.
  induction s as [|a s IH]; [done|]. simpl. by rewrite subst_char_app, IH.
Qed.

Lemma subst_char_ext (f g : ascii -> string) (s : string) :
  (∀ c, f c = g c) → subst_char f s = subst_char g s.
Proof. intros H. induction s as [|a s IH]; [done|]. simpl. by rewrite H, IH. Qed.

(** Replacing a one-character pattern works character by character. *)
Lemma replace_char (a : ascii) (new s : string) :
  replace (String a EmptyString) new s
  = subst_char (fun c => if Ascii.eqb c a then new else String c EmptyString) s.
Proof.
  unfold replace. induction s as [|c s IH]; [done|].
  simpl. destruct (ascii_dec a c) as [->|Hne].
  - by rewrite prefix_empty, Ascii.eqb_refl, IH.
  - assert (Ascii.eqb c a = false) as -> by (apply Ascii.eqb_neq; congruence).
    by rewrite IH.
Qed.

(** The two replacements of [sanitize_key] together escape every
    character on its own. *)
Lemma sanitize_key_escape (k : string) : sanitize_key k = escape_key k.
Proof.
  unfold sanitize_key, escape_key. rewrite !replace_char, subst_char_compose.
  apply subst_char_ext. intros c. unfold escape_char.
  destruct (Ascii.eqb c "$") eqn:Hd; [done|].
  simpl. by destruct (Ascii.eqb c ".").
Qed.

Lemma contains_cons (pat : string) (c : ascii) (s : string) :
  contains pat (String c s) = false →
  String.prefix pat (String c s) = false ∧ contains pat s = false.
Proof. simpl. by intros [? ?]%orb_false_iff. Qed.

(** The token lemmas are proved over arbitrary pairwise distinct
    characters, so that no comparison of characters is ever computed. *)
Section tokens.
Context (u d p m : ascii).
Context (Hud : u ≠ d) (Hup : u ≠ p) (Hum : u ≠ m) (Hdp : d ≠ p) (Hdm : d ≠ m) (Hpm : p ≠ m).

Local Abbreviation tok_d := (String u (String d (String u EmptyString))).
Local Abbreviation tok_p := (String u (String m (String u EmptyString))).

Local Ltac subst_local e :=
  lazymatch type of e with
  | ?x = ?x => clear e
  | ?x = u => subst x
  | ?x = d => subst x
  | ?x = p => subst x
  | ?x = m => subst x
  | _ = ?y => subst y
  end.

Local Ltac by_cases :=
  repeat (rewrite ?app_String, ?app_empty, ?prefix_empty; simpl;
          try match goal with
            | |- context [ascii_dec ?a ?b] =>
                let e := fresh "e" in
                destruct (ascii_dec a b) as [e|?];
                [first [congruence | subst_local e] | try congruence]
            end).

Lemma escape_both_not_d (k : string) :
  String.prefix (String d (String u EmptyString)) (subst_char (escape_both u d p m) k) = false.
Proof.
  destruct k as [|c k]; [done|]. simpl. unfold escape_both. by_cases.
Qed.

(** Undoing the [d] tokens of an escaped key gives the key with its [p]
    escaped: every token found is one that was put there. *)
Lemma undo_d (k : string) :
  replace_from tok_d (String d EmptyString) 0 (subst_char (escape_both u d p m) k)
  = subst_char (escape_one u p m) k.
Proof.
  induction k as [|c k IH]; [done|].
  simpl subst_char. unfold escape_both at 1, escape_one at 1.
  destruct (ascii_dec c d) as [Hcd|Hcd]; [subst c|].
  - by_cases; by rewrite ?IH.
  - destruct (ascii_dec c p) as [Hcp|Hcp]; [subst c|].
    + by_cases; rewrite ?escape_both_not_d, ?IH; by_cases; done.
    + by_cases; rewrite ?escape_both_not_d, ?IH; by_cases; done.
Qed.

Lemma escape_one_m (k : string) :
  String.prefix (String m (String u EmptyString)) (subst_char (escape_one u p m) k) = true →
  String.prefix (String m (String u EmptyString)) k = true
  ∨ String.prefix (String m (String p EmptyString)) k = true.
Proof.
  destruct k as [|c [|c' k]]; simpl; unfold escape_one; by_cases; auto.
Qed.

(** Undoing the [p] tokens, for a key without [u m u] and [u m p]. *)
Lemma undo_p (k : string) :
  contains tok_p k = false →
  contains (String u (String m (String p EmptyString))) k = false →
  replace_from tok_p (String p EmptyString) 0 (subst_char (escape_one u p m) k) = k.
Proof.
  induction k as [|c k IH]; [done|].
  intros [Hp1 Hc1]%contains_cons [Hp2 Hc2]%contains_cons. specialize (IH Hc1 Hc2).
  simpl subst_char. unfold escape_one at 1.
  destruct (ascii_dec c p) as [Hcp|Hcp]; [subst c|].
  - by_cases; by rewrite ?IH.
  - rewrite app_String, app_empty. simpl in *.
    destruct (ascii_dec u c) as [Huc|]; [subst c|by rewrite IH].
    destruct (String.prefix (String m (String u EmptyString)) (subst_char (escape_one u p m) k))
      eqn:Hpre; [|by rewrite IH].
    apply escape_one_m in Hpre as [Hpre|Hpre]; congruence.
Qed.
End tokens.

Lemma escape_char_both (c : ascii) : escape_char c = escape_both "_" "$" "." "," c.
Proof.
  unfold escape_char, escape_both.
  destruct (ascii_dec c "$") as [->|H1]; [done|].
  apply Ascii.eqb_neq in H1 as ->.
  destruct (ascii_dec c ".") as [->|H2]; [done|].
  by apply Ascii.eqb_neq in H2 as ->.
Qed.

(** The round trip of one key. *)
Lemma desanitize_sanitize_key (k : string) :
  key_round_trips k = true → desanitize_key (sanitize_key k) = k.
Proof.
  unfold key_round_trips. rewrite andb_true_iff, !negb_true_iff. intros [H1 H2].
  unfold desanitize_key. rewrite sanitize_key_escape. unfold escape_key, replace.
  rewrite (subst_char_ext _ _ k escape_char_both).
  rewrite (undo_d "_" "$" "." ","); try done.
  by apply (undo_p "_" "." ",").
Qed.

Example round_trip_dollar_token :
  desanitize_key (sanitize_key "a_$_b") = "a_$_b".
Proof. reflexivity. Qed.

(** *** Sanitizing documents *)

Lemma setitem_fresh {A : Type} (items : list (string * A)) (key : string) (v : A) :
  key ∉ keys items → setitem items key v = items ++ [(key, v)].
Proof.
  induction items as [|[k w] items IH]; simpl; [done|].
  intros Hnotin. apply not_elem_of_cons in Hnotin as [Hne Hnotin].
  assert (String.eqb k key = false) as -> by (apply String.eqb_neq; congruence).
  by rewrite IH.
Qed.

Lemma dict_from (A : Type) (pairs acc : list (string * A)) :
  NoDup (keys (acc ++ pairs)) →
  fold_left (fun d kv => setitem d (fst kv) (snd kv)) pairs acc = acc ++ pairs.
Proof.
  revert acc. induction pairs as [|[k v] pairs IH]; intros acc Hnodup; simpl.
  - by rewrite app_nil_r.
  - rewrite setitem_fresh.
    + rewrite IH; rewrite <- app_assoc; done.
    + unfold keys in Hnodup. rewrite map_app in Hnodup. simpl in Hnodup.
      apply NoDup_app in Hnodup as (_ & Hdisj & _).
      intros Hin. apply (Hdisj k Hin). left.
Qed.

(** [dict(pairs)] keeps pairs with distinct keys as they are. *)
Lemma dict_distinct {A : Type} (pairs : list (string * A)) :
  NoDup (keys pairs) → dict pairs = pairs.
Proof. intros H. unfold dict. by rewrite dict_from. Qed.

Lemma map_result_ok {A B : Type} (f : A -> result B) (g : A -> B) (l : list A) :
  Forall (fun a => f a = Ok (g a)) l → map_result f l = Ok (map g l).
Proof.
  induction 1 as [|a l Ha _ IH]; simpl; [done|].
  rewrite Ha. simpl. rewrite IH. done.
Qed.

Lemma forallb_Forall {A : Type} (p : A -> bool) (l : list A) :
  forallb p l = true ↔ Forall (fun a => p a = true) l.
Proof.
  induction l as [|a l IH]; simpl.
  - split; [constructor|done].
  - rewrite andb_true_iff, Forall_cons, IH. done.
Qed.

(** On a value composed of allowed types whose dicts keep distinct keys
    when escaped, [_p_sanitize] escapes the keys of every plain dict it
    reaches and nothing else. *)
Lemma sanitize_escape_keys (x : obj) :
  allowed_plain x = true →
  distinct_keys escape_key x = true →
  _p_sanitize x = Ok (escape_keys_plain x).
Proof.
  induction x as [t payload|l IH|items IH|items IH] using obj_nested_ind; intros Ha Hd.
  - simpl in *. by rewrite Ha.
  - simpl in *. rewrite (map_result_ok _ escape_keys_plain); [done|].
    apply forallb_Forall in Ha, Hd.
    rewrite Forall_forall in IH, Ha, Hd. apply Forall_forall. auto.
  - simpl in *. apply andb_true_iff in Hd as [Hnodup Hd]. apply bool_decide_eq_true in Hnodup.
    rewrite (map_result_ok _ (fun kv => (escape_key (fst kv), escape_keys_plain (snd kv)))).
    + simpl. rewrite dict_distinct; [done|]. unfold keys. by rewrite map_map.
    + apply forallb_Forall in Ha, Hd.
      rewrite Forall_forall in IH, Ha, Hd. apply Forall_forall.
      intros kv Hin. rewrite IH by auto. simpl. by rewrite sanitize_key_escape.
  - done.
Qed.

Definition son_with_dotted_key : obj := SON [("a.b", Scalar S_int "1")].

(** C5: on every input composed of allowed types, [sanitize] returns
    the input with ['$'] replaced by ['_$_'] and ['.'] by ['_,_'] in
    every key of every plain dict reached through lists and plain dicts,
    provided the escaped keys of each dict stay distinct; scalar leaves
    and field-ordered mappings come back unchanged, keys included. *)
Theorem sanitize_escapes_plain_dict_keys (x : obj) :
  allowed_plain x = true →
  distinct_keys escape_key x = true →
  sanitize x = Ok (escape_keys_plain x)
  ∧ (∀ k, sanitize_key k = escape_key k)
  ∧ (∀ items, sanitize (SON items) = Ok (SON items)).
Proof.
  intros Ha Hd. split_and!.
  - by apply sanitize_escape_keys.
  - apply sanitize_key_escape.
  - done.
Qed.

Lemma sanitize_escapes_plain_dict_keys_witness :
  sanitize (PyDict [("$or", PyList [PyDict [("a.b", Scalar S_int "1")]; son_with_dotted_key])])
  = Ok (PyDict [("_$_or", PyList [PyDict [("a_,_b", Scalar S_int "1")]; son_with_dotted_key])]).
Proof.
  apply (sanitize_escapes_plain_dict_keys
           (PyDict [("$or", PyList [PyDict [("a.b", Scalar S_int "1")]; son_with_dotted_key])]));
    reflexivity.
Defined.

(** C5 as stated fails on a field-ordered mapping: [SON] is a member of
    [BSON_TYPES], and [_p_sanitize] returns it as it is. *)
Lemma sanitize_leaves_son_keys :
  allowed son_with_dotted_key = true
  ∧ sanitize son_with_dotted_key = Ok son_with_dotted_key
  ∧ escape_keys_everywhere son_with_dotted_key = SON [("a_,_b", Scalar S_int "1")]
  ∧ sanitize son_with_dotted_key ≠ Ok (escape_keys_everywhere son_with_dotted_key).
Proof. split_and!; done. Qed.

(** Two keys of one dict that are escaped to the same key leave one
    entry. *)
Example sanitize_merges_colliding_keys :
  sanitize (PyDict [("a.", Scalar S_int "1"); ("a_,_", Scalar S_int "2")])
  = Ok (PyDict [("a_,_", Scalar S_int "2")]).
Proof. reflexivity. Qed.

(** *** The round trip *)

Lemma keys_stay_distinct (ks : list string) :
  Forall (fun k => key_round_trips k = true) ks →
  NoDup ks → NoDup (map escape_key ks).
Proof.
  intros Hk Hnodup. apply (NoDup_fmap_2_strong escape_key); [|done].
  rewrite Forall_forall in Hk.
  intros k1 k2 H1 H2 Heq.
  rewrite <- (desanitize_sanitize_key k1), <- (desanitize_sanitize_key k2) by auto.
  by rewrite !sanitize_key_escape, Heq.
Qed.

Lemma distinct_after_escape (x : obj) :
  distinct_keys id x = true →
  all_keys key_round_trips x = true →
  distinct_keys escape_key x = true.
Proof.
  induction x as [t payload|l IH|items IH|items IH] using obj_nested_ind; intros Hd Hk;
    try done.
  - simpl in *. apply forallb_Forall in Hd, Hk. apply forallb_Forall.
    rewrite Forall_forall in IH, Hd, Hk. apply Forall_forall. auto.
  - simpl in *. apply andb_true_iff in Hd as [Hnodup Hd]. apply bool_decide_eq_true in Hnodup.
    apply forallb_Forall in Hd, Hk. apply andb_true_iff. split.
    + apply bool_decide_eq_true. rewrite <- (map_map fst escape_key).
      apply keys_stay_distinct; [|exact Hnodup].
      apply Forall_forall. intros k (kv & -> & Hin)%list_elem_of_fmap.
      rewrite Forall_forall in Hk. by destruct (andb_prop _ _ (Hk kv Hin)).
    + apply forallb_Forall. rewrite Forall_forall in IH, Hd, Hk. apply Forall_forall.
      intros kv Hin. apply IH; auto. by destruct (andb_prop _ _ (Hk kv Hin)).
Qed.

Lemma desanitize_escaped (x : obj) :
  allowed_plain x = true →
  distinct_keys id x = true →
  all_keys key_round_trips x = true →
  _p_desanitize (escape_keys_plain x) = Ok x.
Proof.
  induction x as [t payload|l IH|items IH|items IH] using obj_nested_ind; intros Ha Hd Hk.
  - simpl in *. by rewrite Ha.
  - simpl in *. apply forallb_Forall in Ha, Hd, Hk.
    assert (map_result _p_desanitize (map escape_keys_plain l) = Ok l) as ->; [|done].
    induction l as [|v l IHl]; simpl; [done|].
    apply Forall_cons in IH as [IHv IH], Ha as [Hav Ha], Hd as [Hdv Hd], Hk as [Hkv Hk].
    rewrite (IHv Hav Hdv Hkv). simpl. by rewrite IHl.
  - simpl in *. apply andb_true_iff in Hd as [Hnodup Hd]. apply bool_decide_eq_true in Hnodup.
    apply forallb_Forall in Ha, Hd, Hk.
    assert (map_result
              (fun kv => v ← _p_desanitize (snd kv); Ok (desanitize_key (fst kv), v))
              (map (fun kv => (escape_key (fst kv), escape_keys_plain (snd kv))) items)
            = Ok items) as ->.
    { clear Hnodup. induction items as [|[k v] items IHl]; simpl; [done|].
      apply Forall_cons in IH as [IHv IH], Ha as [Hav Ha], Hd as [Hdv Hd], Hk as [Hkv Hk].
      simpl in *. apply andb_true_iff in Hkv as [Hkey Hkv].
      rewrite (IHv Hav Hdv Hkv). simpl. rewrite IHl by done. simpl.
      by rewrite <- sanitize_key_escape, desanitize_sanitize_key. }
    simpl. rewrite dict_distinct; [done|exact Hnodup].
  - done.
Qed.

Definition comma_period_key : obj := PyDict [("_,.", Scalar S_int "1")].

(** C4: for every value composed of the allowed leaf types, lists and
    mappings whose dicts have distinct keys, [desanitize (sanitize x)]
    is [x], provided no key holds ['_,'] followed by ['_'] or ['.']
    (the token ['_,_'] or the sequence ['_,.']). *)
Theorem desanitize_sanitize (x : obj) :
  allowed_plain x = true →
  distinct_keys id x = true →
  all_keys key_round_trips x = true →
  ∃ y, sanitize x = Ok y ∧ desanitize y = Ok x.
Proof.
  intros Ha Hd Hk. exists (escape_keys_plain x). split.
  - apply sanitize_escape_keys; [done|]. by apply distinct_after_escape.
  - by apply desanitize_escaped.
Qed.

Lemma desanitize_sanitize_witness :
  ∃ y, sanitize (PyDict [("a.b$c", PyList [Scalar S_int "1"; PyDict [("_$_", Scalar S_str "x")]])])
       = Ok y
     ∧ desanitize y
       = Ok (PyDict [("a.b$c", PyList [Scalar S_int "1"; PyDict [("_$_", Scalar S_str "x")]])]).
Proof.
  apply (desanitize_sanitize
           (PyDict [("a.b$c", PyList [Scalar S_int "1"; PyDict [("_$_", Scalar S_str "x")]])]));
    reflexivity.
Defined.

(** C4 as stated fails: the key ['_,.'] holds neither escape token, its
    escaped form ['_,_,_'] is read back as ['.,_']. *)
Lemma desanitize_sanitize_comma_period :
  allowed comma_period_key = true
  ∧ all_keys key_without_tokens comma_period_key = true
  ∧ sanitize comma_period_key = Ok (PyDict [("_,_,_", Scalar S_int "1")])
  ∧ desanitize (PyDict [("_,_,_", Scalar S_int "1")]) = Ok (PyDict [(".,_", Scalar S_int "1")])
  ∧ ¬ (∃ y, sanitize comma_period_key = Ok y ∧ desanitize y = Ok comma_period_key).
Proof.
  split_and!; try done.
  intros (y & Hs & Hd). vm_compute in Hs. injection Hs as <-. vm_compute in Hd. done.
Qed.

(** *** Values outside the allow-list *)

(** What a call did with the offending types [bad] of its argument:
    it returned and there were none, or it raised InvalidDocument for
    one of them. *)
Definition reports {A : Type} (r : result A) (bad : list py_type) : Prop :=
  match r with
  | Ok _ => bad = []
  | Raise e => ∃ t, e = InvalidDocument t ∧ t ∈ bad
  end.

Lemma reports_raise {A : Type} (r : result A) (bad : list py_type) :
  reports r bad → bad ≠ [] → ∃ t, t ∈ bad ∧ r = Raise (InvalidDocument t).
Proof.
  destruct r as [a|e]; simpl; [done|]. intros (t & -> & Hin) _. eauto.
Qed.

Lemma getitem_unique {A : Type} (items : list (string * A)) (key : string) (x : A) :
  NoDup (keys items) → (key, x) ∈ items → getitem items key = Some x.
Proof.
  induction items as [|[k v] items IH]; simpl.
  - by intros _ ?%elem_of_nil.
  - intros [Hnotin Hnodup]%NoDup_cons [[= -> ->]|Hin]%elem_of_cons.
    + by rewrite String.eqb_refl.
    + destruct (String.eqb k key) eqn:Hk; [|by apply IH].
      apply String.eqb_eq in Hk as ->. destruct Hnotin.
      apply list_elem_of_fmap. by exists (key, x).
Qed.

Lemma flat_map_nil {A B : Type} (f : A -> list B) (l : list A) :
  flat_map f l = [] ↔ Forall (fun a => f a = []) l.
Proof.
  induction l as [|a l IH]; simpl.
  - split; [constructor|done].
  - rewrite Forall_cons, <- IH. split.
    + by intros [? ?]%app_eq_nil.
    + by intros [-> ->].
Qed.

Lemma elem_of_flat_map {A B : Type} (f : A -> list B) (l : list A) (a : A) (b : B) :
  a ∈ l → b ∈ f a → b ∈ flat_map f l.
Proof.
  intros Ha Hb. apply list_elem_of_In, in_flat_map. exists a.
  split; by apply list_elem_of_In.
Qed.

Lemma skeleton_list_loop_reports (l : list obj) (out : list string) :
  Forall (fun v => reports (_p_skeleton v) (offending v)) l →
  reports (skeleton_list_loop _p_skeleton l out) (flat_map offending l).
Proof.
  intros H. revert out. induction H as [|v l Hv _ IH]; intros out; simpl; [done|].
  destruct (_p_skeleton v) as [sub|e]; simpl in *.
  - rewrite Hv. simpl. destruct sub; apply IH.
  - destruct Hv as (t & -> & Hin). exists t. split; [done|]. apply elem_of_app. by left.
Qed.

Lemma skeleton_mapping_loop_reports (items : list (string * obj)) (ks : list string)
  (out : list string) :
  ks ⊆ keys items →
  Forall (fun kv => reports (_p_skeleton (snd kv)) (offending (snd kv))) items →
  match skeleton_mapping_loop (map (fun kv => (fst kv, _p_skeleton (snd kv))) items) ks out with
  | Ok _ => Forall (fun key => ∀ x, getitem items key = Some x → offending x = []) ks
  | Raise e => ∃ t, e = InvalidDocument t ∧ t ∈ flat_map (fun kv => offending (snd kv)) items
  end.
Proof.
  intros Hsub Hitems. revert out. induction ks as [|key ks IH]; intros out; simpl.
  - constructor.
  - rewrite getitem_table.
    destruct (getitem_is_Some items key) as [x Hx]; [set_solver|]. rewrite Hx. simpl.
    pose proof (getitem_Some_elem _ _ _ Hx) as Hin.
    rewrite Forall_forall in Hitems. pose proof (Hitems _ Hin) as Hr. simpl in Hr.
    destruct (_p_skeleton x) as [sub|e]; simpl in *.
    + assert (ks ⊆ keys items) as Hsub' by set_solver.
      destruct sub as [s|].
      * specialize (IH Hsub' (out ++ [key +:+ ":" +:+ s])).
        destruct (skeleton_mapping_loop _ ks _); [|done].
        constructor; [|done]. intros x' Hx'. congruence.
      * specialize (IH Hsub' (out ++ [key])).
        destruct (skeleton_mapping_loop _ ks _); [|done].
        constructor; [|done]. intros x' Hx'. congruence.
    + destruct Hr as (t & -> & Ht). exists t. split; [done|].
      by apply (elem_of_flat_map (fun kv => offending (snd kv)) items (key, x)).
Qed.

Lemma skeleton_mapping_reports (items : list (string * obj)) :
  NoDup (keys items) →
  Forall (fun kv => reports (_p_skeleton (snd kv)) (offending (snd kv))) items →
  reports (out ← skeleton_mapping_loop
                   (map (fun kv => (fst kv, _p_skeleton (snd kv))) items)
                   (sorted (keys items)) [];
           Ok (Some ("{" +:+ join "," out +:+ "}")))
          (flat_map (fun kv => offending (snd kv)) items).
Proof.
  intros Hnodup Hitems.
  pose proof (skeleton_mapping_loop_reports items (sorted (keys items)) []) as H.
  destruct (skeleton_mapping_loop _ _ _) as [out|e]; simpl.
  - apply flat_map_nil, Forall_forall. intros [k v] Hin. simpl.
    assert (Forall (fun key => ∀ x, getitem items key = Some x → offending x = [])
                   (sorted (keys items))) as Hall.
    { apply H; [|done]. unfold sorted. intros key. by rewrite merge_sort_Permutation. }
    rewrite Forall_forall in Hall. apply (Hall k).
    + unfold sorted. rewrite merge_sort_Permutation.
      apply list_elem_of_fmap. by exists (k, v).
    + by apply getitem_unique.
  - apply H; [|done]. unfold sorted. intros key. by rewrite merge_sort_Permutation.
Qed.

Lemma skeleton_reports (x : obj) :
  unique_keys x = true → reports (_p_skeleton x) (offending x).
Proof.
  induction x as [t payload|l IH|items IH|items IH] using obj_nested_ind; intros Hu.
  - simpl. destruct (in_BSON_TYPES (T_scalar t)); simpl; [done|].
    exists (T_scalar t). split; [done|]. left.
  - simpl in *. apply forallb_Forall in Hu.
    pose proof (skeleton_list_loop_reports l []) as H.
    destruct (skeleton_list_loop _p_skeleton l []); simpl in *; apply H;
      rewrite Forall_forall in IH, Hu; apply Forall_forall; auto.
  - simpl in Hu. apply andb_true_iff in Hu as [Hnodup Hu].
    apply bool_decide_eq_true in Hnodup. apply forallb_Forall in Hu.
    apply (skeleton_mapping_reports items Hnodup).
    rewrite Forall_forall in IH, Hu. apply Forall_forall. auto.
  - simpl in Hu. apply andb_true_iff in Hu as [Hnodup Hu].
    apply bool_decide_eq_true in Hnodup. apply forallb_Forall in Hu.
    apply (skeleton_mapping_reports items Hnodup).
    rewrite Forall_forall in IH, Hu. apply Forall_forall. auto.
Qed.

(** A call that raises InvalidDocument for the first offending type of
    its argument, and returns when there is none. *)
Definition raises_first {A : Type} (r : result A) (bad : list py_type) : Prop :=
  match bad with
  | [] => ∃ a, r = Ok a
  | t :: _ => r = Raise (InvalidDocument t)
  end.

Lemma map_result_raises_first {A B : Type} (f : A -> result B) (g : A -> list py_type)
  (l : list A) :
  Forall (fun a => raises_first (f a) (g a)) l →
  raises_first (map_result f l) (flat_map g l).
Proof.
  induction 1 as [|a l Ha _ IH]; simpl; [by eexists|].
  destruct (g a) as [|t bad]; simpl in *.
  - destruct Ha as [b ->]. simpl.
    destruct (flat_map g l) as [|t bad]; simpl in *.
    + destruct IH as [bs ->]. by eexists.
    + by rewrite IH.
  - by rewrite Ha.
Qed.

Lemma sanitize_raises_first (x : obj) : raises_first (_p_sanitize x) (offending_plain x).
Proof.
  induction x as [t payload|l IH|items IH|items IH] using obj_nested_ind.
  - simpl. destruct (in_BSON_TYPES (T_scalar t)); simpl; [by eexists|done].
  - simpl. pose proof (map_result_raises_first _p_sanitize offending_plain l IH) as H.
    destruct (flat_map offending_plain l); simpl in *.
    + destruct H as [l' ->]. by eexists.
    + by rewrite H.
  - simpl.
    pose proof (map_result_raises_first
                  (fun kv => v ← _p_sanitize (snd kv); Ok (sanitize_key (fst kv), v))
                  (fun kv => offending_plain (snd kv)) items) as H.
    destruct (flat_map (fun kv => offending_plain (snd kv)) items); simpl in *.
    + destruct H as [l' ->]; [|by eexists].
      eapply Forall_impl; [exact IH|]. simpl. intros kv Hkv.
      destruct (offending_plain (snd kv)); simpl in *; [|by rewrite Hkv].
      destruct Hkv as [v ->]. by eexists.
    + rewrite H; [done|].
      eapply Forall_impl; [exact IH|]. simpl. intros kv Hkv.
      destruct (offending_plain (snd kv)); simpl in *; [|by rewrite Hkv].
      destruct Hkv as [v ->]. by eexists.
  - simpl. by eexists.
Qed.

Lemma desanitize_raises_first (x : obj) : raises_first (_p_desanitize x) (offending_plain x).
Proof.
  induction x as [t payload|l IH|items IH|items IH] using obj_nested_ind.
  - simpl. destruct (in_BSON_TYPES (T_scalar t)); simpl; [by eexists|done].
  - simpl. pose proof (map_result_raises_first _p_desanitize offending_plain l IH) as H.
    destruct (flat_map offending_plain l); simpl in *.
    + destruct H as [l' ->]. by eexists.
    + by rewrite H.
  - simpl.
    pose proof (map_result_raises_first
                  (fun kv => v ← _p_desanitize (snd kv); Ok (desanitize_key (fst kv), v))
                  (fun kv => offending_plain (snd kv)) items) as H.
    destruct (flat_map (fun kv => offending_plain (snd kv)) items); simpl in *.
    + destruct H as [l' ->]; [|by eexists].
      eapply Forall_impl; [exact IH|]. simpl. intros kv Hkv.
      destruct (offending_plain (snd kv)); simpl in *; [|by rewrite Hkv].
      destruct Hkv as [v ->]. by eexists.
    + rewrite H; [done|].
      eapply Forall_impl; [exact IH|]. simpl. intros kv Hkv.
      destruct (offending_plain (snd kv)); simpl in *; [|by rewrite Hkv].
      destruct Hkv as [v ->]. by eexists.
  - simpl. by eexists.
Qed.

Lemma elem_of_flat_map_inv {A B : Type} (f : A -> list B) (l : list A) (b : B) :
  b ∈ flat_map f l → ∃ a, a ∈ l ∧ b ∈ f a.
Proof.
  intros (a & Ha & Hb)%list_elem_of_In%in_flat_map.
  exists a. split; by apply list_elem_of_In.
Qed.

Lemma offending_plain_offending (x : obj) (t : py_type) :
  t ∈ offending_plain x → t ∈ offending x.
Proof.
  induction x as [t' payload|l IH|items IH|items IH] using obj_nested_ind; simpl; try done.
  - intros (v & Hv & Ht)%elem_of_flat_map_inv. rewrite Forall_forall in IH.
    apply (elem_of_flat_map offending l v); auto.
  - intros (kv & Hkv & Ht)%elem_of_flat_map_inv. rewrite Forall_forall in IH.
    apply (elem_of_flat_map (fun kv => offending (snd kv)) items kv); auto.
  - by intros ?%elem_of_nil.
Qed.

Definition a_set : obj := Scalar (S_other "set" false) "set([])".

Definition son_holding_a_set : obj := SON [("a", a_set)].

(** C8: on an input whose mappings have distinct keys and which holds,
    anywhere below lists, dicts and SONs, a value of a type outside the
    allow-list, [_p_skeleton] raises InvalidDocument for such a type,
    and so does [skeleton] unless the input is itself an instance of a
    string class; when such a value is reached through lists and plain
    dicts only, [sanitize] and [desanitize] raise InvalidDocument for
    the type of the first one. *)
Theorem invalid_document_propagates (x : obj) :
  unique_keys x = true →
  offending x ≠ [] →
  (∃ t, t ∈ offending x
        ∧ _p_skeleton x = Raise (InvalidDocument t)
        ∧ ∀ loads dumps, isinstance_basestring x = false →
                         skeleton loads dumps x = Raise (InvalidDocument t))
  ∧ (∀ t rest, offending_plain x = t :: rest →
               t ∈ offending x
               ∧ sanitize x = Raise (InvalidDocument t)
               ∧ desanitize x = Raise (InvalidDocument t)).
Proof.
  intros Hu Hne. split.
  - destruct (reports_raise _ _ (skeleton_reports x Hu) Hne) as (t & Hin & Hraise).
    exists t. split_and!; [done..|].
    intros loads dumps Hb. unfold skeleton. rewrite Hb. simpl. by rewrite Hraise.
  - intros t rest Hbad. split_and!.
    + apply offending_plain_offending. rewrite Hbad. left.
    + pose proof (sanitize_raises_first x) as H. by rewrite Hbad in H.
    + pose proof (desanitize_raises_first x) as H. by rewrite Hbad in H.
Qed.

Definition dict_holding_a_set : obj := PyDict [("a", PyList [Scalar S_int "1"; a_set])].

Lemma invalid_document_propagates_witness :
  (∃ t, t ∈ offending dict_holding_a_set
        ∧ _p_skeleton dict_holding_a_set = Raise (InvalidDocument t)
        ∧ ∀ loads dumps, isinstance_basestring dict_holding_a_set = false →
                         skeleton loads dumps dict_holding_a_set = Raise (InvalidDocument t))
  ∧ sanitize dict_holding_a_set = Raise (InvalidDocument (T_scalar (S_other "set" false)))
  ∧ desanitize dict_holding_a_set = Raise (InvalidDocument (T_scalar (S_other "set" false))).
Proof.
  destruct (invalid_document_propagates dict_holding_a_set) as [Hskeleton Hsanitize];
    [reflexivity|discriminate|].
  split; [exact Hskeleton|].
  by destruct (Hsanitize (T_scalar (S_other "set" false)) [] eq_refl) as (_ & ? & ?).
Defined.

(** C8 as stated fails below a field-ordered mapping: [sanitize] and
    [desanitize] return a SON without looking into it. *)
Lemma son_hides_invalid_document :
  offending son_holding_a_set = [T_scalar (S_other "set" false)]
  ∧ sanitize son_holding_a_set = Ok son_holding_a_set
  ∧ desanitize son_holding_a_set = Ok son_holding_a_set
  ∧ _p_skeleton son_holding_a_set = Raise (InvalidDocument (T_scalar (S_other "set" false))).
Proof. split_and!; reflexivity. Qed.

(** *** Package names and the reported frame *)

Lemma before_last_dot_None (s : string) :
  before_last_dot s = None ↔ contains "." s = false.
Proof.
  induction s as [|c s IH]; [done|].
  cbn [before_last_dot contains].
  rewrite prefix_String, prefix_empty, andb_true_r, orb_false_iff, <- IH, Ascii.eqb_sym.
  destruct (before_last_dot s) as [h|].
  - split; [done|]. by intros [_ ?].
  - destruct (Ascii.eqb "." c); split; try done. by intros [? _].
Qed.

Lemma before_last_dot_app (pkg last : string) :
  contains "." last = false →
  before_last_dot (pkg +:+ "." +:+ last) = Some pkg.
Proof.
  intros Hlast. apply before_last_dot_None in Hlast.
  induction pkg as [|c pkg IH].
  - rewrite app_empty, app_String, app_empty. cbn [before_last_dot].
    by rewrite Hlast, Ascii.eqb_refl.
  - rewrite app_String. cbn [before_last_dot]. by rewrite IH.
Qed.

(** The package of a frame: ['__package__'] decides whenever the globals
    have it, also when it is None; otherwise the package is what stands
    before the last period of ['__name__'], the empty string for a name
    without a period; globals with neither key have no package. *)
Theorem get_pkg_resolution (g : globals) :
  (∀ pkg, g_package g = Some pkg → get_pkg g = pkg)
  ∧ (g_package g = None →
     ∀ name, g_name g = Some name →
       (∀ pkg last, name = pkg +:+ "." +:+ last → contains "." last = false →
                    get_pkg g = Some pkg)
       ∧ (contains "." name = false → get_pkg g = Some EmptyString))
  ∧ (g_package g = None → g_name g = None → get_pkg g = None).
Proof.
  unfold get_pkg. split_and!.
  - by intros pkg ->.
  - intros -> name ->. unfold rpartition_dot_0. split.
    + intros pkg last -> Hlast. by rewrite before_last_dot_app.
    + intros Hname. apply before_last_dot_None in Hname. by rewrite Hname.
  - by intros -> ->.
Qed.

Lemma get_pkg_resolution_witness :
  get_pkg {| g_package := Some None; g_name := Some "pymongo.collection" |} = None
  ∧ get_pkg {| g_package := None; g_name := Some "pymongo.collection" |} = Some "pymongo"
  ∧ get_pkg {| g_package := None; g_name := Some "__main__" |} = Some EmptyString.
Proof.
  split; [|split].
  - apply (proj1 (get_pkg_resolution {| g_package := Some None;
                                        g_name := Some "pymongo.collection" |}) None).
    reflexivity.
  - apply (proj1 (proj1 (proj2 (get_pkg_resolution
                                  {| g_package := None; g_name := Some "pymongo.collection" |}))
                        eq_refl "pymongo.collection" eq_refl) "pymongo" "collection");
      reflexivity.
  - apply (proj2 (proj1 (proj2 (get_pkg_resolution
                                  {| g_package := None; g_name := Some "__main__" |}))
                        eq_refl "__main__" eq_refl)).
    reflexivity.
Defined.

Lemma filter_first {A : Type} (p : A -> bool) (l : list A) (n : nat) (x : A) :
  l !! n = Some x →
  p x = true →
  (∀ m y, m < n → l !! m = Some y → p y = false) →
  ∃ r, List.filter p l = x :: r.
Proof.
  revert l. induction n as [|n IH]; intros [|y l] Hx Hp Hbefore; try done.
  - simpl in Hx. injection Hx as ->. simpl. rewrite Hp. by eexists.
  - simpl in Hx. simpl. rewrite (Hbefore 0 y); [|lia|done].
    apply IH; [done..|]. intros m z Hm Hz. apply (Hbefore (S m) z); [lia|done].
Qed.

(** With a skip-set, [get_source] reports the first frame at or beyond
    depth [up] whose package is not in the set: the frames between
    [up] and that frame are all passed over. *)
Theorem get_source_first_outside (stack : list frame_record) (pkgs : list string)
  (up n : nat) (f : frame_record) :
  stack !! (up + n) = Some f →
  pkg_not_in pkgs f = true →
  (∀ m f', m < n → stack !! (up + m) = Some f' → pkg_not_in pkgs f' = false) →
  get_source stack (Some pkgs) up = Ok (filename f +:+ ":" +:+ format_d (lineno f)).
Proof.
  intros Hf Hp Hbefore. unfold get_source.
  destruct (stack !! up) as [frame|] eqn:Hup.
  - destruct (filter_first (pkg_not_in pkgs) (drop up stack) n f) as [r ->]; [|done| |done].
    + by rewrite lookup_drop.
    + intros m y Hm. rewrite lookup_drop. by apply Hbefore.
  - apply lookup_ge_None in Hup. apply lookup_lt_Some in Hf. lia.
Qed.

Lemma get_source_first_outside_witness :
  get_source [frame_in "mongodrums" "util.py" 134; frame_in "mongodrums" "instrument.py" 106;
              frame_in "pymongo" "cursor.py" 904; frame_in "app" "main.py" 12;
              frame_in "app" "run.py" 3]
             (Some ["mongodrums"; "pymongo"]) 1
  = Ok "main.py:12".
Proof.
  apply (get_source_first_outside _ _ 1 2 (frame_in "app" "main.py" 12)).
  - reflexivity.
  - reflexivity.
  - intros [|[|m]] f' Hm; [by intros [= <-]..|lia].
Defined.

(** *** Keys after sanitizing *)

(** A key MongoDB accepts in a stored document: no ['.'] in it and no
    ['$'] in front. *)
Definition storable_key (k : string) : bool :=
  negb (contains "." k) && negb (startswith k "$").

(** [p] holds of every key of every mapping, plain or field-ordered, at
    every depth. *)
Fixpoint every_key (p : string -> bool) (v : obj) : bool :=
  match v with
  | Scalar _ _ => true
  | PyList l => forallb (every_key p) l
  | PyDict items => forallb (fun kv => p (fst kv) && every_key p (snd kv)) items
  | SON items => forallb (fun kv => p (fst kv) && every_key p (snd kv)) items
  end.

(** No field-ordered mapping among the values reached through lists and
    plain dicts. *)
Fixpoint son_free (v : obj) : bool :=
  match v with
  | Scalar _ _ => true
  | PyList l => forallb son_free l
  | PyDict items => forallb (fun kv => son_free (snd kv)) items
  | SON _ => false
  end.

Lemma contains_char_app (a : ascii) (s1 s2 : string) :
  contains (String a EmptyString) (s1 +:+ s2)
  = contains (String a EmptyString) s1 || contains (String a EmptyString) s2.
Proof.
  induction s1 as [|c s1 IH]; [done|].
  rewrite app_String. cbn [contains]. by rewrite !prefix_String, !prefix_empty, IH, orb_assoc.
Qed.

Lemma contains_char_single (a c : ascii) :
  contains (String a EmptyString) (String c EmptyString) = Ascii.eqb a c.
Proof.
  cbn [contains]. rewrite prefix_String, prefix_empty.
  change (String.prefix (String a EmptyString) EmptyString) with false.
  by rewrite andb_true_r, orb_false_r.
Qed.

Lemma escape_char_no_dot (c : ascii) : contains "." (escape_char c) = false.
Proof.
  unfold escape_char. destruct (Ascii.eqb c "$"); [done|].
  destruct (Ascii.eqb c ".") eqn:Hc; [done|].
  by rewrite contains_char_single, Ascii.eqb_sym.
Qed.

Lemma escape_key_no_dot (k : string) : contains "." (escape_key k) = false.
Proof.
  induction k as [|c k IH]; [done|].
  unfold escape_key in *. cbn [subst_char].
  by rewrite contains_char_app, escape_char_no_dot, IH.
Qed.

Lemma escape_key_no_dollar_in_front (k : string) : startswith (escape_key k) "$" = false.
Proof.
  destruct k as [|c k]; [done|].
  unfold startswith, escape_key, escape_char. cbn [subst_char].
  destruct (Ascii.eqb c "$") eqn:Hd; [done|].
  destruct (Ascii.eqb c "."); [done|].
  by rewrite app_String, prefix_String, Ascii.eqb_sym, Hd.
Qed.

Lemma sanitize_key_storable (k : string) : storable_key (sanitize_key k) = true.
Proof.
  unfold storable_key.
  by rewrite sanitize_key_escape, escape_key_no_dot, escape_key_no_dollar_in_front.
Qed.

Lemma map_result_Forall2 {A B : Type} (f : A -> result B) (l : list A) (l' : list B) :
  map_result f l = Ok l' → Forall2 (fun a b => f a = Ok b) l l'.
Proof.
  revert l'. induction l as [|a l IH]; intros l'; simpl.
  - intros [= <-]. constructor.
  - destruct (f a) as [b|e] eqn:Ha; simpl; [|done].
    destruct (map_result f l) as [bs|e]; simpl; [|done].
    intros [= <-]. constructor; auto.
Qed.

Lemma Forall_setitem {A : Type} (P : string * A -> Prop) (items : list (string * A))
  (key : string) (v : A) :
  Forall P items → P (key, v) → Forall P (setitem items key v).
Proof.
  intros Hitems Hnew. induction Hitems as [|[k w] items Hkw Hitems IH]; simpl.
  - by constructor.
  - destruct (String.eqb k key) eqn:Hk.
    + apply String.eqb_eq in Hk as ->. by constructor.
    + by constructor.
Qed.

Lemma Forall_dict {A : Type} (P : string * A -> Prop) (pairs : list (string * A)) :
  Forall P pairs → Forall P (dict pairs).
Proof.
  unfold dict. assert (Hacc : Forall P (@nil (string * A))) by constructor.
  revert Hacc. generalize (@nil (string * A)) as acc.
  induction pairs as [|[k v] pairs IH]; intros acc Hacc Hpairs; simpl; [done|].
  apply Forall_cons in Hpairs as [Hkv Hpairs].
  apply IH; [|done]. by apply Forall_setitem.
Qed.

Lemma sanitize_result_storable (x y : obj) :
  _p_sanitize x = Ok y → all_keys storable_key y = true.
Proof.
  revert y.
  induction x as [t payload|l IH|items IH|items IH] using obj_nested_ind; intros y.
  - simpl. destruct (negb (in_BSON_TYPES (T_scalar t))); [done|]. by intros [= <-].
  - simpl. destruct (map_result _p_sanitize l) as [l'|e] eqn:Hl; simpl; [|done].
    intros [= <-]. simpl. apply forallb_Forall.
    apply map_result_Forall2 in Hl.
    induction Hl as [|a b l l' Hab _ IHl]; [constructor|].
    apply Forall_cons in IH as [Ha IH]. constructor; auto.
  - simpl.
    destruct (map_result _ items) as [pairs|e] eqn:Hitems; simpl; [|done].
    intros [= <-]. simpl. apply forallb_Forall, Forall_dict.
    apply map_result_Forall2 in Hitems.
    induction Hitems as [|[k v] pair items pairs Hpair _ IHitems]; [constructor|].
    apply Forall_cons in IH as [Hv IH]. constructor; [|auto].
    simpl in Hpair, Hv. destruct (_p_sanitize v) as [v'|e] eqn:Hv'; simpl in Hpair; [|done].
    injection Hpair as <-. simpl. by rewrite sanitize_key_storable, (Hv v').
  - simpl. by intros [= <-].
Qed.

Lemma sanitize_result_storable_everywhere (x y : obj) :
  son_free x = true → _p_sanitize x = Ok y → every_key storable_key y = true.
Proof.
  revert y.
  induction x as [t payload|l IH|items IH|items IH] using obj_nested_ind; intros y Hfree.
  - simpl. destruct (negb (in_BSON_TYPES (T_scalar t))); [done|]. by intros [= <-].
  - simpl in *. apply forallb_Forall in Hfree.
    destruct (map_result _p_sanitize l) as [l'|e] eqn:Hl; simpl; [|done].
    intros [= <-]. simpl. apply forallb_Forall.
    apply map_result_Forall2 in Hl.
    induction Hl as [|a b l l' Hab _ IHl]; [constructor|].
    apply Forall_cons in IH as [Ha IH]. apply Forall_cons in Hfree as [Hfa Hfree].
    constructor; auto.
  - simpl in *. apply forallb_Forall in Hfree.
    destruct (map_result _ items) as [pairs|e] eqn:Hitems; simpl; [|done].
    intros [= <-]. simpl. apply forallb_Forall, Forall_dict.
    apply map_result_Forall2 in Hitems.
    induction Hitems as [|[k v] pair items pairs Hpair _ IHitems]; [constructor|].
    apply Forall_cons in IH as [Hv IH]. apply Forall_cons in Hfree as [Hfv Hfree].
    constructor; [|auto].
    simpl in Hpair, Hv, Hfv. destruct (_p_sanitize v) as [v'|e] eqn:Hv'; simpl in Hpair; [|done].
    injection Hpair as <-. simpl. by rewrite sanitize_key_storable, (Hv v').
  - done.
Qed.

Definition son_holding_a_dict : obj :=
  SON [("a", PyDict [("x.y", Scalar S_int "1"); ("$z", Scalar S_int "2")])].

(** Whenever no value outside the allow-list is reachable through lists
    and plain dicts, [sanitize] returns, and in what it returns no key
    of a plain dict that is reached through lists and plain dicts holds
    a ['.'] or starts with a ['$']; for an argument without a
    field-ordered mapping these are all the keys there are, at every
    depth.  The guarantee stops at a SON: it comes back as it is, and
    the keys of the dicts it holds stay unescaped. *)
Theorem sanitize_keys_storable (x : obj) :
  offending_plain x = [] →
  (∃ y, sanitize x = Ok y
        ∧ all_keys storable_key y = true
        ∧ (son_free x = true → every_key storable_key y = true))
  ∧ sanitize son_holding_a_dict = Ok son_holding_a_dict
  ∧ every_key storable_key son_holding_a_dict = false.
Proof.
  intros Hx. split_and!; [|done..].
  pose proof (sanitize_raises_first x) as H. rewrite Hx in H.
  destruct H as [y Hy]. exists y. split_and!; [done| |].
  - by apply (sanitize_result_storable x).
  - intros Hfree. by apply (sanitize_result_storable_everywhere x).
Qed.

Lemma sanitize_keys_storable_witness :
  ∃ y, sanitize (PyDict [("$set", PyDict [("a.b", PyList [PyDict [("$x.y", Scalar S_int "1")]])])])
       = Ok y
       ∧ all_keys storable_key y = true
       ∧ every_key storable_key y = true.
Proof.
  destruct (proj1 (sanitize_keys_storable
                     (PyDict [("$set",
                               PyDict [("a.b", PyList [PyDict [("$x.y", Scalar S_int "1")]])])])
                     eq_refl)) as (y & Hy & Hkeys & Hevery).
  exists y. split_and!; [done..|]. by apply Hevery.
Defined.

(** *** Keys that do not survive *)

Section tokens_back.
Context (u p m : ascii).
Context (Hup : u ≠ p) (Hum : u ≠ m) (Hpm : p ≠ m).

Local Abbreviation tok := (String u (String m (String u EmptyString))).

Local Ltac subst_token e :=
  lazymatch type of e with
  | ?x = ?x => clear e
  | ?x = u => subst x
  | ?x = p => subst x
  | ?x = m => subst x
  | _ => idtac
  end.

Local Ltac split_chars :=
  repeat (rewrite ?app_String, ?app_empty, ?prefix_empty; simpl;
          try match goal with
            | |- context [ascii_dec ?a ?b] =>
                let e := fresh "e" in
                destruct (ascii_dec a b) as [e|?];
                [first [congruence | subst_token e] | try congruence]
            end).

Lemma escape_one_m_back (k : string) :
  String.prefix (String m (String u EmptyString)) k = true
  ∨ String.prefix (String m (String p EmptyString)) k = true →
  String.prefix (String m (String u EmptyString)) (subst_char (escape_one u p m) k) = true.
Proof.
  destruct k as [|c [|c' k]]; simpl; unfold escape_one; split_chars; intros [?|?]; try done.
Qed.

(** Undoing the [p] tokens gives the key back only if the key holds no
    [p] token and no [u m p]. *)
Lemma undo_p_back (k : string) :
  replace_from tok (String p EmptyString) 0 (subst_char (escape_one u p m) k) = k →
  contains tok k = false
  ∧ contains (String u (String m (String p EmptyString))) k = false.
Proof.
  induction k as [|c k IH]; [done|].
  simpl subst_char. unfold escape_one at 1.
  destruct (ascii_dec c p) as [Hcp|Hcp]; [subst c|].
  - split_chars. intros [= H]. specialize (IH H) as [-> ->]. done.
  - rewrite app_String, app_empty. simpl.
    destruct (ascii_dec u c) as [Huc|Huc]; [subst c|].
    + destruct (String.prefix (String m (String u EmptyString))
                  (subst_char (escape_one u p m) k)) eqn:Hpre.
      * rewrite app_String. intros [= Heq _]. congruence.
      * intros [= H]. specialize (IH H) as [-> ->].
        rewrite !orb_false_r.
        destruct (String.prefix (String m (String u EmptyString)) k) eqn:H1.
        { rewrite escape_one_m_back in Hpre; [done|by left]. }
        destruct (String.prefix (String m (String p EmptyString)) k) eqn:H2; [|done].
        rewrite escape_one_m_back in Hpre; [done|by right].
    + intros [= H]. specialize (IH H) as [-> ->]. done.
Qed.
End tokens_back.

(** A key comes back from [desanitize_key (sanitize_key k)] exactly
    when it holds neither ['_,_'] nor ['_,.']; a key holding ['_$_'] is
    not affected. *)
Theorem key_round_trip_exactly (k : string) :
  desanitize_key (sanitize_key k) = k ↔ key_round_trips k = true.
Proof.
  split; [|apply desanitize_sanitize_key].
  unfold key_round_trips, desanitize_key. rewrite sanitize_key_escape.
  unfold escape_key, replace.
  rewrite (subst_char_ext _ _ k escape_char_both).
  rewrite (undo_d "_" "$" "." ","); try done.
  intros [-> ->]%(undo_p_back "_" "." ","); done.
Qed.

(** *** Sanitizing twice *)

Lemma escape_key_app (s1 s2 : string) :
  escape_key (s1 +:+ s2) = escape_key s1 +:+ escape_key s2.
Proof. apply subst_char_app. Qed.

(** A second pass of [sanitize_key] leaves an escaped key alone exactly
    when the original key held no ['$']: the ['_$_'] written by the
    first pass is escaped again, the ['_,_'] is not. *)
Theorem sanitize_key_twice (k : string) :
  sanitize_key (sanitize_key k) = sanitize_key k ↔ contains "$" k = false.
Proof.
  rewrite !sanitize_key_escape.
  assert (Hcons : ∀ c s, escape_key (String c s) = escape_char c +:+ escape_key s) by done.
  induction k as [|c k IH]; [done|].
  rewrite Hcons, escape_key_app. cbn [contains].
  rewrite prefix_String, prefix_empty, andb_true_r, orb_false_iff, <- IH.
  unfold escape_char.
  destruct (Ascii.eqb_spec c "$") as [->|Hd].
  - change (escape_key "_$_") with "__$__". rewrite !app_String, !app_empty.
    split; [|by intros [? _]]. by intros [= ?].
  - assert (Ascii.eqb "$" c = false) as ->.
    { rewrite Ascii.eqb_sym. by apply Ascii.eqb_neq. }
    destruct (Ascii.eqb_spec c ".") as [->|Hp].
    + change (escape_key "_,_") with "_,_". split.
      * intros H. split; [done|]. by apply (inj (String.app "_,_")) in H.
      * intros [_ ->]. done.
    + assert (escape_key (String c EmptyString) = String c EmptyString) as ->.
      { unfold escape_key, escape_char. cbn [subst_char].
        apply Ascii.eqb_neq in Hd as ->. by apply Ascii.eqb_neq in Hp as ->. }
      rewrite !app_String, !app_empty. split.
      * intros [= H]. done.
      * intros [_ ->]. done.
Qed.

(** *** The skeleton and the order of the items *)

Lemma getitem_None {A : Type} (items : list (string * A)) (key : string) :
  key ∉ keys items → getitem items key = None.
Proof.
  induction items as [|[k v] items IH]; simpl; [done|].
  intros [Hne Hnotin]%not_elem_of_cons.
  assert (String.eqb k key = false) as -> by (apply String.eqb_neq; congruence).
  by apply IH.
Qed.

Lemma getitem_Permutation {A : Type} (items items' : list (string * A)) (key : string) :
  NoDup (keys items) → items ≡ₚ items' → getitem items' key = getitem items key.
Proof.
  intros Hnodup Hperm.
  assert (Hkeys : keys items ≡ₚ keys items') by (unfold keys; by rewrite Hperm).
  destruct (getitem items key) as [x|] eqn:Hx.
  - apply getitem_unique; [by rewrite <- Hkeys|].
    rewrite <- Hperm. by apply getitem_Some_elem.
  - apply getitem_None. rewrite <- Hkeys. intros Hin.
    destruct (getitem_is_Some items key Hin) as [x Hx']. congruence.
Qed.

Lemma sorted_Permutation (ks ks' : list string) : ks ≡ₚ ks' → sorted ks' = sorted ks.
Proof.
  intros Hperm. unfold sorted.
  apply (Sorted_unique String.le); [apply Sorted_merge_sort; apply _..|].
  by rewrite !merge_sort_Permutation.
Qed.

(** The skeleton of a mapping does not depend on the order in which the
    mapping yields its items: two item lists with the same distinct
    keys and the same values give the same skeleton, for a dict and for
    a SON, and whatever the outcome. *)
Theorem skeleton_any_item_order (items items' : list (string * obj)) :
  NoDup (keys items) →
  items ≡ₚ items' →
  _p_skeleton (PyDict items') = _p_skeleton (PyDict items)
  ∧ _p_skeleton (SON items') = _p_skeleton (SON items)
  ∧ _p_skeleton (SON items) = _p_skeleton (PyDict items).
Proof.
  intros Hnodup Hperm.
  assert (Hkeys : keys items ≡ₚ keys items') by (unfold keys; by rewrite Hperm).
  assert (Hloop : ∀ out,
             skeleton_mapping_loop (map (fun kv => (fst kv, _p_skeleton (snd kv))) items')
                                   (sorted (keys items')) out
             = skeleton_mapping_loop (map (fun kv => (fst kv, _p_skeleton (snd kv))) items)
                                     (sorted (keys items)) out).
  { intros out. rewrite (sorted_Permutation _ _ Hkeys).
    apply skeleton_mapping_loop_ext. intros key.
    by rewrite !getitem_table, (getitem_Permutation items items'). }
  split_and!; simpl; by rewrite ?Hloop.
Qed.

Lemma skeleton_any_item_order_witness :
  _p_skeleton (PyDict [("b", Scalar S_int "1"); ("a", PyList [PyDict [("c", Scalar S_str "x")]])])
  = _p_skeleton (PyDict [("a", PyList [PyDict [("c", Scalar S_str "x")]]); ("b", Scalar S_int "1")]).
Proof.
  apply (skeleton_any_item_order
           [("a", PyList [PyDict [("c", Scalar S_str "x")]]); ("b", Scalar S_int "1")]
           [("b", Scalar S_int "1"); ("a", PyList [PyDict [("c", Scalar S_str "x")]])]).
  - apply (bool_decide_unpack _). by vm_compute.
  - apply Permutation_swap.
Defined.

(** *** The value that is reported *)












End Util.

(** ** mongodrums/sink.py *)

Module Sink.

(** The execution plan of an event: the driver's explain document, of
    which the sinks read ['cursor'], ['indexOnly'] and ['millis'], or
    the document [{'error': <trace>}] the instrumentation puts in its
    place. *)
Inductive explain_doc : Type :=
| Plan (cursor : string) (indexOnly : bool) (millis : Z)
| ExplainError (trace : string).

(** A profiling event as a sink receives it. *)
Record event : Type := {
  function_ : string;
  database : string;
  collection : string;
  session : string;
  query : string;
  explain : explain_doc;
  source : string
}.

Definition address : Type := (string * Z)%type.

(** [data['explain'][key]]: KeyError on the error document. *)
Definition explain_cursor (data : event) : result string :=
  match explain data with
  | Plan cursor _ _ => Ok cursor
  | ExplainError _ => Raise (OtherException "KeyError")
  end.

Definition explain_indexOnly (data : event) : result bool :=
  match explain data with
  | Plan _ indexOnly _ => Ok indexOnly
  | ExplainError _ => Raise (OtherException "KeyError")
  end.

Definition explain_millis (data : event) : result Z :=
  match explain data with
  | Plan _ _ millis => Ok millis
  | ExplainError _ => Raise (OtherException "KeyError")
  end.

(** [Sink]: the abstract class.  [W] is the state of the store a sink
    writes to. *)
Class Sink (S W : Type) : Type := {
  filter : S -> event -> address -> bool;
  send : S -> event -> address -> W -> result W
}.

(** [Sink.handle] *)
Definition handle {S W : Type} `{Sink S W} (self : S) (data : event) (address : address)
  (w : W) : result W :=
  if negb (filter self data address) then send self data address w else Ok w.

(** [Sink.filter], the default. *)
Definition Sink_filter (data : event) (address : address) : bool := false.

(** [ProfileSink.filter] *)
Definition ProfileSink_filter (data : event) (address : address) : bool :=
  startswith (collection data) "$".

(** *** The index-profile collection *)

(** One element of ['queries'].  ['covered'] is absent until the first
    [$set]. *)
Record query_entry : Type := {
  q_query : string;
  q_count : Z;
  q_durations : list Z;
  q_covered : option bool
}.

(** A document of the index-profile collection. *)
Record index_profile_doc : Type := {
  d_session : string;
  d_collection : string;
  d_index : string;
  d_queries : list query_entry
}.

(** The collection, in natural order. *)
Definition index_profile_col : Type := list index_profile_doc.

Definition same_key (session collection index : string) (d : index_profile_doc) : bool :=
  String.eqb (d_session d) session
  && String.eqb (d_collection d) collection
  && String.eqb (d_index d) index.

(** Modelled from the spec: the index-profile collection of
    [mongodrums/collection.py], which is not among the sources, carries
    a uniqueness constraint over [(session, collection, index)]; an
    insert that violates it raises DuplicateKeyError. *)
Definition insert (doc : index_profile_doc) (col : index_profile_col)
  : result index_profile_col :=
  if existsb (same_key (d_session doc) (d_collection doc) (d_index doc)) col
  then Raise DuplicateKeyError
  else Ok (col ++ [doc]).

(** [col.update(spec, modifier)] without [multi]: the first document
    that matches [spec] is modified, if there is one. *)
Fixpoint update (spec : index_profile_doc -> bool)
  (modifier : index_profile_doc -> index_profile_doc) (col : index_profile_col)
  : index_profile_col :=
  match col with
  | [] => []
  | d :: col' => if spec d then modifier d :: col' else d :: update spec modifier col'
  end.

(** ['queries.query': q]: some element of the array has this query. *)
Definition has_query (q : string) (d : index_profile_doc) : bool :=
  existsb (fun e => String.eqb (q_query e) q) (d_queries d).

(** [{'$push': {'queries': entry}}] *)
Definition push_query (entry : query_entry) (d : index_profile_doc) : index_profile_doc :=
  {| d_session := d_session d; d_collection := d_collection d; d_index := d_index d;
     d_queries := d_queries d ++ [entry] |}.

(** The positional operator: [queries.$] is the first element of the
    array that matched the query condition. *)
Fixpoint at_first (p : query_entry -> bool) (f : query_entry -> query_entry)
  (entries : list query_entry) : list query_entry :=
  match entries with
  | [] => []
  | e :: entries' => if p e then f e :: entries' else e :: at_first p f entries'
  end.

(** [$inc] of ['count'], [$set] of ['covered'], [$push] to
    ['durations'], on one element. *)
Definition record_plan (indexOnly : bool) (millis : Z) (e : query_entry) : query_entry :=
  {| q_query := q_query e;
     q_count := (q_count e + 1)%Z;
     q_durations := q_durations e ++ [millis];
     q_covered := Some indexOnly |}.

Definition record_at (q : string) (indexOnly : bool) (millis : Z) (d : index_profile_doc)
  : index_profile_doc :=
  {| d_session := d_session d; d_collection := d_collection d; d_index := d_index d;
     d_queries := at_first (fun e => String.eqb (q_query e) q)
                           (record_plan indexOnly millis) (d_queries d) |}.

(** [IndexProfileSink.send] *)
Definition IndexProfileSink_send (data : event) (address : address)
  (col : index_profile_col) : result index_profile_col :=
  index ← explain_cursor data;
  let doc := {| d_session := session data; d_collection := collection data;
                d_index := index; d_queries := [] |} in
  let col1 := match insert doc col with
              | Ok col' => Ok col'
              | Raise DuplicateKeyError => Ok col
              | Raise e => Raise e
              end in
  col1 ← col1;
  let col2 :=
    update (fun d => same_key (session data) (collection data) index d
                     && negb (has_query (query data) d))
           (push_query {| q_query := query data; q_count := 0; q_durations := [];
                          q_covered := None |})
           col1 in
  index' ← explain_cursor data;
  indexOnly ← explain_indexOnly data;
  millis ← explain_millis data;
  Ok (update (fun d => same_key (session data) (collection data) index' d
                       && has_query (query data) d)
             (record_at (query data) indexOnly millis)
             col2).

(** Sending a list of events, oldest first. *)
Fixpoint send_all (events : list event) (address : address) (col : index_profile_col)
  : result index_profile_col :=
  match events with
  | [] => Ok col
  | data :: events' =>
      col' ← IndexProfileSink_send data address col;
      send_all events' address col'
  end.

(** The fields of a plan; the defaults stand for the error document. *)
Definition plan_indexOnly (data : event) : bool :=
  match explain data with
  | Plan _ indexOnly _ => indexOnly
  | ExplainError _ => false
  end.

Definition plan_millis (data : event) : Z :=
  match explain data with
  | Plan _ _ millis => millis
  | ExplainError _ => 0%Z
  end.

(** An event for the key triple [(s, c, i)] with query [q]. *)
Definition event_for (s c i q : string) (data : event) : Prop :=
  session data = s ∧ collection data = c ∧ query data = q
  ∧ ∃ indexOnly millis, explain data = Plan i indexOnly millis.

(** The aggregate document of the key triple. *)
Definition aggregate (s c i : string) (queries : list query_entry) : index_profile_doc :=
  {| d_session := s; d_collection := c; d_index := i; d_queries := queries |}.

(** The two concrete sinks.  A sink object holds no state of its own
    that the claims depend on. *)
Inductive IndexProfileSink : Type := index_profile_sink.
Inductive QueryProfileSink : Type := query_profile_sink.

Global Instance IndexProfileSink_Sink : Sink IndexProfileSink index_profile_col := {
  filter _ := ProfileSink_filter;
  send _ := IndexProfileSink_send
}.

(** A document of the query-profile collection. *)
Record query_profile_doc : Type := {
  p_function : string;
  p_database : string;
  p_collection : string;
  p_session : string;
  p_explain : explain_doc;
  p_query : string;
  p_source : string
}.

Section QueryProfileSink.
(** [sanitize_document_keys] is imported from [mongodrums.util] but not
    defined in the sources at hand; [save] of a document without an
    ['_id'] inserts it. *)
Variable sanitize_document_keys : explain_doc -> result explain_doc.

Definition QueryProfileSink_filter (data : event) (address : address) : bool :=
  startswith (collection data) "$".

Definition QueryProfileSink_send (data : event) (address : address)
  (col : list query_profile_doc) : result (list query_profile_doc) :=
  explain' ← sanitize_document_keys (explain data);
  Ok (col ++ [{| p_function := function_ data; p_database := database data;
                 p_collection := collection data; p_session := session data;
                 p_explain := explain'; p_query := query data;
                 p_source := source data |}]).

Global Instance QueryProfileSink_Sink : Sink QueryProfileSink (list query_profile_doc) := {
  filter _ := QueryProfileSink_filter;
  send _ := QueryProfileSink_send
}.
End QueryProfileSink.

(** Handling a list of events, oldest first. *)
Fixpoint handle_all {S W : Type} `{Sink S W} (self : S) (events : list event)
  (address : address) (w : W) : result W :=
  match events with
  | [] => Ok w
  | data :: events' =>
      w' ← handle self data address w;
      handle_all self events' address w'
  end.

(** An entry whose count is the number of its durations. *)
Definition entry_sound (e : query_entry) : Prop :=
  q_count e = Z.of_nat (length (q_durations e)).

(** A document whose entries have distinct queries and are sound. *)
Definition doc_sound (d : index_profile_doc) : Prop :=
  NoDup (map q_query (d_queries d)) ∧ Forall entry_sound (d_queries d).

(** The sum of the counts of a collection, and the number of durations
    it holds. *)
Definition entries_count (entries : list query_entry) : Z :=
  foldr (fun e n => (q_count e + n)%Z) 0%Z entries.

Definition events_counted (col : index_profile_col) : Z :=
  foldr (fun d n => (entries_count (d_queries d) + n)%Z) 0%Z col.

Definition entries_durations (entries : list query_entry) : nat :=
  foldr (fun e n => length (q_durations e) + n) 0 entries.

Definition durations_recorded (col : index_profile_col) : nat :=
  foldr (fun d n => entries_durations (d_queries d) + n) 0 col.

(** The events of a list that [ProfileSink.filter] lets through. *)
Definition let_through (events : list event) : list event :=
  List.filter (fun data => negb (startswith (collection data) "$")) events.

(** C9: [handle] calls [send] exactly when [filter] returns false and
    leaves the store alone when it returns true; for the index-profile
    and the query-profile sink, [filter] returns true exactly when the
    event's collection starts with ['$']. *)
Theorem handle_sends_unless_filtered {S W : Type} `{Sink S W} (self : S) (data : event)
  (address : address) (w : W) :
  (filter self data address = false → handle self data address w = send self data address w)
  ∧ (filter self data address = true → handle self data address w = Ok w)
  ∧ (filter index_profile_sink data address = true ↔ ∃ rest, collection data = "$" +:+ rest)
  ∧ (∀ sanitize_document_keys,
       @filter _ _ (QueryProfileSink_Sink sanitize_document_keys) query_profile_sink data address
       = true ↔ ∃ rest, collection data = "$" +:+ rest).
Proof.
  assert (∀ s, startswith s "$" = true ↔ ∃ rest, s = "$" +:+ rest) as Hstarts.
  { intros [|c s]; unfold startswith.
    - split; [done|]. by intros [rest ?].
    - rewrite Util.prefix_String, Util.prefix_empty, andb_true_r.
      destruct (Ascii.eqb_spec "$" c) as [<-|Hne].
      + split; [by exists s|done].
      + split; [done|]. intros [rest [= -> _]]. done. }
  unfold handle. split_and!.
  - intros Hf. by rewrite Hf.
  - intros Hf. by rewrite Hf.
  - apply Hstarts.
  - intros sanitize_document_keys. apply Hstarts.
Qed.

(** *** The index-profile aggregate *)

Lemma update_skip (spec : index_profile_doc -> bool)
  (modifier : index_profile_doc -> index_profile_doc) (pre : index_profile_col)
  (d : index_profile_doc) :
  Forall (fun d' => spec d' = false) pre →
  update spec modifier (pre ++ [d]) = pre ++ [if spec d then modifier d else d].
Proof.
  induction 1 as [|d' pre Hd' _ IH]; simpl.
  - by destruct (spec d).
  - by rewrite Hd', IH.
Qed.

Lemma no_same_key (s c i : string) (col : index_profile_col) (p : index_profile_doc -> bool) :
  existsb (same_key s c i) col = false →
  Forall (fun d => same_key s c i d && p d = false) col.
Proof.
  induction col as [|d col IH]; simpl; [constructor|].
  intros [Hd Hcol]%orb_false_iff. constructor; [by rewrite Hd|auto].
Qed.

Lemma same_key_aggregate (s c i : string) (queries : list query_entry) :
  same_key s c i (aggregate s c i queries) = true.
Proof. unfold same_key. simpl. by rewrite !String.eqb_refl. Qed.

Lemma has_query_aggregate (s c i q : string) (queries : list query_entry) :
  has_query q (aggregate s c i queries)
  = existsb (fun e => String.eqb (q_query e) q) queries.
Proof. reflexivity. Qed.

(** What [send] does to a collection that holds the document of the key
    triple last, or does not hold it: the entry of the query is created
    if it is new, and the plan is recorded on the first entry of the
    query. *)
Lemma send_records (s c i : string) (queries : list query_entry) (q : string) (data : event)
  (address : address) (col : index_profile_col) :
  event_for s c i q data →
  existsb (same_key s c i) col = false →
  IndexProfileSink_send data address (col ++ [aggregate s c i queries])
  = Ok (col ++ [aggregate s c i
                  (at_first (fun e => String.eqb (q_query e) q)
                     (record_plan (plan_indexOnly data) (plan_millis data))
                     (if existsb (fun e => String.eqb (q_query e) q) queries
                      then queries
                      else queries ++ [{| q_query := q; q_count := 0; q_durations := [];
                                          q_covered := None |}]))]).
Proof.
  intros (<- & <- & <- & b & ms & Hplan) Hnone.
  unfold IndexProfileSink_send, explain_cursor, explain_indexOnly, explain_millis, insert,
    plan_millis, plan_indexOnly.
  rewrite Hplan. simpl. rewrite existsb_app. simpl.
  rewrite same_key_aggregate, orb_true_r. simpl.
  rewrite update_skip by (by apply no_same_key).
  rewrite same_key_aggregate, has_query_aggregate. simpl.
  rewrite update_skip by (by apply no_same_key).
  destruct (existsb (fun e => String.eqb (q_query e) (query data)) queries) eqn:Hq; simpl.
  - by rewrite same_key_aggregate, has_query_aggregate, Hq.
  - unfold push_query. simpl. fold (aggregate (session data) (collection data) i
                                      (queries ++ [{| q_query := query data; q_count := 0;
                                                      q_durations := []; q_covered := None |}])).
    rewrite same_key_aggregate, has_query_aggregate, existsb_app, Hq. simpl.
    by rewrite String.eqb_refl.
Qed.

(** The first event for a key triple creates its document. *)
Lemma send_creates (s c i q : string) (data : event) (address : address)
  (col : index_profile_col) :
  event_for s c i q data →
  existsb (same_key s c i) col = false →
  IndexProfileSink_send data address col
  = Ok (col ++ [aggregate s c i [{| q_query := q; q_count := 1;
                                    q_durations := [plan_millis data];
                                    q_covered := Some (plan_indexOnly data) |}]]).
Proof.
  intros (<- & <- & <- & b & ms & Hplan) Hnone.
  unfold IndexProfileSink_send, explain_cursor, explain_indexOnly, explain_millis, insert,
    plan_millis, plan_indexOnly.
  rewrite Hplan. simpl. rewrite Hnone. simpl.
  fold (aggregate (session data) (collection data) i []).
  rewrite update_skip by (by apply no_same_key).
  rewrite same_key_aggregate, has_query_aggregate. simpl.
  rewrite update_skip by (by apply no_same_key).
  unfold push_query. simpl.
  fold (aggregate (session data) (collection data) i
          [{| q_query := query data; q_count := 0; q_durations := []; q_covered := None |}]).
  rewrite same_key_aggregate, has_query_aggregate. simpl. rewrite String.eqb_refl. simpl.
  unfold record_at. simpl. by rewrite String.eqb_refl.
Qed.

Lemma last_cons {A : Type} (a d : A) (l : list A) : List.last (a :: l) d = List.last l a.
Proof.
  revert a d. induction l as [|b l IH]; intros a d; [done|].
  change (List.last (a :: b :: l) d) with (List.last (b :: l) d). by rewrite !IH.
Qed.

(** Further events of the same query add to the one entry. *)
Lemma send_all_accumulates (s c i q : string) (rest : list event) (prev : event)
  (n : Z) (durations : list Z) (address : address) (col : index_profile_col) :
  Forall (event_for s c i q) rest →
  existsb (same_key s c i) col = false →
  send_all rest address
    (col ++ [aggregate s c i [{| q_query := q; q_count := n; q_durations := durations;
                                 q_covered := Some (plan_indexOnly prev) |}]])
  = Ok (col ++ [aggregate s c i
                  [{| q_query := q;
                      q_count := (n + Z.of_nat (length rest))%Z;
                      q_durations := durations ++ map plan_millis rest;
                      q_covered := Some (plan_indexOnly (List.last rest prev)) |}]]).
Proof.
  intros Hrest Hnone. revert prev n durations.
  induction Hrest as [|data rest Hdata _ IH]; intros prev n durations; simpl send_all.
  - simpl. by rewrite Z.add_0_r, app_nil_r.
  - rewrite (send_records s c i _ q data address col Hdata Hnone). simpl.
    rewrite String.eqb_refl. simpl. rewrite String.eqb_refl. unfold record_plan. simpl.
    rewrite IH.
    change (match rest with [] => data | _ :: _ => List.last rest prev end)
      with (List.last (data :: rest) prev).
    rewrite last_cons, <- app_assoc. simpl.
    replace (n + 1 + Z.of_nat (length rest))%Z with (n + Z.pos (Pos.of_succ_nat (length rest)))%Z
      by lia.
    done.
Qed.

Lemma filter_same_key (s c i : string) (col : index_profile_col)
  (queries : list query_entry) :
  existsb (same_key s c i) col = false →
  List.filter (same_key s c i) (col ++ [aggregate s c i queries]) = [aggregate s c i queries].
Proof.
  intros Hnone. rewrite List.filter_app. simpl. rewrite same_key_aggregate.
  assert (List.filter (same_key s c i) col = []) as ->; [|done].
  induction col as [|d col IH]; simpl in *; [done|].
  apply orb_false_iff in Hnone as [-> Hcol]. auto.
Qed.

(** C3: after [send] has processed N >= 1 events of one session,
    collection, plan cursor and query, starting from a collection
    without a document for that key triple, the collection holds one
    document for the triple, whose queries are one entry of that query
    with count N, the N durations, and the indexOnly of the Nth event as
    covered; an event of another query under the same triple then
    appends a second entry and leaves the first as it is. *)
Theorem index_profile_entry_counts (s c i q q' : string) (first : event) (rest : list event)
  (other : event) (address : address) (col : index_profile_col) :
  Forall (event_for s c i q) (first :: rest) →
  event_for s c i q' other →
  q' ≠ q →
  existsb (same_key s c i) col = false →
  ∃ col' entry,
    send_all (first :: rest) address col = Ok col'
    ∧ List.filter (same_key s c i) col' = [aggregate s c i [entry]]
    ∧ q_query entry = q
    ∧ q_count entry = Z.of_nat (S (length rest))
    ∧ length (q_durations entry) = S (length rest)
    ∧ q_durations entry = map plan_millis (first :: rest)
    ∧ q_covered entry = Some (plan_indexOnly (List.last rest first))
    ∧ ∃ col'',
        IndexProfileSink_send other address col' = Ok col''
        ∧ List.filter (same_key s c i) col''
          = [aggregate s c i
               [entry;
                {| q_query := q'; q_count := 1; q_durations := [plan_millis other];
                   q_covered := Some (plan_indexOnly other) |}]].
Proof.
  intros Hall Hother Hne Hnone. inversion Hall as [|? ? Hfirst Hrest]; subst.
  eexists _, _. split_and!.
  - simpl send_all. rewrite (send_creates s c i q first address col Hfirst Hnone). simpl.
    apply (send_all_accumulates s c i q rest first 1 [plan_millis first] address col Hrest Hnone).
  - by apply filter_same_key.
  - done.
  - simpl q_count. lia.
  - simpl. by rewrite length_map.
  - done.
  - done.
  - eexists. split.
    + apply (send_records s c i _ q' other address col Hother Hnone).
    + simpl. apply String.eqb_neq in Hne. rewrite String.eqb_sym in Hne. rewrite Hne. simpl.
      rewrite Hne, String.eqb_refl. by apply filter_same_key.
Qed.

Definition find_by_name (indexOnly : bool) (millis : Z) : event :=
  {| function_ := "find"; database := "test"; collection := "foo"; session := "s1";
     query := "{name}"; explain := Plan "BtreeCursor name_1" indexOnly millis;
     source := "app.py:10" |}.

Definition find_by_age : event :=
  {| function_ := "find"; database := "test"; collection := "foo"; session := "s1";
     query := "{age}"; explain := Plan "BtreeCursor name_1" true 9; source := "app.py:12" |}.

Lemma index_profile_entry_counts_witness :
  ∃ col' entry,
    send_all [find_by_name true 3; find_by_name true 5; find_by_name false 4]
             ("127.0.0.1", 8000%Z) []
    = Ok col'
    ∧ List.filter (same_key "s1" "foo" "BtreeCursor name_1") col'
      = [aggregate "s1" "foo" "BtreeCursor name_1" [entry]]
    ∧ q_query entry = "{name}"
    ∧ q_count entry = 3%Z
    ∧ length (q_durations entry) = 3
    ∧ q_durations entry = [3; 5; 4]%Z
    ∧ q_covered entry = Some false
    ∧ ∃ col'',
        IndexProfileSink_send find_by_age ("127.0.0.1", 8000%Z) col' = Ok col''
        ∧ List.filter (same_key "s1" "foo" "BtreeCursor name_1") col''
          = [aggregate "s1" "foo" "BtreeCursor name_1"
               [entry;
                {| q_query := "{age}"; q_count := 1; q_durations := [9%Z];
                   q_covered := Some true |}]].
Proof.
  apply (index_profile_entry_counts "s1" "foo" "BtreeCursor name_1" "{name}" "{age}"
           (find_by_name true 3) [find_by_name true 5; find_by_name false 4] find_by_age
           ("127.0.0.1", 8000%Z) []).
  - repeat constructor; by eexists _, _.
  - repeat split. by eexists _, _.
  - done.
  - done.
Defined.

Definition find_event (coll : string) : event :=
  {| function_ := "find"; database := "test"; collection := coll; session := "s1";
     query := "{}"; explain := Plan "BtreeCursor name_1" false 3; source := "app.py:10" |}.

Lemma handle_sends_unless_filtered_witness :
  handle index_profile_sink (find_event "foo") ("127.0.0.1", 8000%Z) []
  = send index_profile_sink (find_event "foo") ("127.0.0.1", 8000%Z) []
  ∧ handle index_profile_sink (find_event "$cmd") ("127.0.0.1", 8000%Z) [] = Ok [].
Proof.
  split.
  - apply (proj1 (handle_sends_unless_filtered index_profile_sink (find_event "foo") _ _)).
    reflexivity.
  - apply (proj1 (proj2 (handle_sends_unless_filtered index_profile_sink (find_event "$cmd")
                           _ _))).
    reflexivity.
Defined.

(** *** What one event does to the collection *)

(** [send] on an event that carries a plan, step by step. *)
Lemma send_plan (data : event) (address : address) (col : index_profile_col)
  (i : string) (b : bool) (ms : Z) :
  explain data = Plan i b ms →
  IndexProfileSink_send data address col
  = Ok (update (fun d => same_key (session data) (collection data) i d
                         && has_query (query data) d)
               (record_at (query data) b ms)
               (update (fun d => same_key (session data) (collection data) i d
                                 && negb (has_query (query data) d))
                       (push_query {| q_query := query data; q_count := 0; q_durations := [];
                                      q_covered := None |})
                       (if existsb (same_key (session data) (collection data) i) col
                        then col
                        else col ++ [aggregate (session data) (collection data) i []]))).
Proof.
  intros Hplan.
  unfold IndexProfileSink_send, explain_cursor, explain_indexOnly, explain_millis, insert.
  rewrite Hplan. simpl.
  by destruct (existsb (same_key (session data) (collection data) i) col).
Qed.

Lemma update_Forall (P : index_profile_doc -> Prop) (spec : index_profile_doc -> bool)
  (modifier : index_profile_doc -> index_profile_doc) (col : index_profile_col) :
  (∀ d, P d → spec d = true → P (modifier d)) →
  Forall P col → Forall P (update spec modifier col).
Proof.
  intros Hmod. induction 1 as [|d col Hd Hcol IH]; simpl; [constructor|].
  destruct (spec d) eqn:Hspec; constructor; auto.
Qed.

Lemma has_query_false (q : string) (d : index_profile_doc) :
  has_query q d = false → q ∉ map q_query (d_queries d).
Proof.
  unfold has_query. induction (d_queries d) as [|e entries IH]; simpl.
  - intros _. apply not_elem_of_nil.
  - intros [He Hrest]%orb_false_iff. apply not_elem_of_cons. split; [|auto].
    apply String.eqb_neq in He. congruence.
Qed.

Lemma push_query_sound (q : string) (d : index_profile_doc) :
  doc_sound d →
  has_query q d = false →
  doc_sound (push_query {| q_query := q; q_count := 0; q_durations := []; q_covered := None |} d).
Proof.
  intros [Hnodup Hsound] Hq. split; simpl.
  - rewrite map_app. simpl. apply NoDup_app. split_and!; [done| |apply NoDup_singleton].
    intros q' Hq' Heq%list_elem_of_singleton. subst q'. by apply (has_query_false q d).
  - apply Forall_app. split; [done|]. by repeat constructor.
Qed.

Lemma at_first_queries (p : query_entry -> bool) (f : query_entry -> query_entry)
  (entries : list query_entry) :
  (∀ e, q_query (f e) = q_query e) →
  map q_query (at_first p f entries) = map q_query entries.
Proof.
  intros Hf. induction entries as [|e entries IH]; simpl; [done|].
  destruct (p e); simpl; by rewrite ?Hf, ?IH.
Qed.

Lemma record_at_sound (q : string) (b : bool) (ms : Z) (d : index_profile_doc) :
  doc_sound d → doc_sound (record_at q b ms d).
Proof.
  intros [Hnodup Hsound]. split; simpl.
  - by rewrite at_first_queries.
  - induction Hsound as [|e entries He Hentries IH]; simpl; [constructor|].
    apply NoDup_cons in Hnodup as [_ Hnodup].
    destruct (String.eqb (q_query e) q); constructor; auto.
    unfold entry_sound in *. simpl. rewrite length_app. simpl. lia.
Qed.

(** Whatever the collection holds, one event with a plan leaves every
    document with distinct queries and every entry with as many
    durations as its count says. *)
Theorem send_keeps_entries_sound (data : event) (address : address)
  (col : index_profile_col) (i : string) (b : bool) (ms : Z) :
  explain data = Plan i b ms →
  Forall doc_sound col →
  ∃ col', IndexProfileSink_send data address col = Ok col' ∧ Forall doc_sound col'.
Proof.
  intros Hplan Hcol. rewrite (send_plan _ _ _ _ _ _ Hplan). eexists. split; [done|].
  apply update_Forall; [intros d Hd _; by apply record_at_sound|].
  apply update_Forall.
  - intros d Hd [_ Hq%negb_true_iff]%andb_true_iff. by apply push_query_sound.
  - destruct (existsb _ col); [done|]. apply Forall_app. split; [done|].
    repeat constructor.
Qed.

Lemma send_keeps_entries_sound_witness :
  ∃ col', IndexProfileSink_send (find_by_name true 3) ("127.0.0.1", 8000%Z)
            [aggregate "s1" "foo" "BtreeCursor name_1"
               [{| q_query := "{name}"; q_count := 2; q_durations := [4; 6]%Z;
                   q_covered := Some false |}]]
          = Ok col'
          ∧ Forall doc_sound col'.
Proof.
  apply (send_keeps_entries_sound (find_by_name true 3) _ _ "BtreeCursor name_1" true 3).
  - reflexivity.
  - repeat constructor; simpl; set_solver.
Defined.

(** *** No event lost, none counted twice *)

Lemma events_counted_app (col col' : index_profile_col) :
  events_counted (col ++ col') = (events_counted col + events_counted col')%Z.
Proof.
  unfold events_counted. induction col as [|d col IH]; simpl; [done|]. rewrite IH. lia.
Qed.

Lemma durations_recorded_app (col col' : index_profile_col) :
  durations_recorded (col ++ col') = durations_recorded col + durations_recorded col'.
Proof.
  unfold durations_recorded. induction col as [|d col IH]; simpl; [done|]. rewrite IH. lia.
Qed.

Lemma entries_count_app (entries entries' : list query_entry) :
  entries_count (entries ++ entries') = (entries_count entries + entries_count entries')%Z.
Proof.
  unfold entries_count. induction entries as [|e entries IH]; simpl; [done|]. rewrite IH. lia.
Qed.

Lemma entries_durations_app (entries entries' : list query_entry) :
  entries_durations (entries ++ entries') = entries_durations entries + entries_durations entries'.
Proof.
  unfold entries_durations. induction entries as [|e entries IH]; simpl; [done|].
  rewrite IH. lia.
Qed.

(** Creating the entry of a query counts nothing. *)
Lemma push_counts_nothing (spec : index_profile_doc -> bool) (q : string)
  (col : index_profile_col) :
  events_counted
    (update spec (push_query {| q_query := q; q_count := 0; q_durations := [];
                                q_covered := None |}) col)
  = events_counted col
  ∧ durations_recorded
      (update spec (push_query {| q_query := q; q_count := 0; q_durations := [];
                                  q_covered := None |}) col)
    = durations_recorded col.
Proof.
  induction col as [|d col [IH1 IH2]]; simpl; [done|].
  destruct (spec d); simpl.
  - rewrite entries_count_app, entries_durations_app. simpl. split; lia.
  - unfold events_counted, durations_recorded in *. simpl. rewrite IH1, IH2. done.
Qed.

Lemma at_first_counts_one (q : string) (b : bool) (ms : Z) (entries : list query_entry) :
  existsb (fun e => String.eqb (q_query e) q) entries = true →
  entries_count (at_first (fun e => String.eqb (q_query e) q) (record_plan b ms) entries)
  = (entries_count entries + 1)%Z
  ∧ entries_durations (at_first (fun e => String.eqb (q_query e) q) (record_plan b ms) entries)
    = entries_durations entries + 1.
Proof.
  induction entries as [|e entries IH]; simpl; [done|].
  destruct (String.eqb (q_query e) q); simpl.
  - intros _. rewrite length_app. simpl. split; lia.
  - intros H. destruct (IH H) as [IH1 IH2].
    unfold entries_count, entries_durations in *. simpl. rewrite IH1, IH2. split; lia.
Qed.

(** Recording a plan counts one event, if some document matches. *)
Lemma record_counts_one (spec : index_profile_doc -> bool) (q : string) (b : bool) (ms : Z)
  (col : index_profile_col) :
  (∀ d, spec d = true → has_query q d = true) →
  existsb spec col = true →
  events_counted (update spec (record_at q b ms) col) = (events_counted col + 1)%Z
  ∧ durations_recorded (update spec (record_at q b ms) col) = durations_recorded col + 1.
Proof.
  intros Hspec. induction col as [|d col IH]; simpl; [done|].
  destruct (spec d) eqn:Hd; simpl.
  - intros _. destruct (at_first_counts_one q b ms (d_queries d)) as [H1 H2];
      [by apply Hspec|].
    rewrite H1, H2. split; lia.
  - intros H. destruct (IH H) as [IH1 IH2].
    unfold events_counted, durations_recorded in *. simpl. rewrite IH1, IH2. split; lia.
Qed.

(** After the first two steps of [send] some document of the key triple
    holds the entry of the query. *)
Lemma entry_is_there (key : index_profile_doc -> bool) (q : string) (col : index_profile_col) :
  existsb key col = true →
  (∀ d entry, key (push_query entry d) = key d) →
  existsb (fun d => key d && has_query q d)
    (update (fun d => key d && negb (has_query q d))
            (push_query {| q_query := q; q_count := 0; q_durations := []; q_covered := None |})
            col)
  = true.
Proof.
  intros Hsome Hkey. induction col as [|d col IH]; simpl in *; [done|].
  destruct (key d) eqn:Hd; simpl.
  - destruct (has_query q d) eqn:Hq; simpl.
    + by rewrite Hd, Hq.
    + rewrite Hkey, Hd. unfold has_query. simpl. rewrite existsb_app. simpl.
      by rewrite String.eqb_refl, orb_true_r.
  - rewrite Hd. simpl. auto.
Qed.

Lemma plan_counts_one (s c i q : string) (b : bool) (ms : Z) (col : index_profile_col) :
  events_counted
    (update (fun d => same_key s c i d && has_query q d) (record_at q b ms)
       (update (fun d => same_key s c i d && negb (has_query q d))
          (push_query {| q_query := q; q_count := 0; q_durations := []; q_covered := None |})
          (if existsb (same_key s c i) col then col else col ++ [aggregate s c i []])))
  = (events_counted col + 1)%Z
  ∧ durations_recorded
      (update (fun d => same_key s c i d && has_query q d) (record_at q b ms)
         (update (fun d => same_key s c i d && negb (has_query q d))
            (push_query {| q_query := q; q_count := 0; q_durations := []; q_covered := None |})
            (if existsb (same_key s c i) col then col else col ++ [aggregate s c i []])))
    = S (durations_recorded col).
Proof.
  set (col1 := if existsb (same_key s c i) col then col else col ++ [aggregate s c i []]).
  assert (Hsome : existsb (same_key s c i) col1 = true).
  { unfold col1. destruct (existsb (same_key s c i) col) eqn:Hc; [done|].
    rewrite existsb_app. simpl. by rewrite same_key_aggregate, orb_true_r. }
  assert (Hcol1 : events_counted col1 = events_counted col
                  ∧ durations_recorded col1 = durations_recorded col).
  { unfold col1. destruct (existsb _ col); [done|].
    rewrite events_counted_app, durations_recorded_app. simpl. split; lia. }
  destruct (record_counts_one
              (fun d => same_key s c i d && has_query q d) q b ms
              (update (fun d => same_key s c i d && negb (has_query q d))
                      (push_query {| q_query := q; q_count := 0; q_durations := [];
                                     q_covered := None |}) col1)) as [H1 H2].
  - by intros d [_ ?]%andb_true_iff.
  - by apply entry_is_there.
  - rewrite H1, H2.
    destruct (push_counts_nothing
                (fun d => same_key s c i d && negb (has_query q d)) q col1) as [-> ->].
    destruct Hcol1 as [-> ->]. split; lia.
Qed.

(** Whatever the collection holds, one event with a plan raises the sum
    of all counts by exactly one and adds exactly one duration. *)
Theorem send_counts_one_event (data : event) (address : address) (col : index_profile_col)
  (i : string) (b : bool) (ms : Z) :
  explain data = Plan i b ms →
  ∃ col', IndexProfileSink_send data address col = Ok col'
          ∧ events_counted col' = (events_counted col + 1)%Z
          ∧ durations_recorded col' = S (durations_recorded col).
Proof.
  intros Hplan. rewrite (send_plan _ _ _ _ _ _ Hplan). eexists. split; [done|].
  apply plan_counts_one.
Qed.

Lemma send_counts_one_event_witness :
  ∃ col', IndexProfileSink_send find_by_age ("127.0.0.1", 8000%Z)
            [aggregate "s1" "foo" "BtreeCursor name_1"
               [{| q_query := "{name}"; q_count := 2; q_durations := [4; 6]%Z;
                   q_covered := Some false |}]]
          = Ok col'
          ∧ events_counted col' = (2 + 1)%Z
          ∧ durations_recorded col' = 3.
Proof.
  apply (send_counts_one_event find_by_age ("127.0.0.1", 8000%Z)
           [aggregate "s1" "foo" "BtreeCursor name_1"
              [{| q_query := "{name}"; q_count := 2; q_durations := [4; 6]%Z;
                  q_covered := Some false |}]]
           "BtreeCursor name_1" true 9).
  reflexivity.
Defined.

(** *** The other documents *)

Lemma update_filter (p spec : index_profile_doc -> bool)
  (modifier : index_profile_doc -> index_profile_doc) (col : index_profile_col) :
  (∀ d, spec d = true → p d = false ∧ p (modifier d) = false) →
  List.filter p (update spec modifier col) = List.filter p col.
Proof.
  intros Hspec. induction col as [|d col IH]; simpl; [done|].
  destruct (spec d) eqn:Hd; simpl.
  - by destruct (Hspec d Hd) as [-> ->].
  - by rewrite IH.
Qed.

Lemma update_length (spec : index_profile_doc -> bool)
  (modifier : index_profile_doc -> index_profile_doc) (col : index_profile_col) :
  length (update spec modifier col) = length col.
Proof.
  induction col as [|d col IH]; simpl; [done|]. destruct (spec d); simpl; by rewrite ?IH.
Qed.

(** One event touches the documents of its own key triple only: the
    documents of every other session, collection or index stay as they
    are and in their order, none is removed, and at most one document
    is added. *)
Theorem send_leaves_other_keys (data : event) (address : address) (col : index_profile_col)
  (i : string) (b : bool) (ms : Z) :
  explain data = Plan i b ms →
  ∃ col', IndexProfileSink_send data address col = Ok col'
          ∧ List.filter (fun d => negb (same_key (session data) (collection data) i d)) col'
            = List.filter (fun d => negb (same_key (session data) (collection data) i d)) col
          ∧ length col ≤ length col' ≤ S (length col).
Proof.
  intros Hplan. rewrite (send_plan _ _ _ _ _ _ Hplan). eexists. split; [done|].
  rewrite !update_length. split.
  - rewrite !update_filter.
    + destruct (existsb _ col); [done|]. rewrite List.filter_app. simpl.
      by rewrite same_key_aggregate, app_nil_r.
    + intros d [Hd _]%andb_true_iff. unfold same_key in *. simpl. by rewrite Hd.
    + intros d [Hd _]%andb_true_iff. unfold same_key in *. simpl. by rewrite Hd.
  - destruct (existsb _ col); [lia|]. rewrite length_app. simpl. lia.
Qed.

Lemma send_leaves_other_keys_witness :
  ∃ col', IndexProfileSink_send find_by_age ("127.0.0.1", 8000%Z)
            [aggregate "s0" "foo" "BtreeCursor name_1" []; aggregate "s1" "bar" "BasicCursor" []]
          = Ok col'
          ∧ List.filter (fun d => negb (same_key "s1" "foo" "BtreeCursor name_1" d)) col'
            = [aggregate "s0" "foo" "BtreeCursor name_1" []; aggregate "s1" "bar" "BasicCursor" []]
          ∧ 2 ≤ length col' ≤ 3.
Proof.
  apply (send_leaves_other_keys find_by_age _
           [aggregate "s0" "foo" "BtreeCursor name_1" []; aggregate "s1" "bar" "BasicCursor" []]
           "BtreeCursor name_1" true 9).
  reflexivity.
Defined.

(** *** Events without a plan *)

(** An event whose plan is the error document, which the
    instrumentation sends when [explain] failed, makes the index-profile
    sink raise KeyError before it writes anything; [handle] passes the
    exception on unless the event is filtered.  The query-profile sink
    stores such an event like any other. *)
Theorem send_without_plan (data : event) (address : address) (trace : string) :
  explain data = ExplainError trace →
  (∀ col, IndexProfileSink_send data address col = Raise (OtherException "KeyError"))
  ∧ (∀ col, startswith (collection data) "$" = false →
            handle index_profile_sink data address col = Raise (OtherException "KeyError"))
  ∧ (∀ sanitize_document_keys explain' col,
       sanitize_document_keys (explain data) = Ok explain' →
       ∃ doc, QueryProfileSink_send sanitize_document_keys data address col = Ok (col ++ [doc])
              ∧ p_explain doc = explain' ∧ p_query doc = query data
              ∧ p_source doc = source data).
Proof.
  intros Herror. split_and!.
  - intros col. unfold IndexProfileSink_send, explain_cursor. by rewrite Herror.
  - intros col Hfilter. unfold handle. simpl. unfold ProfileSink_filter. rewrite Hfilter.
    simpl. unfold IndexProfileSink_send, explain_cursor. by rewrite Herror.
  - intros sanitize_document_keys explain' col Hs. unfold QueryProfileSink_send.
    rewrite Hs. simpl. by eexists.
Qed.

Definition failed_find : event :=
  {| function_ := "find"; database := "test"; collection := "foo"; session := "s1";
     query := "{name}"; explain := ExplainError "Traceback (most recent call last): ...";
     source := "app.py:10" |}.

Lemma send_without_plan_witness :
  IndexProfileSink_send failed_find ("127.0.0.1", 8000%Z) [] = Raise (OtherException "KeyError")
  ∧ handle index_profile_sink failed_find ("127.0.0.1", 8000%Z) []
    = Raise (OtherException "KeyError").
Proof.
  destruct (send_without_plan failed_find ("127.0.0.1", 8000%Z)
              "Traceback (most recent call last): ..." eq_refl) as (Hsend & Hhandle & _).
  split; [apply Hsend|by apply Hhandle].
Defined.

(** *** A stream of events *)

(** Handling a list of events that all carry a plan never fails, and
    raises the sum of the counts by the number of events whose
    collection does not start with ['$']: the filtered ones leave no
    trace. *)
Theorem handle_all_counts_unfiltered (events : list event) (address : address)
  (col : index_profile_col) :
  Forall (fun data => ∃ i b ms, explain data = Plan i b ms) events →
  ∃ col', handle_all index_profile_sink events address col = Ok col'
          ∧ events_counted col'
            = (events_counted col + Z.of_nat (length (let_through events)))%Z
          ∧ durations_recorded col' = durations_recorded col + length (let_through events).
Proof.
  intros Hplans. revert col.
  induction Hplans as [|data events (i & b & ms & Hplan) _ IH]; intros col.
  - exists col. simpl. split_and!; [done|lia..].
  - simpl handle_all. unfold handle at 1, let_through. simpl. unfold ProfileSink_filter.
    destruct (startswith (collection data) "$"); simpl.
    + apply IH.
    + rewrite (send_plan _ _ _ _ _ _ Hplan). simpl.
      destruct (plan_counts_one (session data) (collection data) i (query data) b ms col)
        as [H1 H2].
      match goal with
      | |- context [handle_all _ events address ?col1] =>
          destruct (IH col1) as (col' & -> & H1' & H2')
      end.
      exists col'. unfold let_through in *. split_and!; [done|lia..].
Qed.

Lemma handle_all_counts_unfiltered_witness :
  ∃ col', handle_all index_profile_sink
            [find_by_name true 3; find_event "$cmd"; find_by_age; find_by_name false 5]
            ("127.0.0.1", 8000%Z) []
          = Ok col'
          ∧ events_counted col' = 3%Z
          ∧ durations_recorded col' = 3.
Proof.
  apply (handle_all_counts_unfiltered
           [find_by_name true 3; find_event "$cmd"; find_by_age; find_by_name false 5]
           ("127.0.0.1", 8000%Z) []).
  repeat constructor; by eexists _, _, _.
Defined.

(** *** The query-profile collection *)

(** The fields [QueryProfileSink.send] copies from an event. *)
Definition copied_fields (d : query_profile_doc) : string * string * string * string * string * string :=
  (p_function d, p_database d, p_collection d, p_session d, p_query d, p_source d).

Definition event_fields (data : event) : string * string * string * string * string * string :=
  (function_ data, database data, collection data, session data, query data, source data).

(** As long as [sanitize_document_keys] returns on the plans of the
    events, the query-profile sink stores one document for every event
    whose collection does not start with ['$'] and none for the others:
    the documents are appended in the order of arrival, each with the
    fields of its event and the sanitized plan, and the documents
    already there stay. *)
Theorem query_profile_keeps_every_event
  (sanitize_document_keys : explain_doc -> result explain_doc)
  (events : list event) (address : address) (col : list query_profile_doc) :
  Forall (fun data => ∃ explain', sanitize_document_keys (explain data) = Ok explain') events →
  ∃ new,
    @handle_all _ _ (QueryProfileSink_Sink sanitize_document_keys) query_profile_sink
      events address col
    = Ok (col ++ new)
    ∧ map copied_fields new = map event_fields (let_through events)
    ∧ map (fun d => Ok (p_explain d)) new
      = map (fun data => sanitize_document_keys (explain data)) (let_through events).
Proof.
  intros Hall. revert col.
  induction Hall as [|data events [explain' Hdata] _ IH]; intros col.
  - exists []. by rewrite app_nil_r.
  - simpl handle_all. unfold handle at 1, let_through. simpl. unfold QueryProfileSink_filter.
    destruct (startswith (collection data) "$"); simpl.
    + apply IH.
    + unfold QueryProfileSink_send. rewrite Hdata. simpl.
      destruct (IH (col ++ [{| p_function := function_ data; p_database := database data;
                               p_collection := collection data; p_session := session data;
                               p_explain := explain'; p_query := query data;
                               p_source := source data |}]))
        as (new & -> & Hfields & Hplans).
      eexists (_ :: new). rewrite <- app_assoc. split; [done|]. simpl.
      unfold let_through in *. by rewrite Hfields, Hplans.
Qed.

Lemma query_profile_keeps_every_event_witness :
  ∃ new,
    @handle_all _ _ (QueryProfileSink_Sink Ok) query_profile_sink
      [find_by_name true 3; find_event "$cmd"; failed_find] ("127.0.0.1", 8000%Z) []
    = Ok ([] ++ new)
    ∧ map copied_fields new = [event_fields (find_by_name true 3); event_fields failed_find]
    ∧ map (fun d => Ok (p_explain d)) new
      = map (fun data => Ok (explain data))
          (let_through [find_by_name true 3; find_event "$cmd"; failed_find]).
Proof.
  apply (query_profile_keeps_every_event Ok
           [find_by_name true 3; find_event "$cmd"; failed_find] ("127.0.0.1", 8000%Z) []).
  repeat constructor; by eexists.
Defined.

End Sink.

(** ** mongodrums/instrument.py *)

Module Instrument.

(** *** Installing and removing interceptors *)

(** The three cursor operations that end a query: [_method_name]. *)
Inductive cursor_method : Type := next | count | distinct.

Global Instance cursor_method_eq_dec : EqDecision cursor_method.
Proof. solve_decision. Defined.

(** The concrete interceptor classes. *)
Inductive wrapper_class : Type :=
| FindWrapper
| UpdateWrapper
| _CursorMethodWrapper (_method_name : cursor_method).

Global Instance wrapper_class_eq_dec : EqDecision wrapper_class.
Proof. solve_decision. Defined.

Definition _CursorNextWrapper : wrapper_class := _CursorMethodWrapper next.
Definition _CursorCountWrapper : wrapper_class := _CursorMethodWrapper count.
Definition _CursorDistinctWrapper : wrapper_class := _CursorMethodWrapper distinct.

Definition _cursor_terminators : list cursor_method := [next; count; distinct].

(** What an attribute of a driver class holds: a function of the driver,
    known by its name, or an interceptor object, known by its identity. *)
Inductive callable : Type :=
| Function (name : string)
| Instance (ref : nat).

Global Instance callable_eq_dec : EqDecision callable.
Proof. solve_decision. Defined.

(** The [instrument] section of the configuration.  The sample frequency
    is a float; nothing here computes with it. *)
Record config (float : Type) : Type := {
  sample_frequency : float;
  filter_packages : option (list string)
}.
Global Arguments sample_frequency {float} _.
Global Arguments filter_packages {float} _.

(** An interceptor object: [Wrapper.__init__] and [_configure]. *)
Record wrapper (float : Type) : Type := {
  class_ : wrapper_class;
  _func : callable;
  _frequency : float;
  _filter_packages : option (list string);
  _cursor_wrappers : option (list callable)
}.
Global Arguments class_ {float} _.
Global Arguments _func {float} _.
Global Arguments _frequency {float} _.
Global Arguments _filter_packages {float} _.
Global Arguments _cursor_wrappers {float} _.

(** The part of the interpreter that installing touches: the patched
    attributes of [pymongo.collection.Collection] and
    [pymongo.cursor.Cursor], the interceptor objects, and the
    configuration store with its callbacks.  Reading an attribute
    through the class gives what was stored there ([Wrapper.__get__]
    returns [self] for an interceptor); the unbound-method object that
    Python 2 makes around a plain function on each access is not
    modelled. *)
Record runtime (float : Type) : Type := {
  Collection_find : callable;
  Collection_update : callable;
  Cursor : cursor_method -> callable;
  heap : gmap nat (wrapper float);
  next_ref : nat;
  get_config : config float;
  update_callbacks : list nat
}.
Global Arguments Collection_find {float} _.
Global Arguments Collection_update {float} _.
Global Arguments Cursor {float} _ _.
Global Arguments heap {float} _.
Global Arguments next_ref {float} _.
Global Arguments get_config {float} _.
Global Arguments update_callbacks {float} _.

Section install.
Context {float : Type}.
Implicit Types (rt : runtime float) (cls : wrapper_class) (meth : callable).

(** [isinstance(meth, cls)] *)
Definition isinstance rt meth cls : bool :=
  match meth with
  | Function _ => false
  | Instance ref =>
      match heap rt !! ref with
      | Some w => bool_decide (class_ w = cls)
      | None => false
      end
  end.

(** [cls(func)]: a new object, configured from the current
    configuration. *)
Definition new cls (func : callable) rt : nat * runtime float :=
  let w := {| class_ := cls; _func := func;
              _frequency := sample_frequency (get_config rt);
              _filter_packages := filter_packages (get_config rt);
              _cursor_wrappers := None |} in
  (next_ref rt,
   {| Collection_find := Collection_find rt; Collection_update := Collection_update rt;
      Cursor := Cursor rt; heap := <[next_ref rt := w]> (heap rt);
      next_ref := S (next_ref rt); get_config := get_config rt;
      update_callbacks := update_callbacks rt |}).

(** Modelled from the spec: [register_update_callback] and
    [unregister_update_callback] of [mongodrums/config.py], which is not
    among the sources, add a callback to and remove it from the
    notification list.  The callback [meth._configure] is kept as the
    identity of [meth]. *)
Definition register_update_callback meth rt : runtime float :=
  match meth with
  | Function _ => rt
  | Instance ref =>
      {| Collection_find := Collection_find rt; Collection_update := Collection_update rt;
         Cursor := Cursor rt; heap := heap rt; next_ref := next_ref rt;
         get_config := get_config rt; update_callbacks := update_callbacks rt ++ [ref] |}
  end.

Fixpoint remove_first (ref : nat) (l : list nat) : list nat :=
  match l with
  | [] => []
  | x :: l' => if bool_decide (x = ref) then l' else x :: remove_first ref l'
  end.

Definition unregister_update_callback meth rt : runtime float :=
  match meth with
  | Function _ => rt
  | Instance ref =>
      {| Collection_find := Collection_find rt; Collection_update := Collection_update rt;
         Cursor := Cursor rt; heap := heap rt; next_ref := next_ref rt;
         get_config := get_config rt;
         update_callbacks := remove_first ref (update_callbacks rt) |}
  end.

(** [setattr(pymongo.cursor.Cursor, name, meth)] *)
Definition setattr_Cursor (name : cursor_method) meth rt : runtime float :=
  {| Collection_find := Collection_find rt; Collection_update := Collection_update rt;
     Cursor := fun m => if bool_decide (m = name) then meth else Cursor rt m;
     heap := heap rt; next_ref := next_ref rt; get_config := get_config rt;
     update_callbacks := update_callbacks rt |}.

Definition set_Collection_find meth rt : runtime float :=
  {| Collection_find := meth; Collection_update := Collection_update rt;
     Cursor := Cursor rt; heap := heap rt; next_ref := next_ref rt;
     get_config := get_config rt; update_callbacks := update_callbacks rt |}.

Definition set_Collection_update meth rt : runtime float :=
  {| Collection_find := Collection_find rt; Collection_update := meth;
     Cursor := Cursor rt; heap := heap rt; next_ref := next_ref rt;
     get_config := get_config rt; update_callbacks := update_callbacks rt |}.

(** [instance._cursor_wrappers = ws] *)
Definition set_cursor_wrappers (ref : nat) (ws : option (list callable)) rt : runtime float :=
  {| Collection_find := Collection_find rt; Collection_update := Collection_update rt;
     Cursor := Cursor rt;
     heap := alter (fun w => {| class_ := class_ w; _func := _func w;
                                _frequency := _frequency w;
                                _filter_packages := _filter_packages w;
                                _cursor_wrappers := ws |}) ref (heap rt);
     next_ref := next_ref rt; get_config := get_config rt;
     update_callbacks := update_callbacks rt |}.

(** [_CursorMethodWrapper.wrap], for the class of method [name]. *)
Definition _CursorMethodWrapper_wrap (name : cursor_method) rt : callable * runtime float :=
  let meth := Cursor rt name in
  if negb (isinstance rt meth (_CursorMethodWrapper name)) then
    let '(ref, rt1) := new (_CursorMethodWrapper name) meth rt in
    let rt2 := setattr_Cursor name (Instance ref) rt1 in
    (Instance ref, register_update_callback (Instance ref) rt2)
  else (meth, rt).

(** [_CursorMethodWrapper.unwrap] *)
Definition _CursorMethodWrapper_unwrap (name : cursor_method) rt : runtime float :=
  let meth := Cursor rt name in
  match meth with
  | Instance ref =>
      match heap rt !! ref with
      | Some w =>
          if bool_decide (class_ w = _CursorMethodWrapper name)
          then setattr_Cursor name (_func w) (unregister_update_callback meth rt)
          else rt
      | None => rt
      end
  | Function _ => rt
  end.

(** [instance._cursor_wrappers.append(meth)] *)
Definition append_cursor_wrapper (ref : nat) meth rt : runtime float :=
  {| Collection_find := Collection_find rt; Collection_update := Collection_update rt;
     Cursor := Cursor rt;
     heap := alter (fun w => {| class_ := class_ w; _func := _func w;
                                _frequency := _frequency w;
                                _filter_packages := _filter_packages w;
                                _cursor_wrappers :=
                                  (fun ws => ws ++ [meth]) <$> _cursor_wrappers w |})
                   ref (heap rt);
     next_ref := next_ref rt; get_config := get_config rt;
     update_callbacks := update_callbacks rt |}.

(** The loop of [FindWrapper.wrap] over [_cursor_terminators], for the
    instance of identity [ref]. *)
Fixpoint wrap_terminators (names : list cursor_method) (ref : nat) rt : runtime float :=
  match names with
  | [] => rt
  | name :: names' =>
      let '(meth, rt') := _CursorMethodWrapper_wrap name rt in
      wrap_terminators names' ref (append_cursor_wrapper ref meth rt')
  end.

(** [FindWrapper.wrap] *)
Definition FindWrapper_wrap rt : callable * runtime float :=
  if negb (isinstance rt (Collection_find rt) FindWrapper) then
    let '(ref, rt1) := new FindWrapper (Collection_find rt) rt in
    let rt2 := register_update_callback (Instance ref) rt1 in
    let rt3 := set_cursor_wrappers ref (Some []) rt2 in
    let rt4 := wrap_terminators _cursor_terminators ref rt3 in
    let rt5 := set_Collection_find (Instance ref) rt4 in
    (Collection_find rt5, rt5)
  else (Collection_find rt, rt).

(** [cursor_wrapper.unwrap()] on an element of [_cursor_wrappers]: the
    class method of the element's class.  [wrap] only ever puts
    instances of the cursor classes there; anything else has no such
    method to call here. *)
Definition unwrap_element (cursor_wrapper : callable) rt : result (runtime float) :=
  match cursor_wrapper with
  | Instance ref =>
      match heap rt !! ref with
      | Some w =>
          match class_ w with
          | _CursorMethodWrapper name => Ok (_CursorMethodWrapper_unwrap name rt)
          | _ => Raise (OtherException "AttributeError")
          end
      | None => Raise (OtherException "AttributeError")
      end
  | Function _ => Raise (OtherException "AttributeError")
  end.

Fixpoint unwrap_elements (ws : list callable) rt : result (runtime float) :=
  match ws with
  | [] => Ok rt
  | cursor_wrapper :: ws' => rt' ← unwrap_element cursor_wrapper rt; unwrap_elements ws' rt'
  end.

(** [FindWrapper.unwrap] *)
Definition FindWrapper_unwrap rt : result (runtime float) :=
  match Collection_find rt with
  | Instance ref =>
      match heap rt !! ref with
      | Some w =>
          if bool_decide (class_ w = FindWrapper) then
            match _cursor_wrappers w with
            | None => Raise TypeError
            | Some ws =>
                rt1 ← unwrap_elements ws rt;
                let rt2 := set_cursor_wrappers ref None rt1 in
                let rt3 := unregister_update_callback (Instance ref) rt2 in
                Ok (set_Collection_find (_func w) rt3)
            end
          else Ok rt
      | None => Ok rt
      end
  | Function _ => Ok rt
  end.

(** [UpdateWrapper.wrap] *)
Definition UpdateWrapper_wrap rt : callable * runtime float :=
  if negb (isinstance rt (Collection_update rt) UpdateWrapper) then
    let '(ref, rt1) := new UpdateWrapper (Collection_update rt) rt in
    let rt2 := set_Collection_update (Instance ref) rt1 in
    let rt3 := register_update_callback (Collection_update rt2) rt2 in
    (Collection_update rt3, rt3)
  else (Collection_update rt, rt).

(** [UpdateWrapper.unwrap] *)
Definition UpdateWrapper_unwrap rt : runtime float :=
  match Collection_update rt with
  | Instance ref =>
      match heap rt !! ref with
      | Some w =>
          if bool_decide (class_ w = UpdateWrapper)
          then set_Collection_update (_func w)
                 (unregister_update_callback (Collection_update rt) rt)
          else rt
      | None => rt
      end
  | Function _ => rt
  end.

(** [instrumented] *)
Definition instrumented rt : bool :=
  let is_Wrapper meth :=
    match meth with
    | Instance ref => bool_decide (is_Some (heap rt !! ref))
    | Function _ => false
    end in
  is_Wrapper (Collection_update rt) || is_Wrapper (Collection_find rt).

(** [start] without a configuration, and [stop]. *)
Definition start rt : runtime float :=
  snd (UpdateWrapper_wrap (snd (FindWrapper_wrap rt))).

Definition stop rt : result (runtime float) :=
  FindWrapper_unwrap (UpdateWrapper_unwrap rt).

(** Identities are handed out in order: nothing lives at or above
    [next_ref]. *)
Definition fresh_refs rt : Prop := ∀ ref, next_ref rt ≤ ref → heap rt !! ref = None.

(** An element of [_cursor_wrappers] as [wrap] leaves it: an instance of
    one of the cursor classes. *)
Definition cursor_instance (h : gmap nat (wrapper float)) (cursor_wrapper : callable) : Prop :=
  ∃ ref w name,
    cursor_wrapper = Instance ref ∧ h !! ref = Some w ∧ class_ w = _CursorMethodWrapper name.

(** Objects keep their class and the function they wrap. *)
Definition keeps_objects (h h' : gmap nat (wrapper float)) : Prop :=
  ∀ ref w, h !! ref = Some w →
    ∃ w', h' !! ref = Some w' ∧ class_ w' = class_ w ∧ _func w' = _func w.

(** The driver before any interceptor is installed. *)
Definition pristine (cfg : config float) : runtime float :=
  {| Collection_find := Function "find"; Collection_update := Function "update";
     Cursor := fun m => match m with
                        | next => Function "next"
                        | count => Function "count"
                        | distinct => Function "distinct"
                        end;
     heap := ∅; next_ref := 0; get_config := cfg; update_callbacks := [] |}.

(** [Wrapper._configure] on the interceptor of identity [ref]. *)
Definition _configure (ref : nat) (cfg : config float) rt : runtime float :=
  {| Collection_find := Collection_find rt; Collection_update := Collection_update rt;
     Cursor := Cursor rt;
     heap := alter (fun w => {| class_ := class_ w; _func := _func w;
                                _frequency := sample_frequency cfg;
                                _filter_packages := filter_packages cfg;
                                _cursor_wrappers := _cursor_wrappers w |}) ref (heap rt);
     next_ref := next_ref rt; get_config := get_config rt;
     update_callbacks := update_callbacks rt |}.

(** Modelled from the spec: [update] and [configure] of
    [mongodrums/config.py], which is not among the sources, make the new
    configuration the active one and then call every registered
    callback with it. *)
Definition notify (cfg : config float) rt : runtime float :=
  fold_left (fun rt' ref => _configure ref cfg rt') (update_callbacks rt)
    {| Collection_find := Collection_find rt; Collection_update := Collection_update rt;
       Cursor := Cursor rt; heap := heap rt; next_ref := next_ref rt;
       get_config := cfg; update_callbacks := update_callbacks rt |}.

(** [cls.wrap()] and [cls.unwrap()], by class. *)
Definition wrap cls rt : runtime float :=
  match cls with
  | FindWrapper => snd (FindWrapper_wrap rt)
  | UpdateWrapper => snd (UpdateWrapper_wrap rt)
  | _CursorMethodWrapper name => snd (_CursorMethodWrapper_wrap name rt)
  end.

Definition unwrap cls rt : result (runtime float) :=
  match cls with
  | FindWrapper => FindWrapper_unwrap rt
  | UpdateWrapper => Ok (UpdateWrapper_unwrap rt)
  | _CursorMethodWrapper name => Ok (_CursorMethodWrapper_unwrap name rt)
  end.

(** A generator-based context manager around [enter] and [leave]:
    [enter(); try: yield finally: leave()].  The body of the [with]
    statement runs at the [yield]; whether it returns or raises,
    [leave] runs.  The statement then ends as the body did, with the
    state [leave] has left; an exception of [leave] takes the place of
    the body's outcome. *)
Definition contextmanager {A : Type} (enter : runtime float -> runtime float)
  (leave : runtime float -> result (runtime float))
  (body : runtime float -> result A * runtime float) rt
  : result (result A * runtime float) :=
  let '(r, rt') := body (enter rt) in
  rt'' ← leave rt';
  Ok (r, rt'').

(** [Wrapper.instrument] *)
Definition Wrapper_instrument {A : Type} cls
  (body : runtime float -> result A * runtime float) rt
  : result (result A * runtime float) :=
  contextmanager (wrap cls) (unwrap cls) body rt.

(** The attribute of the driver that the class [cls] replaces. *)
Definition target cls rt : callable :=
  match cls with
  | FindWrapper => Collection_find rt
  | UpdateWrapper => Collection_update rt
  | _CursorMethodWrapper name => Cursor rt name
  end.

(** The driver is as [rt] has it: the five attributes and the
    notification list. *)
Definition same_driver rt (rt' : runtime float) : Prop :=
  Collection_find rt' = Collection_find rt
  ∧ Collection_update rt' = Collection_update rt
  ∧ (∀ m, Cursor rt' m = Cursor rt m)
  ∧ update_callbacks rt' = update_callbacks rt.

(** No interceptor is installed: the five attributes are functions of
    the driver, and the registered callbacks belong to objects that
    exist. *)
Definition plain_driver rt : Prop :=
  (∃ name, Collection_find rt = Function name)
  ∧ (∃ name, Collection_update rt = Function name)
  ∧ (∀ m, ∃ name, Cursor rt m = Function name)
  ∧ Forall (fun ref => ref < next_ref rt) (update_callbacks rt).

(** What a body that installs and removes nothing leaves of [rt]: the
    five attributes and the list of callbacks are as they were, and
    every interceptor object is still there with its class, the
    function it wraps and its cursor interceptors.  The configuration,
    the sample frequency and the package filter of the objects, and
    objects made since, are free. *)
Definition keeps_installation rt (rt' : runtime float) : Prop :=
  same_driver rt rt'
  ∧ ∀ ref w, heap rt !! ref = Some w →
      ∃ w', heap rt' !! ref = Some w'
            ∧ class_ w' = class_ w ∧ _func w' = _func w
            ∧ _cursor_wrappers w' = _cursor_wrappers w.

(** [instrument] without a configuration. *)
Definition instrument {A : Type} (body : runtime float -> result A * runtime float) rt
  : result (result A * runtime float) :=
  contextmanager start stop body rt.

End install.

(** *** Intercepted calls *)

(** A cursor, as far as an interceptor looks at it: its identity and
    [self_.collection.name], [self_.collection.database.name]. *)
Record cursor : Type := {
  cursor_id : nat;
  cursor_collection : string;
  cursor_database : string
}.

(** A collection: [self_.name], [self_.database.name]. *)
Record collection : Type := {
  collection_name : string;
  collection_database : string
}.

(** The event handed to [push]. *)
Record profile_event : Type := {
  ev_type : string;
  ev_function : string;
  ev_database : string;
  ev_collection : string;
  ev_query : string;
  ev_explain : Util.obj;
  ev_source : string
}.

(** [except (TypeError, OperationFailure)]; DuplicateKeyError derives
    from OperationFailure. *)
Definition is_TypeError_or_OperationFailure (e : exception) : bool :=
  match e with
  | TypeError | OperationFailure | DuplicateKeyError => true
  | _ => false
  end.

(** [except Exception] *)
Definition is_Exception (e : exception) : bool :=
  match e with
  | BaseOnly _ => false
  | _ => true
  end.

Section calls.
(** [Env] is the world outside the engine (server, network, random
    generator), [R] what the driver's operations return. *)
Context {Env R float : Type}.

(** The engine's own state: the tracked-cursor set [_ids], the calls of
    [push] made so far with the cursor each was made for, the log, and
    the world outside. *)
Record state : Type := {
  _ids : gset nat;
  pushes : list (option nat * profile_event);
  logged : list string;
  env : Env
}.

(** A computation on that state which returns or raises. *)
Definition M (A : Type) : Type := state -> result A * state.

Definition ret {A : Type} (a : A) : M A := fun st => (Ok a, st).

Definition bind {A B : Type} (m : M A) (k : A -> M B) : M B :=
  fun st =>
    match m st with
    | (Ok a, st') => k a st'
    | (Raise e, st') => (Raise e, st')
    end.

Notation "x <- m ;; k" := (bind m (fun x => k))
  (at level 100, m at next level, right associativity).
Notation "m ;;; k" := (bind m (fun _ => k))
  (at level 100, right associativity).

(** [try: body except <caught>: handler] *)
Definition try_except {A : Type} (body : M A) (caught : exception -> bool)
  (handler : exception -> M A) : M A :=
  fun st =>
    match body st with
    | (Raise e, st') => if caught e then handler e st' else (Raise e, st')
    | ok => ok
    end.

(** A call into the world outside. *)
Definition outside {A : Type} (f : Env -> result A * Env) : M A :=
  fun st =>
    let '(r, env') := f (env st) in
    (r, {| _ids := _ids st; pushes := pushes st; logged := logged st; env := env' |}).

(** A call that touches no state. *)
Definition pure {A : Type} (r : result A) : M A := fun st => (r, st).

(** [logging.exception(msg)] *)
Definition logging_exception (msg : string) : M unit :=
  fun st =>
    (Ok tt, {| _ids := _ids st; pushes := pushes st; logged := logged st ++ [msg];
               env := env st |}).

(** An interceptor object as a call sees it: [self._func],
    [self._frequency], [self._filter_packages]. *)
Record interceptor (receiver : Type) : Type := {
  func : receiver -> list Util.obj -> list (string * Util.obj) -> Env -> result R * Env;
  frequency : float;
  packages : option (list string)
}.
Global Arguments func {receiver} _.
Global Arguments frequency {receiver} _.
Global Arguments packages {receiver} _.

(** What the engine calls: [Cursor.explain], [pusher.push],
    [bson.json_util.dumps], [traceback.format_exc], [inspect.stack],
    [self_.find] (through whatever is installed on the collection) and
    the test [random.random() < frequency]. *)
Variable explain : cursor -> Env -> result Util.obj * Env.
Variable push : profile_event -> Env -> result unit * Env.
Variable dumps : Util.obj -> result string.
Variable format_exc : exception -> string.
Variable stack : list Util.frame_record.
Variable find : collection -> Util.obj -> M cursor.
Variable random_below : float -> Env -> bool * Env.

(** [_CursorMethodWrapper.track_cursor] *)
Definition track_cursor (curs : cursor) : M unit :=
  fun st =>
    (Ok tt, {| _ids := {[cursor_id curs]} ∪ _ids st; pushes := pushes st;
               logged := logged st; env := env st |}).

(** [self_ in cls._ids], under the lock. *)
Definition is_tracked (self_ : cursor) : M bool :=
  fun st => (Ok (bool_decide (cursor_id self_ ∈ _ids st)), st).

(** [cls._ids.discard(self_)] *)
Definition discarded (self_ : cursor) (st : state) : state :=
  {| _ids := _ids st ∖ {[cursor_id self_]}; pushes := pushes st; logged := logged st;
     env := env st |}.

(** [assert(self_ in cls._ids); cls._ids.discard(self_)], under the
    lock. *)
Definition assert_and_discard (self_ : cursor) : M unit :=
  fun st =>
    if bool_decide (cursor_id self_ ∈ _ids st)
    then (Ok tt, discarded self_ st)
    else (Raise AssertionError, st).

(** [push(event)], the call being put on record for the cursor it is
    made for. *)
Definition push_for (curs : option nat) (event : profile_event) : M unit :=
  fun st =>
    outside (push event)
      {| _ids := _ids st; pushes := pushes st ++ [(curs, event)]; logged := logged st;
         env := env st |}.

(** [{'error': traceback.format_exc()}] *)
Definition error_document (e : exception) : Util.obj :=
  Util.PyDict [("error", Util.Scalar S_str (format_exc e))].

(** The plan of a cursor, or the error document. *)
Definition explain_or_error (curs : cursor) : M Util.obj :=
  try_except (outside (explain curs)) is_TypeError_or_OperationFailure
    (fun e =>
       let explain := error_document e in
       logging_exception "error trying to run explain on curs" ;;;
       ret explain).

(** [args[0] if len(args) > 0 else {}] *)
Definition first_or_empty (args : list Util.obj) : Util.obj :=
  match args with
  | spec :: _ => spec
  | [] => Util.PyDict []
  end.

(** The second [try] of both profiling blocks: the event is built, its
    values in the order of the dict display, and pushed; an exception
    derived from Exception is logged with [message]. *)
Definition build_and_push (self_packages : option (list string)) (on_behalf : option nat)
  (function_ database_ collection_ : string) (spec plan : Util.obj) (message : string)
  : M unit :=
  try_except
    (query <- pure (dumps spec) ;;
     source <- pure (Util.get_source stack self_packages 2) ;;
     push_for on_behalf
       {| ev_type := "explain"; ev_function := function_;
          ev_database := database_; ev_collection := collection_;
          ev_query := query; ev_explain := plan; ev_source := source |})
    is_Exception
    (fun _ => logging_exception message).

(** The body of [if tracking:] in [_CursorMethodWrapper.__call__]. *)
Definition profile_find (self : interceptor cursor) (self_ : cursor)
  (args : list Util.obj) : M unit :=
  assert_and_discard self_ ;;;
  plan <- explain_or_error self_ ;;
  build_and_push (packages self) (Some (cursor_id self_)) "find"
    (cursor_database self_) (cursor_collection self_) (first_or_empty args) plan
    "exception pushing explain data for find".

(** [_CursorMethodWrapper.__call__] from [if tracking:] on. *)
Definition resume (self : interceptor cursor) (self_ : cursor)
  (args : list Util.obj) (kwargs : list (string * Util.obj)) (tracking : bool) : M R :=
  (if tracking then profile_find self self_ args else ret tt) ;;;
  outside (func self self_ args kwargs).

(** [_CursorMethodWrapper.__call__]: the membership test under the
    lock, then the rest. *)
Definition _CursorMethodWrapper_call (self : interceptor cursor) (self_ : cursor)
  (args : list Util.obj) (kwargs : list (string * Util.obj)) : M R :=
  tracking <- is_tracked self_ ;;
  resume self self_ args kwargs tracking.

(** [FindWrapper.__call__]; here [self._func] returns the cursor. *)
Definition FindWrapper_call
  (self_func : collection -> list Util.obj -> list (string * Util.obj) -> Env
               -> result cursor * Env)
  (self_frequency : float) (self_cursor_wrappers : option (list callable))
  (self_ : collection) (args : list Util.obj) (kwargs : list (string * Util.obj))
  : M cursor :=
  curs <- outside (self_func self_ args kwargs) ;;
  sampled <- outside (fun e => let '(b, e') := random_below self_frequency e in (Ok b, e')) ;;
  (if sampled
   then (match self_cursor_wrappers with
         | Some _ => ret tt
         | None => pure (Raise AssertionError)
         end) ;;;
        track_cursor curs
   else ret tt) ;;;
  ret curs.

(** The body of the [if] in [UpdateWrapper.__call__]. *)
Definition profile_update (self : interceptor collection) (self_ : collection)
  (args : list Util.obj) : M unit :=
  spec <- pure (match args with
                | spec :: _ => Ok spec
                | [] => Raise IndexError
                end) ;;
  curs <- find self_ spec ;;
  plan <- explain_or_error curs ;;
  build_and_push (packages self) None "update"
    (collection_database self_) (collection_name self_) spec plan
    "exception pushing explain data for update".

(** [UpdateWrapper.__call__] *)
Definition UpdateWrapper_call (self : interceptor collection) (self_ : collection)
  (args : list Util.obj) (kwargs : list (string * Util.obj)) : M R :=
  sampled <- outside (fun e => let '(b, e') := random_below (frequency self) e in (Ok b, e')) ;;
  (if sampled then profile_update self self_ args else ret tt) ;;;
  outside (func self self_ args kwargs).

(** What an application does with cursors: it has one tracked, or it
    calls a terminal operation through the installed interceptor.  An
    exception of the call goes to the application, which goes on. *)
Inductive action : Type :=
| Track (curs : cursor)
| Terminal (self : interceptor cursor) (self_ : cursor) (args : list Util.obj)
    (kwargs : list (string * Util.obj)).

Definition perform (a : action) (st : state) : state :=
  match a with
  | Track curs => snd (track_cursor curs st)
  | Terminal self self_ args kwargs => snd (_CursorMethodWrapper_call self self_ args kwargs st)
  end.

Definition run (actions : list action) (st : state) : state :=
  fold_left (fun st a => perform a st) actions st.

(** Threads.  A thread that calls a terminal operation takes the lock
    twice: once to read [tracking], once to assert and discard; another
    thread may run in between.  What follows the second lock touches
    neither the tracked set nor the pushes of other cursors, and is
    taken in one step with it. *)
Inductive thread : Type :=
| Calling (self : interceptor cursor) (self_ : cursor) (args : list Util.obj)
    (kwargs : list (string * Util.obj))
| Observed (self : interceptor cursor) (self_ : cursor) (args : list Util.obj)
    (kwargs : list (string * Util.obj)) (tracking : bool)
| Returned.

Definition step_thread (t : thread) (st : state) : thread * state :=
  match t with
  | Calling self self_ args kwargs =>
      (Observed self self_ args kwargs (bool_decide (cursor_id self_ ∈ _ids st)), st)
  | Observed self self_ args kwargs tracking =>
      (Returned, snd (resume self self_ args kwargs tracking st))
  | Returned => (Returned, st)
  end.

(** The threads run in the order the scheduler picks them. *)
Fixpoint interleave_threads (order : list nat) (threads : list thread) (st : state) : state :=
  match order with
  | [] => st
  | i :: order' =>
      match threads !! i with
      | Some t =>
          let '(t', st') := step_thread t st in
          interleave_threads order' (<[i := t']> threads) st'
      | None => interleave_threads order' threads st
      end
  end.

(** The number of [push] calls made for the cursor of identity [c]. *)
Definition pushes_for (c : nat) (st : state) : nat :=
  length (List.filter (fun p => bool_decide (fst p = Some c)) (pushes st)).

(** The tracked set and the record of pushes are as before. *)
Definition same_engine (st st' : state) : Prop :=
  _ids st' = _ids st ∧ pushes st' = pushes st.

(** An action that does not track the cursor of identity [c]. *)
Definition does_not_track (c : nat) (a : action) : Prop :=
  match a with
  | Track curs => cursor_id curs ≠ c
  | Terminal _ _ _ _ => True
  end.

End calls.

(** *** What an intercepted call does *)

Section call_facts.
Context {Env R float : Type}.
Variable explain : cursor -> Env -> result Util.obj * Env.
Variable push : profile_event -> Env -> result unit * Env.
Variable dumps : Util.obj -> result string.
Variable format_exc : exception -> string.
Variable stack : list Util.frame_record.
Variable find : collection -> Util.obj -> M (Env := Env) cursor.
Variable random_below : float -> Env -> bool * Env.

Implicit Types (st : state (Env := Env)).

Lemma outside_same {A : Type} (f : Env -> result A * Env) st :
  same_engine st (snd (outside f st)).
Proof. unfold outside. by destruct (f (env st)). Qed.

Lemma explain_or_error_same (curs : cursor) st :
  same_engine st (snd (explain_or_error explain format_exc curs st)).
Proof.
  unfold explain_or_error, try_except, outside.
  destruct (explain curs (env st)) as [[plan|e] env']; [done|].
  by destruct (is_TypeError_or_OperationFailure e).
Qed.


Lemma get_source_Exception (pkgs : option (list string)) (up : nat) (e : exception) :
  Util.get_source stack pkgs up = Raise e → is_Exception e = true.
Proof.
  unfold Util.get_source. destruct (stack !! up) as [frame|]; [|by intros [= <-]].
  destruct pkgs as [pkgs|]; simpl; [|done].
  destruct (List.filter _ _); simpl; [by intros [= <-]|done].
Qed.

Lemma build_and_push_effect (pkgs : option (list string)) (on_behalf : option nat)
  (fn db coll : string) (spec plan : Util.obj) (msg : string) st :
  _ids (snd (build_and_push push dumps stack pkgs on_behalf fn db coll spec plan msg st)) = _ids st
  ∧ (pushes (snd (build_and_push push dumps stack pkgs on_behalf fn db coll spec plan msg st)) = pushes st
     ∨ ∃ event, pushes (snd (build_and_push push dumps stack pkgs on_behalf fn db coll spec plan msg st))
                = pushes st ++ [(on_behalf, event)]).
Proof.
  unfold build_and_push, try_except, bind, pure, push_for, outside, logging_exception.
  destruct (dumps spec) as [query|e]; simpl.
  - destruct (Util.get_source stack pkgs 2) as [source|e]; simpl.
    + destruct (push _ (env st)) as [[[]|e] env']; simpl; [by eauto|].
      destruct (is_Exception e); simpl; eauto.
    + destruct (is_Exception e); simpl; eauto.
  - destruct (is_Exception e); simpl; eauto.
Qed.


(** With [dumps] and [push] raising nothing but exceptions derived from
    Exception, the guarded part returns. *)
Lemma build_and_push_returns (pkgs : option (list string)) (on_behalf : option nat)
  (fn db coll : string) (spec plan : Util.obj) (msg : string) st :
  (∀ o e, dumps o = Raise e → is_Exception e = true) →
  (∀ event env0 e, fst (push event env0) = Raise e → is_Exception e = true) →
  fst (build_and_push push dumps stack pkgs on_behalf fn db coll spec plan msg st) = Ok tt.
Proof.
  intros Hdumps Hpush.
  unfold build_and_push, try_except, bind, pure, push_for, outside, logging_exception.
  destruct (dumps spec) as [query|e] eqn:Hq; simpl.
  - destruct (Util.get_source stack pkgs 2) as [source|e] eqn:Hs; simpl.
    + match goal with |- context [push ?ev ?en] => pose proof (Hpush ev en) as Hp end.
      destruct (push _ (env st)) as [[[]|e] env']; simpl in *; [done|].
      by rewrite (Hp e eq_refl).
    + by rewrite (get_source_Exception _ _ _ Hs).
  - by rewrite (Hdumps _ _ Hq).
Qed.

Lemma cursor_call_untracked (self : interceptor cursor) (self_ : cursor)
  (args : list Util.obj) (kwargs : list (string * Util.obj)) st :
  cursor_id self_ ∉ _ids st →
  _CursorMethodWrapper_call (R := R) (float := float)
    explain push dumps format_exc stack self self_ args kwargs st
  = outside (func self self_ args kwargs) st.
Proof.
  intros Hnot. unfold _CursorMethodWrapper_call, resume, bind, is_tracked, ret.
  by rewrite bool_decide_eq_false_2.
Qed.

Lemma cursor_call_tracked (self : interceptor cursor) (self_ : cursor)
  (args : list Util.obj) (kwargs : list (string * Util.obj)) st :
  cursor_id self_ ∈ _ids st →
  _CursorMethodWrapper_call (R := R) (float := float)
    explain push dumps format_exc stack self self_ args kwargs st
  = match explain_or_error explain format_exc self_ (discarded self_ st) with
    | (Ok plan, st2) =>
        match build_and_push push dumps stack (packages self) (Some (cursor_id self_)) "find"
                (cursor_database self_) (cursor_collection self_) (first_or_empty args)
                plan "exception pushing explain data for find" st2 with
        | (Ok _, st3) => outside (func self self_ args kwargs) st3
        | (Raise e, st3) => (Raise e, st3)
        end
    | (Raise e, st2) => (Raise e, st2)
    end.
Proof.
  intros Hin. unfold _CursorMethodWrapper_call, resume, profile_find.
  unfold bind, is_tracked, assert_and_discard.
  rewrite !bool_decide_eq_true_2 by done.
  destruct (explain_or_error explain format_exc self_ _) as [[plan|e] st2]; [|done].
  by destruct (build_and_push _ _ _ _ _ _ _ _ _ _ _ st2) as [[[]|e] st3].
Qed.

(** The effect of a terminal call on the tracked set and on the record
    of pushes. *)
Lemma cursor_call_effect (self : interceptor cursor) (self_ : cursor)
  (args : list Util.obj) (kwargs : list (string * Util.obj)) st st' :
  st' = snd (_CursorMethodWrapper_call (R := R) (float := float)
               explain push dumps format_exc stack self self_ args kwargs st) →
  (cursor_id self_ ∉ _ids st → same_engine st st')
  ∧ (cursor_id self_ ∈ _ids st →
     _ids st' = _ids st ∖ {[cursor_id self_]}
     ∧ (pushes st' = pushes st
        ∨ ∃ event, pushes st' = pushes st ++ [(Some (cursor_id self_), event)])).
Proof.
  intros ->. split.
  - intros Hnot. rewrite cursor_call_untracked by done. apply outside_same.
  - intros Hin. rewrite cursor_call_tracked by done.
    pose proof (explain_or_error_same self_ (discarded self_ st)) as [Hids2 Hpushes2].
    destruct (explain_or_error explain format_exc self_ _) as [[plan|e] st2];
      simpl in Hids2, Hpushes2; [|simpl; split; [congruence|left; congruence]].
    pose proof (build_and_push_effect (packages self) (Some (cursor_id self_)) "find"
                  (cursor_database self_) (cursor_collection self_) (first_or_empty args)
                  plan "exception pushing explain data for find" st2) as [Hids3 Hpushes3].
    destruct (build_and_push _ _ _ _ _ _ _ _ _ _ _ st2) as [[[]|e] st3]; simpl in Hids3, Hpushes3.
    + pose proof (outside_same (func self self_ args kwargs) st3) as [Hids4 Hpushes4].
      split; [congruence|].
      destruct Hpushes3 as [Hp|[event Hp]]; [left; congruence|right; exists event; congruence].
    + simpl. split; [congruence|].
      destruct Hpushes3 as [Hp|[event Hp]]; [left; congruence|right; exists event; congruence].
Qed.

Lemma tracked_after_add (c c' : nat) (ids : gset nat) :
  c ∈ {[c']} ∪ ids ↔ c = c' ∨ c ∈ ids.
Proof. by rewrite elem_of_union, elem_of_singleton. Qed.

Lemma tracked_after_discard (c c' : nat) (ids : gset nat) :
  c ∈ ids ∖ {[c']} ↔ c ∈ ids ∧ c ≠ c'.
Proof. by rewrite elem_of_difference, elem_of_singleton. Qed.

Lemma pushes_for_same (c : nat) st st' : pushes st' = pushes st → pushes_for c st' = pushes_for c st.
Proof. unfold pushes_for. by intros ->. Qed.

Lemma pushes_for_app (c : nat) (on_behalf : option nat) (event : profile_event) st st' :
  pushes st' = pushes st ++ [(on_behalf, event)] →
  pushes_for c st' = pushes_for c st + (if bool_decide (on_behalf = Some c) then 1 else 0).
Proof.
  unfold pushes_for. intros ->. rewrite List.filter_app, length_app. simpl.
  by destruct (bool_decide (on_behalf = Some c)).
Qed.

(** An action that does not track [c] keeps [c] untracked and pushes
    nothing for it once it is untracked. *)
Lemma perform_untracked (c : nat) (a : action) st :
  does_not_track c a →
  c ∉ _ids st →
  (c ∉ _ids (perform explain push dumps format_exc stack a st))
  ∧ pushes_for c (perform (R := R) (float := float) explain push dumps format_exc stack a st)
    = pushes_for c st.
Proof.
  intros Hnot Hc. destruct a as [curs|self self_ args kwargs]; simpl in *.
  - split; [|done]. rewrite tracked_after_add. intros [?|?]; congruence.
  - pose proof (cursor_call_effect self self_ args kwargs st _ eq_refl) as [Huntracked Htracked].
    simpl in *. destruct (decide (cursor_id self_ ∈ _ids st)) as [Hin|Hnotin].
    + destruct (Htracked Hin) as [Hids Hpushes].
      split; [rewrite Hids, tracked_after_discard; by intros [? _]|].
      destruct Hpushes as [Hp|[event Hp]]; [by apply pushes_for_same|].
      rewrite (pushes_for_app _ _ _ _ _ Hp).
      rewrite bool_decide_eq_false_2; [lia|]. intros [= <-]. done.
    + destruct (Huntracked Hnotin) as [Hids Hpushes].
      split; [by rewrite Hids|by apply pushes_for_same].
Qed.


(** An action pushes at most once for [c], and only by untracking it. *)
Lemma perform_tracked (c : nat) (a : action) st :
  c ∈ _ids st →
  (c ∈ _ids (perform explain push dumps format_exc stack a st)
   ∧ pushes_for c (perform (R := R) (float := float) explain push dumps format_exc stack a st)
     = pushes_for c st)
  ∨ ((c ∉ _ids (perform explain push dumps format_exc stack a st))
     ∧ pushes_for c (perform (R := R) (float := float) explain push dumps format_exc stack a st)
       ≤ pushes_for c st + 1).
Proof.
  intros Hc. destruct a as [curs|self self_ args kwargs]; simpl.
  - left. split; [|done]. rewrite tracked_after_add. by right.
  - pose proof (cursor_call_effect self self_ args kwargs st _ eq_refl) as [Huntracked Htracked].
    simpl in *. destruct (decide (cursor_id self_ ∈ _ids st)) as [Hin|Hnotin].
    + destruct (Htracked Hin) as [Hids Hpushes].
      destruct (decide (cursor_id self_ = c)) as [Heq|Hne].
      * right. split; [rewrite Hids, tracked_after_discard; by intros [_ ?]|].
        destruct Hpushes as [Hp|[event Hp]]; [rewrite (pushes_for_same _ _ _ Hp); lia|].
        rewrite (pushes_for_app _ _ _ _ _ Hp). destruct (bool_decide _); lia.
      * left. split; [rewrite Hids, tracked_after_discard; by split|].
        destruct Hpushes as [Hp|[event Hp]]; [by apply pushes_for_same|].
        rewrite (pushes_for_app _ _ _ _ _ Hp).
        rewrite bool_decide_eq_false_2; [lia|]. intros [= ?]. done.
    + destruct (Huntracked Hnotin) as [Hids Hpushes].
      left. split; [by rewrite Hids|by apply pushes_for_same].
Qed.


(** The rest of a call whose [tracking] was read earlier: when the
    cursor has been discarded in between, the assertion fails and
    nothing is pushed. *)
Lemma resume_effect (c : nat) (self : interceptor cursor) (self_ : cursor)
  (args : list Util.obj) (kwargs : list (string * Util.obj)) (tracking : bool) st st' :
  st' = snd (resume (R := R) (float := float) explain push dumps format_exc stack
               self self_ args kwargs tracking st) →
  (c ∉ _ids st → (c ∉ _ids st') ∧ pushes_for c st' = pushes_for c st)
  ∧ (c ∈ _ids st →
     (c ∈ _ids st' ∧ pushes_for c st' = pushes_for c st)
     ∨ ((c ∉ _ids st') ∧ pushes_for c st' ≤ pushes_for c st + 1)).
Proof.
  intros ->.
  assert (same_engine st (snd (resume (R := R) (float := float) explain push dumps format_exc
                                 stack self self_ args kwargs tracking st))
          ∨ snd (resume explain push dumps format_exc stack self self_ args kwargs tracking st)
            = snd (_CursorMethodWrapper_call (R := R) (float := float) explain push dumps
                     format_exc stack self self_ args kwargs st)) as [[Hids Hpushes]|Hcall].
  { destruct tracking.
    - destruct (decide (cursor_id self_ ∈ _ids st)) as [Hin|Hnotin].
      + right. unfold _CursorMethodWrapper_call, bind, is_tracked.
        by rewrite bool_decide_eq_true_2.
      + left. unfold resume, profile_find, bind, assert_and_discard.
        by rewrite bool_decide_eq_false_2.
    - left. unfold resume, bind, ret. apply outside_same. }
  - rewrite Hids, (pushes_for_same _ _ _ Hpushes). split; [done|]. intros Hc. by left.
  - rewrite Hcall. split.
    + intros Hc. apply (perform_untracked c (Terminal self self_ args kwargs) st I Hc).
    + intros Hc. apply (perform_tracked c (Terminal self self_ args kwargs) st Hc).
Qed.

Lemma interleave_untracked (c : nat) (order : list nat) (threads : list thread) st :
  c ∉ _ids st →
  pushes_for c (interleave_threads (R := R) (float := float) explain push dumps format_exc
                  stack order threads st)
  = pushes_for c st.
Proof.
  revert threads st. induction order as [|i order IH]; intros threads st Hc; simpl; [done|].
  destruct (threads !! i) as [[self self_ args kwargs|self self_ args kwargs tracking|]|];
    simpl; try by apply IH.
  destruct (resume_effect c self self_ args kwargs tracking st _ eq_refl) as [Hun _].
  destruct (Hun Hc) as [Hc' Hp']. rewrite IH by done. done.
Qed.

(** The guarantee does not rest on the two locked steps being one: in
    every interleaving of threads calling terminal operations, at most
    one event is pushed for a tracked cursor. *)
Lemma at_most_one_event_interleaved (c : nat) (order : list nat) (threads : list thread) st :
  c ∈ _ids st →
  pushes_for c (interleave_threads (R := R) (float := float) explain push dumps format_exc
                  stack order threads st)
  ≤ pushes_for c st + 1.
Proof.
  revert threads st. induction order as [|i order IH]; intros threads st Hc; simpl; [lia|].
  destruct (threads !! i) as [[self self_ args kwargs|self self_ args kwargs tracking|]|];
    simpl; try by apply IH.
  destruct (resume_effect c self self_ args kwargs tracking st _ eq_refl) as [_ Htr].
  destruct (Htr Hc) as [[Hc' Hp']|[Hc' Hp']].
  - rewrite <- Hp'. by apply IH.
  - rewrite interleave_untracked by done. done.
Qed.


End call_facts.

(** *** A run of the test suite's world *)

(** A world as in [test_explain_type_error]: no state outside, [explain]
    raises TypeError, [push] fails on the network, the driver's
    operation returns 7. *)
Definition explain_TypeError (curs : cursor) (e : unit) : result Util.obj * unit :=
  (Raise TypeError, e).


Definition push_fails (event : profile_event) (e : unit) : result unit * unit :=
  (Raise (OtherException "socket.error"), e).

Definition push_ok (event : profile_event) (e : unit) : result unit * unit := (Ok tt, e).

Definition dumps_braces (o : Util.obj) : result string := Ok "{}".

Definition format_exc_text (e : exception) : string := "Traceback (most recent call last)".

Definition test_stack : list Util.frame_record :=
  [Util.frame_in "mongodrums.util" "util/__init__.py" 134;
   Util.frame_in "mongodrums" "instrument.py" 106;
   Util.frame_in "tests" "test_instrument.py" 58].

Definition a_cursor (id : nat) : cursor :=
  {| cursor_id := id; cursor_collection := "foo"; cursor_database := "test" |}.

Definition foo : collection := {| collection_name := "foo"; collection_database := "test" |}.

Definition find_returns (self_ : collection) (spec : Util.obj)
  : M (Env := unit) cursor :=
  fun st => (Ok (a_cursor 2), st).

Definition always_sampled (f : unit) (e : unit) : bool * unit := (true, e).

Definition returns_7 {receiver : Type} : interceptor (Env := unit) (R := nat) (float := unit) receiver :=
  {| func := fun _ _ _ e => (Ok 7, e); frequency := tt; packages := Some ["mongodrums"] |}.

Definition tracking (ids : gset nat) : state (Env := unit) :=
  {| _ids := ids; pushes := []; logged := []; env := tt |}.


(** A sampled [update] whose query is passed by keyword fails on
    [args[0]], outside any handler. *)
Example update_by_keyword :
  fst (UpdateWrapper_call explain_TypeError push_ok dumps_braces format_exc_text test_stack
         find_returns always_sampled returns_7 foo []
         [("spec", Util.PyDict []); ("document", Util.PyDict [])] (tracking ∅))
  = Raise IndexError.
Proof. reflexivity. Qed.

Definition tracked_then_iterated : list (action (Env := unit) (R := nat) (float := unit)) :=
  [Terminal returns_7 (a_cursor 1) [] [];
   Track (a_cursor 2);
   Terminal returns_7 (a_cursor 1) [] [];
   Terminal returns_7 (a_cursor 1) [] [];
   Terminal returns_7 (a_cursor 2) [] []].


Example one_event_for_each :
  pushes_for 1
    (run explain_TypeError push_ok dumps_braces format_exc_text test_stack
       tracked_then_iterated (snd (track_cursor (a_cursor 1) (tracking ∅)))) = 1
  ∧ pushes_for 2
      (run explain_TypeError push_ok dumps_braces format_exc_text test_stack
         tracked_then_iterated (snd (track_cursor (a_cursor 1) (tracking ∅)))) = 1.
Proof. split; vm_compute; reflexivity. Qed.

(** Two threads iterate one tracked cursor and both read [tracking] as
    true before either takes the lock again: one event is pushed, and
    the assertion of the second thread fails. *)
Example second_observer_fails_assertion :
  pushes_for 1
    (interleave_threads explain_TypeError push_ok dumps_braces format_exc_text test_stack
       [0; 1; 0; 1]
       [Calling returns_7 (a_cursor 1) [] []; Calling returns_7 (a_cursor 1) [] []]
       (tracking {[1]})) = 1
  ∧ fst (resume explain_TypeError push_ok dumps_braces format_exc_text test_stack
           returns_7 (a_cursor 1) [] [] true (tracking ∅))
    = Raise AssertionError.
Proof. split; vm_compute; reflexivity. Qed.

(** *** The event of a sampled call *)

Section call_events.
Context {Env R float : Type}.
Variable explain : cursor -> Env -> result Util.obj * Env.
Variable push : profile_event -> Env -> result unit * Env.
Variable dumps : Util.obj -> result string.
Variable format_exc : exception -> string.
Variable stack : list Util.frame_record.
Variable find : collection -> Util.obj -> M (Env := Env) cursor.
Variable random_below : float -> Env -> bool * Env.

Implicit Types (st : state (Env := Env)).

(** The state with the world outside replaced. *)
Definition with_env st (env' : Env) : state :=
  {| _ids := _ids st; pushes := pushes st; logged := logged st; env := env' |}.

(** The plan an event carries: the one [explain] returned, or the error
    document. *)
Definition plan_of (r : result Util.obj) : Util.obj :=
  match r with
  | Ok plan => plan
  | Raise e => error_document format_exc e
  end.

(** What is logged when the plan is retrieved and when the event is
    pushed. *)
Definition explain_log (r : result Util.obj) : list string :=
  match r with
  | Ok _ => []
  | Raise _ => ["error trying to run explain on curs"]
  end.

Definition push_log (r : result unit) (message : string) : list string :=
  match r with
  | Ok _ => []
  | Raise e => if is_Exception e then [message] else []
  end.

Lemma explain_or_error_caught (curs : cursor) st (r : result Util.obj) (env1 : Env) :
  explain curs (env st) = (r, env1) →
  (∀ e, r = Raise e → is_TypeError_or_OperationFailure e = true) →
  explain_or_error explain format_exc curs st
  = (Ok (plan_of r),
     {| _ids := _ids st; pushes := pushes st; logged := logged st ++ explain_log r;
        env := env1 |}).
Proof.
  intros Hexplain Hcaught. unfold explain_or_error, try_except, outside. rewrite Hexplain.
  destruct r as [plan|e]; simpl.
  - by rewrite app_nil_r.
  - by rewrite (Hcaught e eq_refl).
Qed.

Lemma build_and_push_event (pkgs : option (list string)) (on_behalf : option nat)
  (fn db coll : string) (spec plan : Util.obj) (msg query source : string) st :
  dumps spec = Ok query →
  Util.get_source stack pkgs 2 = Ok source →
  snd (build_and_push push dumps stack pkgs on_behalf fn db coll spec plan msg st)
  = {| _ids := _ids st;
       pushes := pushes st ++ [(on_behalf,
                                {| ev_type := "explain"; ev_function := fn; ev_database := db;
                                   ev_collection := coll; ev_query := query;
                                   ev_explain := plan; ev_source := source |})];
       logged := logged st
                 ++ push_log (fst (push {| ev_type := "explain"; ev_function := fn;
                                           ev_database := db; ev_collection := coll;
                                           ev_query := query; ev_explain := plan;
                                           ev_source := source |} (env st))) msg;
       env := snd (push {| ev_type := "explain"; ev_function := fn; ev_database := db;
                           ev_collection := coll; ev_query := query; ev_explain := plan;
                           ev_source := source |} (env st)) |}.
Proof.
  intros Hq Hs.
  unfold build_and_push, try_except, bind, pure, push_for, outside, logging_exception.
  rewrite Hq, Hs. simpl.
  destruct (push _ (env st)) as [[[]|e] env']; simpl.
  - by rewrite app_nil_r.
  - destruct (is_Exception e); simpl; by rewrite ?app_nil_r.
Qed.

(** A terminal operation on a tracked cursor, when the plan comes back
    or its retrieval fails with TypeError or OperationFailure and the
    event can be built: exactly one event is handed to [push].  It says
    ['find'], names the database and the collection of the cursor,
    carries as query the first positional argument of the terminal
    operation itself (the empty dict when there is none), the plan or
    the error document, and the source [get_source] reports from depth
    2.  The cursor is no longer tracked, and each failure on the way
    has left one line in the log. *)
Theorem tracked_call_pushes_event (self : interceptor cursor) (self_ : cursor)
  (args : list Util.obj) (kwargs : list (string * Util.obj)) st
  (r : result Util.obj) (env1 : Env) (query source : string) :
  cursor_id self_ ∈ _ids st →
  explain self_ (env st) = (r, env1) →
  (∀ e, r = Raise e → is_TypeError_or_OperationFailure e = true) →
  dumps (first_or_empty args) = Ok query →
  Util.get_source stack (packages self) 2 = Ok source →
  ∃ st' event,
    st' = snd (_CursorMethodWrapper_call (R := R) (float := float)
                 explain push dumps format_exc stack self self_ args kwargs st)
    ∧ event = {| ev_type := "explain"; ev_function := "find";
                 ev_database := cursor_database self_;
                 ev_collection := cursor_collection self_;
                 ev_query := query; ev_explain := plan_of r; ev_source := source |}
    ∧ pushes st' = pushes st ++ [(Some (cursor_id self_), event)]
    ∧ _ids st' = _ids st ∖ {[cursor_id self_]}
    ∧ logged st' = logged st ++ explain_log r
                   ++ push_log (fst (push event env1))
                        "exception pushing explain data for find".
Proof.
  intros Hin Hexplain Hcaught Hq Hs. eexists _, _. split; [reflexivity|]. split; [reflexivity|].
  rewrite cursor_call_tracked by done.
  rewrite (explain_or_error_caught self_ (discarded self_ st) r env1 Hexplain Hcaught).
  pose proof (build_and_push_event (packages self) (Some (cursor_id self_)) "find"
                (cursor_database self_) (cursor_collection self_) (first_or_empty args)
                (plan_of r) "exception pushing explain data for find" query source
                {| _ids := _ids (discarded self_ st); pushes := pushes (discarded self_ st);
                   logged := logged (discarded self_ st) ++ explain_log r; env := env1 |}
                Hq Hs) as Hpush.
  destruct (build_and_push _ _ _ _ _ _ _ _ _ _ _ _) as [[[]|e] st3]; simpl in Hpush; subst st3.
  - unfold outside. simpl. destruct (func self self_ args kwargs _) as [r' env']. simpl.
    by rewrite <- app_assoc.
  - simpl. by rewrite <- app_assoc.
Qed.

(** [FindWrapper.__call__] hands nothing to [push] and logs nothing.
    When the original [find] raises, its exception leaves the
    interceptor, no sample is drawn and nothing is tracked.  When it
    returns a cursor, that cursor is returned, and it is added to the
    tracked set exactly when the call is sampled; a sampled call on an
    interceptor whose [_cursor_wrappers] is None fails its assertion
    instead, after [find] has run. *)
Theorem find_call_tracks_when_sampled
  (self_func : collection -> list Util.obj -> list (string * Util.obj) -> Env
               -> result cursor * Env)
  (self_frequency : float) (self_cursor_wrappers : option (list callable))
  (self_ : collection) (args : list Util.obj) (kwargs : list (string * Util.obj)) st :
  (pushes (snd (FindWrapper_call random_below self_func self_frequency self_cursor_wrappers
                  self_ args kwargs st)) = pushes st
   ∧ logged (snd (FindWrapper_call random_below self_func self_frequency self_cursor_wrappers
                    self_ args kwargs st)) = logged st)
  ∧ (∀ e env1,
       self_func self_ args kwargs (env st) = (Raise e, env1) →
       FindWrapper_call random_below self_func self_frequency self_cursor_wrappers
         self_ args kwargs st
       = (Raise e, with_env st env1))
  ∧ (∀ curs env1 sampled env2,
       self_func self_ args kwargs (env st) = (Ok curs, env1) →
       random_below self_frequency env1 = (sampled, env2) →
       (sampled = false →
        FindWrapper_call random_below self_func self_frequency self_cursor_wrappers
          self_ args kwargs st
        = (Ok curs, with_env st env2))
       ∧ (sampled = true → is_Some self_cursor_wrappers →
          FindWrapper_call random_below self_func self_frequency self_cursor_wrappers
            self_ args kwargs st
          = (Ok curs, {| _ids := {[cursor_id curs]} ∪ _ids st; pushes := pushes st;
                         logged := logged st; env := env2 |}))
       ∧ (sampled = true → self_cursor_wrappers = None →
          FindWrapper_call random_below self_func self_frequency self_cursor_wrappers
            self_ args kwargs st
          = (Raise AssertionError, with_env st env2))).
Proof.
  unfold FindWrapper_call, bind, outside, ret, pure, track_cursor, with_env. split_and!.
  - destruct (self_func self_ args kwargs (env st)) as [[curs|e] env1]; simpl; [|done].
    destruct (random_below self_frequency env1) as [[] env2]; simpl; [|done].
    by destruct self_cursor_wrappers.
  - destruct (self_func self_ args kwargs (env st)) as [[curs|e] env1]; simpl; [|done].
    destruct (random_below self_frequency env1) as [[] env2]; simpl; [|done].
    by destruct self_cursor_wrappers.
  - intros e env1 ->. done.
  - intros curs env1 sampled env2 -> . simpl. intros ->. split_and!.
    + by intros ->.
    + intros -> [ws ->]. done.
    + intros -> ->. done.
Qed.

(** [UpdateWrapper.__call__].  A call that is not sampled is the
    original [update] and nothing else.  A sampled call without a
    positional argument raises IndexError and a sampled call whose
    [find] raises passes that exception on; in both cases the original
    [update] is not called.  A sampled call whose [find] returns a
    cursor hands exactly one event to [push] when it can be built: it
    says ['update'], names the database and the collection of the
    receiver and carries the first positional argument as query and
    the plan of that cursor or the error document. *)
Theorem update_call_pushes_event (self : interceptor collection) (self_ : collection)
  (args : list Util.obj) (kwargs : list (string * Util.obj)) st (sampled : bool) (env0 : Env) :
  random_below (frequency self) (env st) = (sampled, env0) →
  (sampled = false →
   UpdateWrapper_call (R := R) explain push dumps format_exc stack find random_below
     self self_ args kwargs st
   = outside (func self self_ args kwargs) (with_env st env0))
  ∧ (sampled = true → args = [] →
     UpdateWrapper_call (R := R) explain push dumps format_exc stack find random_below
       self self_ args kwargs st
     = (Raise IndexError, with_env st env0))
  ∧ (sampled = true →
     ∀ spec rest e st1,
       args = spec :: rest →
       find self_ spec (with_env st env0) = (Raise e, st1) →
       UpdateWrapper_call (R := R) explain push dumps format_exc stack find random_below
         self self_ args kwargs st
       = (Raise e, st1))
  ∧ (sampled = true →
     ∀ spec rest curs st1 r env1 query source,
       args = spec :: rest →
       find self_ spec (with_env st env0) = (Ok curs, st1) →
       explain curs (env st1) = (r, env1) →
       (∀ e, r = Raise e → is_TypeError_or_OperationFailure e = true) →
       dumps spec = Ok query →
       Util.get_source stack (packages self) 2 = Ok source →
       ∃ st' event,
         st' = snd (UpdateWrapper_call (R := R) explain push dumps format_exc stack find
                      random_below self self_ args kwargs st)
         ∧ event = {| ev_type := "explain"; ev_function := "update";
                      ev_database := collection_database self_;
                      ev_collection := collection_name self_;
                      ev_query := query; ev_explain := plan_of r; ev_source := source |}
         ∧ pushes st' = pushes st1 ++ [(None, event)]
         ∧ _ids st' = _ids st1
         ∧ logged st' = logged st1 ++ explain_log r
                        ++ push_log (fst (push event env1))
                             "exception pushing explain data for update").
Proof.
  intros Hrandom.
  assert (UpdateWrapper_call (R := R) explain push dumps format_exc stack find random_below
            self self_ args kwargs st
          = bind (if sampled then profile_update explain push dumps format_exc stack find
                                    self self_ args
                  else ret tt)
                 (fun _ => outside (func self self_ args kwargs)) (with_env st env0)) as ->.
  { unfold UpdateWrapper_call, bind at 1, outside at 1. by rewrite Hrandom. }
  split_and!.
  - intros ->. by unfold bind, ret.
  - intros -> ->. by unfold profile_update, pure, bind.
  - intros -> spec rest e st1 -> Hfind. unfold profile_update, pure, bind. by rewrite Hfind.
  - intros -> spec rest curs st1 r env1 query source -> Hfind Hexplain Hcaught Hq Hs.
    eexists _, _. split; [reflexivity|]. split; [reflexivity|].
    unfold profile_update, pure, bind. rewrite Hfind.
    rewrite (explain_or_error_caught curs st1 r env1 Hexplain Hcaught).
    pose proof (build_and_push_event (packages self) None "update"
                  (collection_database self_) (collection_name self_) spec
                  (plan_of r) "exception pushing explain data for update" query source
                  {| _ids := _ids st1; pushes := pushes st1;
                     logged := logged st1 ++ explain_log r; env := env1 |}
                  Hq Hs) as Hpush.
    destruct (build_and_push _ _ _ _ _ _ _ _ _ _ _ _) as [[[]|e] st3]; simpl in Hpush; subst st3.
    + unfold outside. simpl. destruct (func self self_ _ kwargs _) as [r' env']. simpl.
      by rewrite <- app_assoc.
    + simpl. by rewrite <- app_assoc.
Qed.

(** *** Events and trackings *)

(** The number of times a list of actions tracks the cursor of identity
    [c]. *)
Definition trackings (c : nat) (actions : list (action (Env := Env) (R := R) (float := float)))
  : nat :=
  length (List.filter (fun a => match a with
                                | Track curs => bool_decide (cursor_id curs = c)
                                | Terminal _ _ _ _ => false
                                end) actions).

(** The events pushed for [c], and one more while [c] is tracked. *)
Definition pushed_or_due (c : nat) st : nat :=
  pushes_for c st + (if bool_decide (c ∈ _ids st) then 1 else 0).

Lemma perform_pushed_or_due (c : nat) (a : action) st :
  pushed_or_due c (perform (R := R) (float := float) explain push dumps format_exc stack a st)
  ≤ pushed_or_due c st + trackings c [a].
Proof.
  unfold pushed_or_due.
  destruct (decide (c ∈ _ids st)) as [Hc|Hc].
  - rewrite (bool_decide_eq_true_2 (c ∈ _ids st)) by done.
    destruct (perform_tracked explain push dumps format_exc stack c a st Hc)
      as [[Hc' Hp']|[Hc' Hp']].
    + rewrite bool_decide_eq_true_2 by done. lia.
    + rewrite bool_decide_eq_false_2 by done. lia.
  - rewrite (bool_decide_eq_false_2 (c ∈ _ids st)) by done.
    destruct a as [curs|self self_ args kwargs].
    + unfold trackings, pushes_for. simpl.
      destruct (decide (cursor_id curs = c)) as [Heq|Hne].
      * rewrite (bool_decide_eq_true_2 (cursor_id curs = c)) by done. simpl.
        destruct (bool_decide _); lia.
      * rewrite (bool_decide_eq_false_2 (cursor_id curs = c)) by done. simpl.
        rewrite bool_decide_eq_false_2; [lia|]. rewrite tracked_after_add.
        intros [?|?]; congruence.
    + destruct (perform_untracked explain push dumps format_exc stack c
                  (Terminal self self_ args kwargs) st I Hc) as [Hc' Hp'].
      rewrite bool_decide_eq_false_2 by done. lia.
Qed.

(** Whatever an application does, in any order, the events pushed for a
    cursor never outnumber the times it has been tracked: every event
    uses up one tracking. *)
Theorem events_never_outnumber_trackings (c : nat) (actions : list action) st :
  pushed_or_due c (run (R := R) (float := float) explain push dumps format_exc stack actions st)
  ≤ pushed_or_due c st + trackings c actions.
Proof.
  revert st. induction actions as [|a actions IH]; intros st; simpl; [unfold trackings; simpl; lia|].
  specialize (IH (perform explain push dumps format_exc stack a st)).
  pose proof (perform_pushed_or_due c a st) as Ha.
  fold (run (R := R) (float := float) explain push dumps format_exc stack actions
          (perform explain push dumps format_exc stack a st)).
  assert (trackings c (a :: actions) = trackings c [a] + trackings c actions) as ->.
  { unfold trackings. simpl. by destruct a as [curs|]; [destruct (bool_decide _)|]. }
  lia.
Qed.

End call_events.

Lemma tracked_call_pushes_event_witness :
  ∃ st' event,
    st' = snd (_CursorMethodWrapper_call explain_TypeError push_fails dumps_braces
                 format_exc_text test_stack returns_7 (a_cursor 1) [] [] (tracking {[1]}))
    ∧ event = {| ev_type := "explain"; ev_function := "find"; ev_database := "test";
                 ev_collection := "foo"; ev_query := "{}";
                 ev_explain := plan_of format_exc_text (Raise TypeError);
                 ev_source := "test_instrument.py:58" |}
    ∧ pushes st' = pushes (tracking {[1]}) ++ [(Some 1, event)]
    ∧ _ids st' = _ids (tracking {[1]}) ∖ {[1]}
    ∧ logged st' = logged (tracking {[1]}) ++ explain_log (Raise TypeError)
                   ++ push_log (fst (push_fails event tt))
                        "exception pushing explain data for find".
Proof.
  apply (tracked_call_pushes_event explain_TypeError push_fails dumps_braces format_exc_text
           test_stack returns_7 (a_cursor 1) [] [] (tracking {[1]}) (Raise TypeError) tt
           "{}" "test_instrument.py:58").
  - by apply elem_of_singleton.
  - reflexivity.
  - by intros e [= <-].
  - reflexivity.
  - reflexivity.
Defined.

Definition find_fails (self_ : collection) (args : list Util.obj)
  (kwargs : list (string * Util.obj)) (e : unit) : result cursor * unit :=
  (Raise OperationFailure, e).

Lemma find_call_tracks_when_sampled_witness :
  FindWrapper_call always_sampled find_fails tt (Some []) foo [] [] (tracking ∅)
  = (Raise OperationFailure, with_env (tracking ∅) tt).
Proof.
  apply (proj1 (proj2 (find_call_tracks_when_sampled always_sampled find_fails tt (Some [])
                         foo [] [] (tracking ∅)))).
  reflexivity.
Defined.

Lemma update_call_pushes_event_witness :
  UpdateWrapper_call explain_TypeError push_ok dumps_braces format_exc_text test_stack
    find_returns always_sampled returns_7 foo [] [("spec", Util.PyDict [])] (tracking ∅)
  = (Raise IndexError, with_env (tracking ∅) tt).
Proof.
  apply (proj1 (proj2 (update_call_pushes_event explain_TypeError push_ok dumps_braces
                         format_exc_text test_stack find_returns always_sampled returns_7 foo
                         [] [("spec", Util.PyDict [])] (tracking ∅) true tt eq_refl)));
    reflexivity.
Defined.

Lemma at_most_one_event_interleaved_witness :
  pushes_for 1
    (interleave_threads explain_TypeError push_ok dumps_braces format_exc_text test_stack
       [0; 1; 0; 1]
       [Calling returns_7 (a_cursor 1) [] []; Calling returns_7 (a_cursor 1) [] []]
       (tracking {[1]}))
  ≤ pushes_for 1 (tracking {[1]}) + 1.
Proof.
  apply (at_most_one_event_interleaved explain_TypeError push_ok dumps_braces format_exc_text
           test_stack 1 [0; 1; 0; 1]
           [Calling returns_7 (a_cursor 1) [] []; Calling returns_7 (a_cursor 1) [] []]
           (tracking {[1]})).
  by apply elem_of_singleton.
Defined.

(** *** What the caller gets back *)

Section call_returns.
Context {Env R float : Type}.
Variable explain : cursor -> Env -> result Util.obj * Env.
Variable push : profile_event -> Env -> result unit * Env.
Variable dumps : Util.obj -> result string.
Variable format_exc : exception -> string.
Variable stack : list Util.frame_record.
Variable find : collection -> Util.obj -> M (Env := Env) cursor.
Variable random_below : float -> Env -> bool * Env.

Implicit Types (st : state (Env := Env)).









End call_returns.


(** *** Installing twice, removing twice *)

Section install_facts.
Context {float : Type}.
Implicit Types (rt : runtime float) (cls : wrapper_class) (meth : callable).

Lemma keeps_objects_refl (h : gmap nat (wrapper float)) : keeps_objects h h.
Proof. intros ref w Hw. eauto. Qed.

Lemma keeps_objects_trans (h1 h2 h3 : gmap nat (wrapper float)) :
  keeps_objects h1 h2 → keeps_objects h2 h3 → keeps_objects h1 h3.
Proof.
  intros H12 H23 ref w Hw.
  destruct (H12 ref w Hw) as (w2 & Hw2 & Hc2 & Hf2).
  destruct (H23 ref w2 Hw2) as (w3 & Hw3 & Hc3 & Hf3).
  exists w3. split_and!; congruence.
Qed.

Lemma cursor_instance_keeps (h h' : gmap nat (wrapper float)) (cursor_wrapper : callable) :
  keeps_objects h h' → cursor_instance h cursor_wrapper → cursor_instance h' cursor_wrapper.
Proof.
  intros Hk (ref & w & name & -> & Hw & Hc).
  destruct (Hk ref w Hw) as (w' & Hw' & Hc' & _).
  exists ref, w', name. split_and!; congruence.
Qed.

Lemma cursor_wrap_facts (name : cursor_method) rt :
  fresh_refs rt →
  cursor_instance (heap (snd (_CursorMethodWrapper_wrap name rt)))
                  (fst (_CursorMethodWrapper_wrap name rt))
  ∧ fresh_refs (snd (_CursorMethodWrapper_wrap name rt))
  ∧ keeps_objects (heap rt) (heap (snd (_CursorMethodWrapper_wrap name rt)))
  ∧ Collection_find (snd (_CursorMethodWrapper_wrap name rt)) = Collection_find rt.
Proof.
  intros Hfresh. unfold _CursorMethodWrapper_wrap, isinstance.
  destruct (Cursor rt name) as [fname|ref] eqn:Hmeth; simpl.
  - split_and!.
    + eexists _, _, name. split_and!; [reflexivity|apply lookup_insert_eq|reflexivity].
    + intros ref Href. simpl in *. rewrite lookup_insert_ne by lia. apply Hfresh. lia.
    + intros ref w Hw. exists w. split_and!; [|done..].
      rewrite lookup_insert_ne; [done|]. intros <-.
      rewrite Hfresh in Hw by lia. done.
    + done.
  - destruct (heap rt !! ref) as [w|] eqn:Hw; simpl.
    + destruct (bool_decide (class_ w = _CursorMethodWrapper name)) eqn:Hc; simpl.
      * apply bool_decide_eq_true in Hc. split_and!; [|done|apply keeps_objects_refl|done].
        by exists ref, w, name.
      * split_and!.
        -- eexists _, _, name. split_and!; [reflexivity|apply lookup_insert_eq|reflexivity].
        -- intros r Hr. simpl in *. rewrite lookup_insert_ne by lia. apply Hfresh. lia.
        -- intros r w' Hw'. exists w'. split_and!; [|done..].
           rewrite lookup_insert_ne; [done|]. intros <-.
           rewrite Hfresh in Hw' by lia. done.
        -- done.
    + split_and!.
      * eexists _, _, name. split_and!; [reflexivity|apply lookup_insert_eq|reflexivity].
      * intros r Hr. simpl in *. rewrite lookup_insert_ne by lia. apply Hfresh. lia.
      * intros r w' Hw'. exists w'. split_and!; [|done..].
        rewrite lookup_insert_ne; [done|]. intros <-.
        rewrite Hfresh in Hw' by lia. done.
      * done.
Qed.

Lemma alter_keeps_objects (h : gmap nat (wrapper float)) (ref : nat)
  (ws : option (list callable) → option (list callable)) :
  keeps_objects h
    (alter (fun w => {| class_ := class_ w; _func := _func w; _frequency := _frequency w;
                        _filter_packages := _filter_packages w;
                        _cursor_wrappers := ws (_cursor_wrappers w) |}) ref h).
Proof.
  intros r w Hw. destruct (decide (ref = r)) as [->|Hne].
  - eexists. rewrite lookup_alter_eq, Hw. simpl. done.
  - exists w. by rewrite lookup_alter_ne.
Qed.

Lemma wrap_terminators_facts (names : list cursor_method) (ref : nat) rt
  (w : wrapper float) (ws : list callable) :
  fresh_refs rt →
  heap rt !! ref = Some w →
  _cursor_wrappers w = Some ws →
  Forall (cursor_instance (heap rt)) ws →
  ∃ w' ws',
    heap (wrap_terminators names ref rt) !! ref = Some w'
    ∧ class_ w' = class_ w ∧ _func w' = _func w
    ∧ _cursor_wrappers w' = Some ws'
    ∧ Forall (cursor_instance (heap (wrap_terminators names ref rt))) ws'
    ∧ keeps_objects (heap rt) (heap (wrap_terminators names ref rt)).
Proof.
  revert rt w ws. induction names as [|name names IH]; intros rt w ws Hfresh Hw Hws Hall; simpl.
  - exists w, ws. split_and!; try done. apply keeps_objects_refl.
  - destruct (cursor_wrap_facts name rt Hfresh) as (Hinst & Hfresh' & Hkeep & _).
    destruct (_CursorMethodWrapper_wrap name rt) as [meth rt'] eqn:Hwrap. simpl in *.
    destruct (Hkeep ref w Hw) as (w1 & Hw1 & Hc1 & Hf1).
    assert (_cursor_wrappers w1 = Some ws) as Hws1.
    { revert Hwrap Hw1. unfold _CursorMethodWrapper_wrap.
      destruct (negb _); [|by intros [= <- <-]; congruence].
      intros [= <- <-]. simpl. destruct (decide (next_ref rt = ref)) as [<-|Hne].
      - rewrite Hfresh in Hw by lia. done.
      - rewrite lookup_insert_ne by done. congruence. }
    set (rt'' := append_cursor_wrapper ref meth rt').
    assert (keeps_objects (heap rt') (heap rt'')) as Hkeep'.
    { apply (alter_keeps_objects _ ref (fmap (fun ws => ws ++ [meth]))). }
    destruct (IH rt''
                {| class_ := class_ w1; _func := _func w1; _frequency := _frequency w1;
                   _filter_packages := _filter_packages w1;
                   _cursor_wrappers := Some (ws ++ [meth]) |} (ws ++ [meth]))
      as (w' & ws' & Hw' & Hc' & Hf' & Hws' & Hall' & Hkeep'').
    + intros r Hr. simpl. destruct (decide (ref = r)) as [->|Hne].
      * rewrite lookup_alter_eq. rewrite (Hfresh' r Hr) in Hw1. done.
      * rewrite lookup_alter_ne by done. by apply Hfresh'.
    + simpl. rewrite lookup_alter_eq, Hw1. simpl. by rewrite Hws1.
    + done.
    + apply Forall_app. split.
      * eapply Forall_impl; [exact Hall|]. intros cw Hcw.
        eapply cursor_instance_keeps; [|exact Hcw].
        eapply keeps_objects_trans; done.
      * constructor; [|constructor]. by eapply cursor_instance_keeps.
    + exists w', ws'. simpl in *. split_and!; try congruence.
      eapply keeps_objects_trans; [exact Hkeep|]. eapply keeps_objects_trans; done.
Qed.

Lemma cursor_unwrap_keeps (name : cursor_method) rt :
  heap (_CursorMethodWrapper_unwrap name rt) = heap rt
  ∧ Collection_find (_CursorMethodWrapper_unwrap name rt) = Collection_find rt.
Proof.
  unfold _CursorMethodWrapper_unwrap.
  destruct (Cursor rt name) as [fname|ref]; [done|].
  destruct (heap rt !! ref) as [w|]; [|done].
  by destruct (bool_decide _).
Qed.

Lemma unwrap_elements_ok (ws : list callable) rt :
  Forall (cursor_instance (heap rt)) ws →
  ∃ rt1, unwrap_elements ws rt = Ok rt1
         ∧ heap rt1 = heap rt ∧ Collection_find rt1 = Collection_find rt.
Proof.
  revert rt. induction ws as [|cw ws IH]; intros rt Hall; simpl; [by eexists|].
  apply Forall_cons in Hall as [(ref & w & name & -> & Hw & Hc) Hall].
  simpl. rewrite Hw, Hc. simpl.
  destruct (cursor_unwrap_keeps name rt) as [Hheap Hfind].
  destruct (IH (_CursorMethodWrapper_unwrap name rt)) as (rt1 & Hrt1 & Hheap1 & Hfind1).
  { by rewrite Hheap. }
  exists rt1. split_and!; congruence.
Qed.

Lemma find_unwrap_installed rt (ref : nat) (w : wrapper float) (ws : list callable) :
  Collection_find rt = Instance ref →
  heap rt !! ref = Some w →
  class_ w = FindWrapper →
  _cursor_wrappers w = Some ws →
  Forall (cursor_instance (heap rt)) ws →
  ∃ rt', FindWrapper_unwrap rt = Ok rt' ∧ Collection_find rt' = _func w.
Proof.
  intros Hfind Hw Hc Hws Hall. unfold FindWrapper_unwrap.
  rewrite Hfind, Hw, Hc, Hws. simpl.
  destruct (unwrap_elements_ok ws rt Hall) as (rt1 & -> & _ & _). simpl.
  by eexists.
Qed.

Lemma FindWrapper_wrap_fresh rt :
  isinstance rt (Collection_find rt) FindWrapper = false →
  FindWrapper_wrap rt
  = (Instance (next_ref rt),
     set_Collection_find (Instance (next_ref rt))
       (wrap_terminators _cursor_terminators (next_ref rt)
          (set_cursor_wrappers (next_ref rt) (Some [])
             (register_update_callback (Instance (next_ref rt))
                (snd (new FindWrapper (Collection_find rt) rt)))))).
Proof. intros Hnot. unfold FindWrapper_wrap. by rewrite Hnot. Qed.

Lemma find_wrap_installs rt :
  fresh_refs rt →
  isinstance rt (Collection_find rt) FindWrapper = false →
  ∃ ref w ws,
    Collection_find (snd (FindWrapper_wrap rt)) = Instance ref
    ∧ fst (FindWrapper_wrap rt) = Instance ref
    ∧ heap (snd (FindWrapper_wrap rt)) !! ref = Some w
    ∧ class_ w = FindWrapper
    ∧ _func w = Collection_find rt
    ∧ _cursor_wrappers w = Some ws
    ∧ Forall (cursor_instance (heap (snd (FindWrapper_wrap rt)))) ws.
Proof.
  intros Hfresh Hnot. rewrite (FindWrapper_wrap_fresh rt Hnot).
  set (w0 := {| class_ := FindWrapper; _func := Collection_find rt;
                _frequency := sample_frequency (get_config rt);
                _filter_packages := filter_packages (get_config rt);
                _cursor_wrappers := Some [] |}).
  set (rt3 := set_cursor_wrappers (next_ref rt) (Some [])
                (register_update_callback (Instance (next_ref rt))
                   (snd (new FindWrapper (Collection_find rt) rt)))).
  cbn [fst snd set_Collection_find heap Collection_find].
  destruct (wrap_terminators_facts _cursor_terminators (next_ref rt) rt3 w0 [])
    as (w' & ws' & Hw' & Hc' & Hf' & Hws' & Hall' & _).
  - intros r Hr. subst rt3. simpl in *.
    rewrite lookup_alter_ne by lia. rewrite lookup_insert_ne by lia. apply Hfresh. lia.
  - subst rt3. simpl. rewrite lookup_alter_eq, lookup_insert_eq. done.
  - done.
  - constructor.
  - exists (next_ref rt), w', ws'. split_and!; done.
Qed.

(** C6: for the find and the update interceptor, [wrap] changes
    nothing when the target already is an instance of the class, also
    right after a first [wrap]; [unwrap] puts back the very object the
    installed instance wraps, which after [wrap] is the original
    operation; and [unwrap] changes nothing when no instance of the
    class is installed. *)
Theorem wrap_unwrap_idempotent rt :
  fresh_refs rt →
  (isinstance rt (Collection_find rt) FindWrapper = true →
   FindWrapper_wrap rt = (Collection_find rt, rt))
  ∧ (isinstance rt (Collection_update rt) UpdateWrapper = true →
     UpdateWrapper_wrap rt = (Collection_update rt, rt))
  ∧ (isinstance rt (Collection_find rt) FindWrapper = false →
     FindWrapper_wrap (snd (FindWrapper_wrap rt)) = FindWrapper_wrap rt
     ∧ ∃ rt', FindWrapper_unwrap (snd (FindWrapper_wrap rt)) = Ok rt'
              ∧ Collection_find rt' = Collection_find rt)
  ∧ (isinstance rt (Collection_update rt) UpdateWrapper = false →
     UpdateWrapper_wrap (snd (UpdateWrapper_wrap rt)) = UpdateWrapper_wrap rt
     ∧ Collection_update (UpdateWrapper_unwrap (snd (UpdateWrapper_wrap rt)))
       = Collection_update rt)
  ∧ (∀ ref w ws,
       Collection_find rt = Instance ref → heap rt !! ref = Some w →
       class_ w = FindWrapper → _cursor_wrappers w = Some ws →
       Forall (cursor_instance (heap rt)) ws →
       ∃ rt', FindWrapper_unwrap rt = Ok rt' ∧ Collection_find rt' = _func w)
  ∧ (∀ ref w,
       Collection_update rt = Instance ref → heap rt !! ref = Some w →
       class_ w = UpdateWrapper →
       Collection_update (UpdateWrapper_unwrap rt) = _func w)
  ∧ (isinstance rt (Collection_find rt) FindWrapper = false → FindWrapper_unwrap rt = Ok rt)
  ∧ (isinstance rt (Collection_update rt) UpdateWrapper = false → UpdateWrapper_unwrap rt = rt).
Proof.
  intros Hfresh. split_and!.
  - intros Hin. unfold FindWrapper_wrap. by rewrite Hin.
  - intros Hin. unfold UpdateWrapper_wrap. by rewrite Hin.
  - intros Hnot.
    destruct (find_wrap_installs rt Hfresh Hnot) as (ref & w & ws & Hf & Hr & Hw & Hc & Hfn & Hws & Hall).
    split.
    + unfold FindWrapper_wrap at 1. unfold isinstance. rewrite Hf, Hw, Hc. simpl.
      rewrite <- Hr. by destruct (FindWrapper_wrap rt).
    + destruct (find_unwrap_installed _ ref w ws Hf Hw Hc Hws Hall) as (rt' & Hrt' & Hfind).
      exists rt'. split; congruence.
  - intros Hnot. unfold UpdateWrapper_wrap at 2 3 4. rewrite Hnot. simpl. split.
    + unfold UpdateWrapper_wrap, isinstance. simpl. rewrite lookup_insert_eq. simpl. done.
    + unfold UpdateWrapper_unwrap. simpl. rewrite lookup_insert_eq. simpl. done.
  - intros ref w ws. apply find_unwrap_installed.
  - intros ref w Hu Hw Hc. unfold UpdateWrapper_unwrap. rewrite Hu, Hw, Hc. simpl. done.
  - unfold isinstance, FindWrapper_unwrap. destruct (Collection_find rt) as [|ref]; [done|].
    destruct (heap rt !! ref); [|done]. by intros ->.
  - unfold isinstance, UpdateWrapper_unwrap. destruct (Collection_update rt) as [|ref]; [done|].
    destruct (heap rt !! ref); [|done]. by intros ->.
Qed.

End install_facts.

Definition pristine_unit : runtime unit :=
  pristine {| sample_frequency := tt; filter_packages := Some ["mongodrums"; "pymongo"] |}.

Lemma pristine_fresh {float : Type} (cfg : config float) : fresh_refs (pristine cfg).
Proof. intros ref _. apply lookup_empty. Qed.

Lemma wrap_unwrap_idempotent_witness :
  (FindWrapper_wrap (snd (FindWrapper_wrap pristine_unit)) = FindWrapper_wrap pristine_unit
   ∧ ∃ rt', FindWrapper_unwrap (snd (FindWrapper_wrap pristine_unit)) = Ok rt'
            ∧ Collection_find rt' = Function "find")
  ∧ (UpdateWrapper_wrap (snd (UpdateWrapper_wrap pristine_unit)) = UpdateWrapper_wrap pristine_unit
     ∧ Collection_update (UpdateWrapper_unwrap (snd (UpdateWrapper_wrap pristine_unit)))
       = Function "update")
  ∧ FindWrapper_unwrap pristine_unit = Ok pristine_unit
  ∧ UpdateWrapper_unwrap pristine_unit = pristine_unit.
Proof.
  destruct (wrap_unwrap_idempotent pristine_unit (pristine_fresh _))
    as (_ & _ & Hfind & Hupdate & _ & _ & Hfind' & Hupdate').
  split; [|split; [|split]].
  - apply Hfind. reflexivity.
  - apply Hupdate. reflexivity.
  - apply Hfind'. reflexivity.
  - apply Hupdate'. reflexivity.
Defined.

Example start_installs :
  instrumented pristine_unit = false
  ∧ instrumented (start pristine_unit) = true
  ∧ isinstance (start pristine_unit) (Cursor (start pristine_unit) next) _CursorNextWrapper = true
  ∧ (rt ← stop (start pristine_unit);
     Ok (instrumented rt, Collection_find rt, Collection_update rt,
         Cursor rt next, Cursor rt count, Cursor rt distinct, update_callbacks rt))
    = Ok (false, Function "find", Function "update",
          Function "next", Function "count", Function "distinct", []).
Proof. split_and!; vm_compute; reflexivity. Qed.

(** *** Starting and stopping *)

Section start_stop.
Context {float : Type}.
Implicit Types (rt : runtime float) (cls : wrapper_class) (meth : callable).

Local Ltac heap_lookup :=
  repeat first [ rewrite lookup_insert_eq | rewrite lookup_alter_eq
               | rewrite lookup_insert_ne by lia | rewrite lookup_alter_ne by lia ];
  simpl.

(** An interceptor as [cls(func)] makes it under the configuration
    [cfg]. *)
Definition made (cls : wrapper_class) (func : callable) (cfg : config float)
  (ws : option (list callable)) : wrapper float :=
  {| class_ := cls; _func := func; _frequency := sample_frequency cfg;
     _filter_packages := filter_packages cfg; _cursor_wrappers := ws |}.

(** The state [start] leaves on a driver without interceptors. *)
Lemma start_facts rt :
  fresh_refs rt →
  plain_driver rt →
  Collection_find (start rt) = Instance (next_ref rt)
  ∧ Cursor (start rt) next = Instance (1 + next_ref rt)
  ∧ Cursor (start rt) count = Instance (2 + next_ref rt)
  ∧ Cursor (start rt) distinct = Instance (3 + next_ref rt)
  ∧ Collection_update (start rt) = Instance (4 + next_ref rt)
  ∧ heap (start rt) !! next_ref rt
    = Some (made FindWrapper (Collection_find rt) (get_config rt)
              (Some [Instance (1 + next_ref rt); Instance (2 + next_ref rt);
                     Instance (3 + next_ref rt)]))
  ∧ heap (start rt) !! (1 + next_ref rt)
    = Some (made _CursorNextWrapper (Cursor rt next) (get_config rt) None)
  ∧ heap (start rt) !! (2 + next_ref rt)
    = Some (made _CursorCountWrapper (Cursor rt count) (get_config rt) None)
  ∧ heap (start rt) !! (3 + next_ref rt)
    = Some (made _CursorDistinctWrapper (Cursor rt distinct) (get_config rt) None)
  ∧ heap (start rt) !! (4 + next_ref rt)
    = Some (made UpdateWrapper (Collection_update rt) (get_config rt) None)
  ∧ update_callbacks (start rt)
    = update_callbacks rt ++ [next_ref rt; 1 + next_ref rt; 2 + next_ref rt;
                              3 + next_ref rt; 4 + next_ref rt]
  ∧ get_config (start rt) = get_config rt.
Proof.
  intros Hfresh ([f Hf] & [u Hu] & Hcursor & Hcbs).
  destruct (Hcursor next) as [fn Hn], (Hcursor count) as [fc Hc], (Hcursor distinct) as [fd Hd].
  unfold start, UpdateWrapper_wrap, FindWrapper_wrap, isinstance. rewrite Hf. simpl.
  unfold _CursorMethodWrapper_wrap, isinstance. simpl. rewrite Hn. simpl. rewrite Hc. simpl.
  rewrite Hd. simpl. rewrite Hu. simpl.
  split_and!; try done; heap_lookup; try done.
  by rewrite <- !app_assoc.
Qed.

Lemma remove_first_app (ref : nat) (l l' : list nat) :
  ref ∉ l → remove_first ref (l ++ l') = l ++ remove_first ref l'.
Proof.
  induction l as [|x l IH]; simpl; [done|].
  intros [Hne Hnotin]%not_elem_of_cons.
  rewrite bool_decide_eq_false_2 by done. by rewrite IH.
Qed.

Lemma below_not_registered (n ref : nat) (l : list nat) :
  Forall (fun r => r < n) l → n ≤ ref → ref ∉ l.
Proof.
  intros Hall Hle Hin. rewrite Forall_forall in Hall. specialize (Hall ref Hin). lia.
Qed.

(** [stop] after [start] on a driver without interceptors. *)
Lemma start_stop rt :
  fresh_refs rt →
  plain_driver rt →
  ∃ rt', stop (start rt) = Ok rt'
         ∧ same_driver rt rt'
         ∧ get_config rt' = get_config rt
         ∧ instrumented (start rt) = true
         ∧ instrumented rt' = false.
Proof.
  intros Hfresh Hplain.
  destruct (start_facts rt Hfresh Hplain)
    as (Hfind & Hnext & Hcount & Hdistinct & Hupdate & H0 & H1 & H2 & H3 & H4 & Hcbs & Hcfg).
  destruct Hplain as ([f Hf] & [u Hu] & Hcursor & Hbelow).
  remember (start rt) as rt1 eqn:Hrt1. clear Hrt1. cbn [Nat.add] in *.
  unfold stop, UpdateWrapper_unwrap. rewrite Hupdate, H4. simpl.
  unfold FindWrapper_unwrap. simpl. rewrite Hfind, H0. simpl. rewrite H1. simpl.
  unfold _CursorMethodWrapper_unwrap. simpl. rewrite Hnext, H1. simpl.
  rewrite H2. simpl. rewrite Hcount, H2. simpl.
  rewrite H3. simpl. rewrite Hdistinct, H3. simpl.
  eexists. split; [reflexivity|]. unfold same_driver, instrumented. simpl.
  rewrite Hf, Hu, Hupdate, H4. split_and!; try done.
  - by intros [].
  - rewrite Hcbs.
    rewrite !remove_first_app by (apply (below_not_registered (next_ref rt)); [done|lia]).
    simpl. repeat (rewrite ?bool_decide_eq_true_2 by lia; rewrite ?bool_decide_eq_false_2 by lia;
                   simpl).
    by rewrite app_nil_r.
Qed.

(** After [start] on a driver without interceptors, [stop] returns and
    puts back the five attributes of the driver and the list of
    registered callbacks; [instrumented] is true in between and false
    afterwards; a second [start] and a second [stop] change nothing. *)
Theorem start_then_stop rt :
  fresh_refs rt →
  plain_driver rt →
  instrumented (start rt) = true
  ∧ start (start rt) = start rt
  ∧ ∃ rt', stop (start rt) = Ok rt'
           ∧ same_driver rt rt'
           ∧ get_config rt' = get_config rt
           ∧ instrumented rt' = false
           ∧ stop rt' = Ok rt'.
Proof.
  intros Hfresh Hplain.
  destruct (start_stop rt Hfresh Hplain) as (rt' & Hstop & Hsame & Hcfg & Hin & Hout).
  split_and!; [done| |].
  - destruct (start_facts rt Hfresh Hplain)
      as (Hfind & _ & _ & _ & Hupdate & H0 & _ & _ & _ & H4 & _).
    unfold start at 1, UpdateWrapper_wrap, FindWrapper_wrap, isinstance.
    rewrite Hfind, H0. simpl. by rewrite Hupdate, H4.
  - exists rt'. split_and!; try done.
    destruct Hsame as (Hf & Hu & _). destruct Hplain as ([f Hf'] & [u Hu'] & _).
    unfold stop, UpdateWrapper_unwrap, FindWrapper_unwrap. rewrite Hu, Hu'. by rewrite Hf, Hf'.
Qed.

(** [start] on a driver without interceptors installs one interceptor
    of each of the five classes: the attribute of the class holds a new
    object of the class, which wraps what the attribute held, carries
    the sample frequency and the package filter of the configuration in
    force, and is registered for configuration updates. *)
Theorem start_installs_all rt cls :
  fresh_refs rt →
  plain_driver rt →
  ∃ ref w,
    target cls (start rt) = Instance ref
    ∧ heap (start rt) !! ref = Some w
    ∧ isinstance (start rt) (target cls (start rt)) cls = true
    ∧ heap rt !! ref = None
    ∧ class_ w = cls
    ∧ _func w = target cls rt
    ∧ _frequency w = sample_frequency (get_config rt)
    ∧ _filter_packages w = filter_packages (get_config rt)
    ∧ ref ∈ update_callbacks (start rt)
    ∧ ref ∉ update_callbacks rt.
Proof.
  intros Hfresh Hplain.
  destruct (start_facts rt Hfresh Hplain)
    as (Hfind & Hnext & Hcount & Hdistinct & Hupdate & H0 & H1 & H2 & H3 & H4 & Hcbs & Hcfg).
  destruct Hplain as (_ & _ & _ & Hbelow).
  assert (∀ k, k < 5 →
               heap rt !! (k + next_ref rt) = None
               ∧ k + next_ref rt ∈ update_callbacks (start rt)
               ∧ k + next_ref rt ∉ update_callbacks rt) as Hnew.
  { intros k Hk. split_and!.
    - apply Hfresh. lia.
    - rewrite Hcbs. apply elem_of_app. right.
      destruct k as [|[|[|[|[|k]]]]]; [set_solver..|lia].
    - apply (below_not_registered (next_ref rt)); [done|lia]. }
  destruct cls as [| |[]]; unfold isinstance; simpl.
  - destruct (Hnew 0) as (? & ? & ?); [lia|].
    eexists _, _. rewrite Hfind, H0. split_and!; done.
  - destruct (Hnew 4) as (? & ? & ?); [lia|].
    eexists _, _. rewrite Hupdate, H4. split_and!; done.
  - destruct (Hnew 1) as (? & ? & ?); [lia|].
    eexists _, _. rewrite Hnext, H1. split_and!; done.
  - destruct (Hnew 2) as (? & ? & ?); [lia|].
    eexists _, _. rewrite Hcount, H2. split_and!; done.
  - destruct (Hnew 3) as (? & ? & ?); [lia|].
    eexists _, _. rewrite Hdistinct, H3. split_and!; done.
Qed.

(** *** A change of configuration *)

(** What [_configure] makes of an interceptor. *)
Definition configured (cfg : config float) (w : wrapper float) : wrapper float :=
  {| class_ := class_ w; _func := _func w; _frequency := sample_frequency cfg;
     _filter_packages := filter_packages cfg; _cursor_wrappers := _cursor_wrappers w |}.

Lemma configure_all (cfg : config float) (refs : list nat) rt :
  Collection_find (fold_left (fun rt' ref => _configure ref cfg rt') refs rt) = Collection_find rt
  ∧ Collection_update (fold_left (fun rt' ref => _configure ref cfg rt') refs rt)
    = Collection_update rt
  ∧ Cursor (fold_left (fun rt' ref => _configure ref cfg rt') refs rt) = Cursor rt
  ∧ get_config (fold_left (fun rt' ref => _configure ref cfg rt') refs rt) = get_config rt
  ∧ update_callbacks (fold_left (fun rt' ref => _configure ref cfg rt') refs rt)
    = update_callbacks rt
  ∧ ∀ ref, heap (fold_left (fun rt' r => _configure r cfg rt') refs rt) !! ref
           = if bool_decide (ref ∈ refs) then configured cfg <$> heap rt !! ref
             else heap rt !! ref.
Proof.
  revert rt. induction refs as [|r refs IH]; intros rt; simpl.
  - split_and!; done.
  - destruct (IH (_configure r cfg rt)) as (-> & -> & -> & -> & -> & Hheap).
    split_and!; try done. intros ref. rewrite Hheap. simpl.
    fold (configured cfg).
    destruct (decide (ref = r)) as [->|Hne].
    + rewrite lookup_alter_eq.
      rewrite (bool_decide_eq_true_2 (r ∈ r :: refs)) by left.
      destruct (bool_decide (r ∈ refs)); [|done]. by destruct (heap rt !! r).
    + rewrite lookup_alter_ne by done.
      destruct (decide (ref ∈ refs)) as [Hin|Hnotin].
      * rewrite !bool_decide_eq_true_2; [done|by right|done].
      * rewrite !bool_decide_eq_false_2; [done| |done].
        by intros [?|?]%elem_of_cons.
Qed.

(** A change of configuration reaches every interceptor that [start]
    has installed: once the registered callbacks have been called with
    the new configuration, each of the five objects, still in its
    place and still wrapping the same function, carries the new sample
    frequency and package filter. *)
Theorem configuration_reaches_interceptors rt (cfg : config float) cls :
  fresh_refs rt →
  plain_driver rt →
  ∃ ref w,
    target cls (notify cfg (start rt)) = Instance ref
    ∧ target cls (start rt) = Instance ref
    ∧ heap (notify cfg (start rt)) !! ref = Some w
    ∧ class_ w = cls
    ∧ _func w = target cls rt
    ∧ _frequency w = sample_frequency cfg
    ∧ _filter_packages w = filter_packages cfg
    ∧ get_config (notify cfg (start rt)) = cfg.
Proof.
  intros Hfresh Hplain.
  destruct (start_facts rt Hfresh Hplain)
    as (Hfind & Hnext & Hcount & Hdistinct & Hupdate & H0 & H1 & H2 & H3 & H4 & Hcbs & Hcfg).
  remember (start rt) as rt1 eqn:Hrt1. clear Hrt1.
  assert (∀ k, k < 5 → bool_decide (k + next_ref rt ∈ update_callbacks rt1) = true)
    as Hreg.
  { intros k Hk. apply bool_decide_eq_true_2. rewrite Hcbs. apply elem_of_app. right.
    destruct k as [|[|[|[|[|k]]]]]; [set_solver..|lia]. }
  unfold notify.
  match goal with
  | |- context [fold_left ?f ?refs ?rt0] =>
      destruct (configure_all cfg refs rt0) as (Hf & Hu & Hc & Hg & _ & Hheap)
  end.
  simpl in Hf, Hu, Hc, Hg, Hheap.
  destruct cls as [| |[]]; simpl.
  - eexists (0 + next_ref rt), _. rewrite Hf, Hg, Hheap, (Hreg 0) by lia.
    cbn [Nat.add] in *. rewrite Hfind, H0. simpl.
    split_and!; done.
  - eexists (4 + next_ref rt), _. rewrite Hu, Hg, Hheap, (Hreg 4) by lia.
    cbn [Nat.add] in *. rewrite Hupdate, H4. simpl.
    split_and!; done.
  - eexists (1 + next_ref rt), _. rewrite Hc, Hg, Hheap, (Hreg 1) by lia.
    cbn [Nat.add] in *. rewrite Hnext, H1. simpl.
    split_and!; done.
  - eexists (2 + next_ref rt), _. rewrite Hc, Hg, Hheap, (Hreg 2) by lia.
    cbn [Nat.add] in *. rewrite Hcount, H2. simpl.
    split_and!; done.
  - eexists (3 + next_ref rt), _. rewrite Hc, Hg, Hheap, (Hreg 3) by lia.
    cbn [Nat.add] in *. rewrite Hdistinct, H3. simpl.
    split_and!; done.
Qed.

(** *** Scoped instrumentation *)

Lemma keeps_installation_refl rt : keeps_installation rt rt.
Proof. split; [by split_and!|]. intros ref w Hw. by exists w. Qed.

(** A change of configuration installs and removes nothing. *)
Lemma notify_keeps_installation (cfg : config float) rt :
  keeps_installation rt (notify cfg rt).
Proof.
  unfold notify.
  match goal with
  | |- context [fold_left ?f ?refs ?rt0] =>
      destruct (configure_all cfg refs rt0) as (Hf & Hu & Hc & _ & Hcbs & Hheap)
  end.
  simpl in Hf, Hu, Hc, Hcbs, Hheap. split.
  - split_and!; [done..| |done]. intros m. by rewrite Hc.
  - intros ref w Hw. rewrite Hheap, Hw.
    destruct (bool_decide _); simpl; by eexists.
Qed.

Lemma keeps_installation_objects rt rt' :
  keeps_installation rt rt' → keeps_objects (heap rt) (heap rt').
Proof.
  intros [_ Hheap] ref w Hw. destruct (Hheap ref w Hw) as (w' & ? & ? & ? & _). by exists w'.
Qed.

(** [stop] on what a body that installs and removes nothing has left of
    a started driver. *)
Lemma stop_kept rt rt2 :
  fresh_refs rt →
  plain_driver rt →
  keeps_installation (start rt) rt2 →
  ∃ rt', stop rt2 = Ok rt' ∧ same_driver rt rt' ∧ instrumented rt' = false.
Proof.
  intros Hfresh Hplain [(Kfind & Kupdate & Kcursor & Kcbs) Kheap].
  destruct (start_facts rt Hfresh Hplain)
    as (Hfind & Hnext & Hcount & Hdistinct & Hupdate & H0 & H1 & H2 & H3 & H4 & Hcbs & Hcfg).
  destruct Hplain as ([f Hf] & [u Hu] & Hcursor & Hbelow).
  destruct (Kheap _ _ H0) as ([c0 f0 q0 p0 ws0] & K0 & ? & ? & ?).
  destruct (Kheap _ _ H1) as ([c1 f1 q1 p1 ws1] & K1 & ? & ? & ?).
  destruct (Kheap _ _ H2) as ([c2 f2 q2 p2 ws2] & K2 & ? & ? & ?).
  destruct (Kheap _ _ H3) as ([c3 f3 q3 p3 ws3] & K3 & ? & ? & ?).
  destruct (Kheap _ _ H4) as ([c4 f4 q4 p4 ws4] & K4 & ? & ? & ?).
  simpl in *. subst.
  rewrite Hfind in Kfind. rewrite Hupdate in Kupdate. rewrite Hcbs in Kcbs.
  pose proof (Kcursor next) as Knext. rewrite Hnext in Knext.
  pose proof (Kcursor count) as Kcount. rewrite Hcount in Kcount.
  pose proof (Kcursor distinct) as Kdistinct. rewrite Hdistinct in Kdistinct.
  clear Kheap Kcursor H0 H1 H2 H3 H4 Hfind Hnext Hcount Hdistinct Hupdate Hcbs Hcfg.
  unfold stop, UpdateWrapper_unwrap. rewrite Kupdate, K4. simpl.
  unfold FindWrapper_unwrap. simpl. rewrite Kfind, K0. simpl. rewrite K1. simpl.
  unfold _CursorMethodWrapper_unwrap. simpl. rewrite Knext, K1. simpl.
  rewrite K2. simpl. rewrite Kcount, K2. simpl.
  rewrite K3. simpl. rewrite Kdistinct, K3. simpl.
  eexists. split; [reflexivity|]. unfold same_driver, instrumented. simpl.
  rewrite Hf, Hu. split_and!; try done.
  - by intros [].
  - rewrite Kcbs.
    rewrite !remove_first_app by (apply (below_not_registered (next_ref rt)); [done|lia]).
    simpl. repeat (rewrite ?bool_decide_eq_true_2 by lia; rewrite ?bool_decide_eq_false_2 by lia;
                   simpl).
    by rewrite app_nil_r.
Qed.

(** [with instrument(): body], on a driver without interceptors and for
    a body that installs and removes nothing (it may change the
    configuration, as the body of [test_config_update] does, and with
    it the sample frequency and the package filter of the installed
    interceptors): the statement ends as the body does, whether the
    body returns or raises, and the five attributes of the driver and
    the list of callbacks are then as they were before. *)
Theorem instrument_restores {A : Type} (body : runtime float → result A * runtime float) rt :
  fresh_refs rt →
  plain_driver rt →
  keeps_installation (start rt) (snd (body (start rt))) →
  ∃ rt', instrument body rt = Ok (fst (body (start rt)), rt')
         ∧ same_driver rt rt'
         ∧ instrumented rt' = false.
Proof.
  intros Hfresh Hplain Hbody.
  destruct (stop_kept rt _ Hfresh Hplain Hbody) as (rt' & Hstop & Hsame & Hout).
  exists rt'. unfold instrument, contextmanager.
  destruct (body (start rt)) as [r rt2]. simpl in *. rewrite Hstop. done.
Qed.

Lemma cursor_wrap_installs (name : cursor_method) rt :
  isinstance rt (Cursor rt name) (_CursorMethodWrapper name) = false →
  Cursor (snd (_CursorMethodWrapper_wrap name rt)) name = Instance (next_ref rt)
  ∧ heap (snd (_CursorMethodWrapper_wrap name rt)) !! next_ref rt
    = Some (made (_CursorMethodWrapper name) (Cursor rt name) (get_config rt) None).
Proof.
  intros Hnot. unfold _CursorMethodWrapper_wrap. rewrite Hnot. simpl.
  rewrite bool_decide_eq_true_2 by done. by rewrite lookup_insert_eq.
Qed.

Lemma update_wrap_installs rt :
  isinstance rt (Collection_update rt) UpdateWrapper = false →
  Collection_update (snd (UpdateWrapper_wrap rt)) = Instance (next_ref rt)
  ∧ heap (snd (UpdateWrapper_wrap rt)) !! next_ref rt
    = Some (made UpdateWrapper (Collection_update rt) (get_config rt) None).
Proof.
  intros Hnot. unfold UpdateWrapper_wrap. rewrite Hnot. simpl. by rewrite lookup_insert_eq.
Qed.

(** [with cls.instrument(): body], for each of the five classes, on a
    state where no instance of the class is installed and for a body
    that installs and removes nothing (it may change the
    configuration): an instance of the class is in place when the body
    starts and when it ends, the statement ends as the body does,
    whether the body returns or raises, and the attribute of the class
    then holds what it held before. *)
Theorem Wrapper_instrument_restores {A : Type} cls
  (body : runtime float → result A * runtime float) rt :
  fresh_refs rt →
  isinstance rt (target cls rt) cls = false →
  keeps_installation (wrap cls rt) (snd (body (wrap cls rt))) →
  isinstance (wrap cls rt) (target cls (wrap cls rt)) cls = true
  ∧ isinstance (snd (body (wrap cls rt))) (target cls (snd (body (wrap cls rt)))) cls = true
  ∧ ∃ rt', Wrapper_instrument cls body rt = Ok (fst (body (wrap cls rt)), rt')
           ∧ target cls rt' = target cls rt.
Proof.
  intros Hfresh Hnot Hbody. unfold Wrapper_instrument, contextmanager.
  pose proof (keeps_installation_objects _ _ Hbody) as Hobjects.
  destruct Hbody as [(Kfind & Kupdate & Kcursor & _) Kheap].
  destruct (body (wrap cls rt)) as [r rt2]. simpl in Kfind, Kupdate, Kcursor, Kheap, Hobjects.
  destruct cls as [| |name]; simpl in *.
  - destruct (find_wrap_installs rt Hfresh Hnot)
      as (ref & w & ws & Hf & Hr & Hw & Hc & Hfn & Hws & Hall).
    destruct (Kheap _ _ Hw) as (w' & Hw' & Hc' & Hf' & Hws').
    assert (Forall (cursor_instance (heap rt2)) ws) as Hall'.
    { eapply Forall_impl; [exact Hall|]. intros cw. by apply cursor_instance_keeps. }
    destruct (find_unwrap_installed rt2 ref w' ws) as (rt' & Hrt' & Hfind); try congruence.
    split_and!.
    + unfold isinstance. rewrite Hf, Hw, Hc. by apply bool_decide_eq_true_2.
    + unfold isinstance. rewrite Kfind, Hf, Hw', Hc', Hc. by apply bool_decide_eq_true_2.
    + exists rt'. rewrite Hrt'. split; [done|congruence].
  - destruct (update_wrap_installs rt Hnot) as [Hu Hw].
    destruct (Kheap _ _ Hw) as (w' & Hw' & Hc' & Hf' & _). simpl in Hc', Hf'.
    split_and!.
    + unfold isinstance. by rewrite Hu, Hw.
    + unfold isinstance. rewrite Kupdate, Hu, Hw', Hc'. by apply bool_decide_eq_true_2.
    + eexists. split; [done|]. unfold UpdateWrapper_unwrap.
      rewrite Kupdate, Hu, Hw', Hc'. simpl. done.
  - destruct (cursor_wrap_installs name rt Hnot) as [Hm Hw].
    destruct (Kheap _ _ Hw) as (w' & Hw' & Hc' & Hf' & _). simpl in Hc', Hf'.
    split_and!.
    + unfold isinstance. rewrite Hm, Hw. simpl. by apply bool_decide_eq_true_2.
    + unfold isinstance. rewrite Kcursor, Hm, Hw', Hc'. by apply bool_decide_eq_true_2.
    + eexists. split; [done|]. unfold _CursorMethodWrapper_unwrap.
      rewrite Kcursor, Hm, Hw', Hc'. simpl.
      rewrite !bool_decide_eq_true_2 by done. simpl.
      by rewrite bool_decide_eq_true_2.
Qed.

End start_stop.

Lemma pristine_plain {float : Type} (cfg : config float) : plain_driver (pristine cfg).
Proof.
  split_and!; [by eexists..| |constructor]. intros []; by eexists.
Qed.

Lemma start_then_stop_witness :
  instrumented (start pristine_unit) = true
  ∧ start (start pristine_unit) = start pristine_unit
  ∧ ∃ rt', stop (start pristine_unit) = Ok rt'
           ∧ same_driver pristine_unit rt'
           ∧ get_config rt' = get_config pristine_unit
           ∧ instrumented rt' = false
           ∧ stop rt' = Ok rt'.
Proof.
  apply (start_then_stop pristine_unit); [apply pristine_fresh|apply pristine_plain].
Defined.

Lemma start_installs_all_witness :
  ∃ ref w,
    target _CursorCountWrapper (start pristine_unit) = Instance ref
    ∧ heap (start pristine_unit) !! ref = Some w
    ∧ isinstance (start pristine_unit) (target _CursorCountWrapper (start pristine_unit))
        _CursorCountWrapper = true
    ∧ heap pristine_unit !! ref = None
    ∧ class_ w = _CursorCountWrapper
    ∧ _func w = Function "count"
    ∧ _frequency w = tt
    ∧ _filter_packages w = Some ["mongodrums"; "pymongo"]
    ∧ ref ∈ update_callbacks (start pristine_unit)
    ∧ ref ∉ update_callbacks pristine_unit.
Proof.
  apply (start_installs_all pristine_unit _CursorCountWrapper);
    [apply pristine_fresh|apply pristine_plain].
Defined.

(** The configuration of [test_config_update] before and after the
    update of the sample frequency. *)
Definition pristine_at (frequency : nat) : runtime nat :=
  pristine {| sample_frequency := frequency; filter_packages := Some ["mongodrums"] |}.

Lemma configuration_reaches_interceptors_witness :
  ∃ ref w,
    target FindWrapper
      (notify {| sample_frequency := 1; filter_packages := Some ["mongodrums"] |}
         (start (pristine_at 0)))
    = Instance ref
    ∧ target FindWrapper (start (pristine_at 0)) = Instance ref
    ∧ heap (notify {| sample_frequency := 1; filter_packages := Some ["mongodrums"] |}
              (start (pristine_at 0))) !! ref
      = Some w
    ∧ class_ w = FindWrapper
    ∧ _func w = Function "find"
    ∧ _frequency w = 1
    ∧ _filter_packages w = Some ["mongodrums"]
    ∧ get_config (notify {| sample_frequency := 1; filter_packages := Some ["mongodrums"] |}
                    (start (pristine_at 0)))
      = {| sample_frequency := 1; filter_packages := Some ["mongodrums"] |}.
Proof.
  apply (configuration_reaches_interceptors (pristine_at 0)
           {| sample_frequency := 1; filter_packages := Some ["mongodrums"] |} FindWrapper);
    [apply pristine_fresh|apply pristine_plain].
Defined.

(** A body as in [test_config_update], whose last assertion does not
    hold: the configuration is changed, then the body fails. *)
Definition failing_body (rt : runtime unit) : result unit * runtime unit :=
  (Raise AssertionError, notify {| sample_frequency := tt; filter_packages := None |} rt).

Lemma instrument_restores_witness :
  ∃ rt', instrument failing_body pristine_unit = Ok (Raise AssertionError, rt')
         ∧ same_driver pristine_unit rt'
         ∧ instrumented rt' = false.
Proof.
  apply (instrument_restores failing_body pristine_unit);
    [apply pristine_fresh|apply pristine_plain|apply notify_keeps_installation].
Defined.

Lemma Wrapper_instrument_restores_witness :
  isinstance (wrap FindWrapper pristine_unit) (target FindWrapper (wrap FindWrapper pristine_unit))
    FindWrapper = true
  ∧ isinstance (snd (failing_body (wrap FindWrapper pristine_unit)))
      (target FindWrapper (snd (failing_body (wrap FindWrapper pristine_unit)))) FindWrapper
    = true
  ∧ ∃ rt', Wrapper_instrument FindWrapper failing_body pristine_unit
           = Ok (Raise AssertionError, rt')
           ∧ target FindWrapper rt' = Function "find".
Proof.
  apply (Wrapper_instrument_restores FindWrapper failing_body pristine_unit);
    [apply pristine_fresh|reflexivity|apply notify_keeps_installation].
Defined.

End Instrument.
